(** * A verification development for [lib/matrix.js]

    The JavaScript [Matrix] class is embedded over an abstract number
    interface [Num]: its JavaScript instance is IEEE binary64 (Rocq's
    [SpecFloat] with 53 bits of precision and exponent bound 1024, rounding
    to nearest even), and a second instance over the real numbers gives the
    same code in exact arithmetic.  Matrices are lists of rows, vectors are
    lists of numbers, and the private [_cache] of a matrix object is an
    explicit record threaded through the stateful methods. *)

From Stdlib Require Import String.
From Stdlib Require Import ZArith List Bool Lia Arith.
From Stdlib Require Import Reals Lra.
From Stdlib Require Import Floats.SpecFloat Sorting.Sorted Sorting.Permutation.
Import ListNotations.

(** ** Numbers *)

(** The operations of a JavaScript number used by [matrix.js]: arithmetic,
    [Math.abs], [Math.sqrt], the comparisons [<], [<=] and [===], and the
    conversion of small integer indices. *)
Class Num (F : Type) := {
  nzero : F;
  none : F;
  nadd : F -> F -> F;
  nsub : F -> F -> F;
  nmul : F -> F -> F;
  ndiv : F -> F -> F;
  nopp : F -> F;
  nabs : F -> F;
  nsqrt : F -> F;
  nltb : F -> F -> bool;
  nleb : F -> F -> bool;
  neqb : F -> F -> bool;
  nof_nat : nat -> F
}.

Declare Scope num_scope.
Delimit Scope num_scope with num.
Infix "+." := nadd (at level 50, left associativity) : num_scope.
Infix "-." := nsub (at level 50, left associativity) : num_scope.
Infix "*." := nmul (at level 40, left associativity) : num_scope.
Infix "/." := ndiv (at level 40, left associativity) : num_scope.
Open Scope num_scope.

(** JavaScript [x > y]. *)
Definition ngtb {F} `{Num F} (x y : F) : bool := nltb y x.

(** IEEE binary64, the JavaScript [number]. *)
Module Binary64.
Definition prec : Z := 53.
Definition emax : Z := 1024.
Definition t := spec_float.

Definition of_Z (z : Z) : t := binary_normalize prec emax z 0 false.

#[export] Instance num : Num spec_float := {|
  nzero := S754_zero false;
  none := of_Z 1;
  nadd := SFadd prec emax;
  nsub := SFsub prec emax;
  nmul := SFmul prec emax;
  ndiv := SFdiv prec emax;
  nopp := SFopp;
  nabs := SFabs;
  nsqrt := SFsqrt prec emax;
  nltb := SFltb;
  nleb := SFleb;
  neqb := SFeqb;
  nof_nat := fun k => of_Z (Z.of_nat k)
|}.

(** [Infinity]. *)
Definition infinity : t := S754_infinity false.

(** The literal [1e-k], the correctly rounded quotient [1 / 10^k]. *)
Definition tenth_pow (k : nat) : t := SFdiv prec emax (of_Z 1) (of_Z (10 ^ Z.of_nat k)).

(** [Number.isNaN]. *)
Definition is_nan (x : t) : bool := match x with S754_nan => true | _ => false end.
End Binary64.

(** The real numbers: the same code in exact arithmetic. *)
Module Exact.
Definition ltb (x y : R) : bool := if Rlt_dec x y then true else false.
Definition leb (x y : R) : bool := if Rle_dec x y then true else false.
Definition eqb (x y : R) : bool := if Req_EM_T x y then true else false.

#[export] Instance num : Num R := {|
  nzero := 0%R;
  none := 1%R;
  nadd := Rplus;
  nsub := Rminus;
  nmul := Rmult;
  ndiv := Rdiv;
  nopp := Ropp;
  nabs := Rabs;
  nsqrt := sqrt;
  nltb := ltb;
  nleb := leb;
  neqb := eqb;
  nof_nat := INR
|}.
End Exact.

(** A JavaScript call either returns or throws an [Error]. *)
Inductive js_result (A : Type) : Type :=
| Ok (a : A)
| Throw (msg : String.string).
Arguments Ok {A} a.
Arguments Throw {A} msg.

(** ** Lists updated by index *)

(** [l[i] = x] on an array, within bounds (out of range nothing changes). *)
Fixpoint set_nth {A} (l : list A) (i : nat) (x : A) : list A :=
  match l, i with
  | [], _ => []
  | _ :: l', O => x :: l'
  | y :: l', S i' => y :: set_nth l' i' x
  end.

(** [[a[i], a[j]] = [a[j], a[i]]]. *)
Definition swap_nth {A} (d : A) (l : list A) (i j : nat) : list A :=
  set_nth (set_nth l i (nth j l d)) j (nth i l d).

(** [Array.prototype.entries] as a list of index-value pairs. *)
Definition enumerate {A} (l : list A) : list (nat * A) :=
  combine (seq 0 (length l)) l.

Section Generic.
Context {F : Type} `{Num F}.

(** ** Vectors (the [Vector] collaborator)

    [vector.js] is not part of the sources; these follow the interface of
    the specification (section 6). *)

Definition vec := list F.

(** Modelled from the spec: [Vector.zero(n)]. *)
Definition vzero (n : nat) : vec := repeat nzero n.

(** Modelled from the spec: [Vector.e(i, n, scale)], the [i]th unit vector
    scaled by [c]. *)
Definition ve (i n : nat) (c : F) : vec :=
  map (fun k => if Nat.eqb k i then c else nzero) (seq 0 n).

(** Modelled from the spec: [v.add(w, factor, start)] adds [factor * w[k]]
    to [v[k]] for [k >= start]. *)
Definition vadd (v w : vec) (c : F) (start : nat) : vec :=
  map (fun '(k, x) => if Nat.leb start k then x +. c *. nth k w nzero else x)
      (enumerate v).

(** Modelled from the spec: [v.scale(c, start)] multiplies [v[k]] by [c]
    for [k >= start]. *)
Definition vscale (v : vec) (c : F) (start : nat) : vec :=
  map (fun '(k, x) => if Nat.leb start k then x *. c else x) (enumerate v).

(** Modelled from the spec: [v.sub(w)]. *)
Definition vsub (v w : vec) : vec :=
  map (fun '(k, x) => x -. nth k w nzero) (enumerate v).

(** Modelled from the spec: [v.dot(w)], accumulated from [0] left to
    right. *)
Definition vdot (v w : vec) : F :=
  fold_left (fun a '(k, x) => a +. x *. nth k w nzero) (enumerate v) nzero.

(** Modelled from the spec: [v.size], the Euclidean norm. *)
Definition vsize (v : vec) : F := nsqrt (vdot v v).

(** Modelled from the spec: [v.equals(w, ε)]: same length and no pair of
    entries farther apart than [ε]. *)
Definition vequals (v w : vec) (eps : F) : bool :=
  Nat.eqb (length v) (length w) &&
  forallb (fun '(k, x) => negb (ngtb (nabs (x -. nth k w nzero)) eps)) (enumerate v).

(** ** Matrices *)

Definition mat := list vec.

(** [this[i][j]]. *)
Definition get (M : mat) (i j : nat) : F := nth j (nth i M []) nzero.

(** [this[i][j] = x]. *)
Definition set (M : mat) (i j : nat) (x : F) : mat :=
  set_nth M i (set_nth (nth i M []) j x).

(** [get m()]. *)
Definition mrows (M : mat) : nat := length M.

(** [get n()]: [this.length === 0 ? 0 : this[0].length]. *)
Definition mcols (M : mat) : nat :=
  match M with [] => 0 | r :: _ => length r end.

(** The invariant checked by [Matrix.create]: all rows have length [n]. *)
Definition wf (M : mat) : bool := forallb (fun r => Nat.eqb (length r) (mcols M)) M.

(** [Matrix.identity(n, λ)]. *)
Definition identity (n : nat) (c : F) : mat := map (fun i => ve i n c) (seq 0 n).

(** [Matrix.zero(m, n)]. *)
Definition mzero (m n : nat) : mat := map (fun _ => vzero n) (seq 0 m).

(** [Matrix.permutation(vals)]. *)
Definition permutation (vals : list nat) : mat :=
  map (fun v => ve v (length vals) none) vals.

(** [col(j)]. *)
Definition col (M : mat) (j : nat) : vec := map (fun row => nth j row nzero) M.

(** [Matrix.from(this.cols())], the transpose. *)
Definition transpose (M : mat) : mat := map (col M) (seq 0 (mcols M)).

(** [diag()]. *)
Definition diag (M : mat) : list F :=
  map (fun j => get M j j) (seq 0 (Nat.min (mrows M) (mcols M))).

(** [get trace()]. *)
Definition trace (M : mat) : F := fold_left nadd (diag M) nzero.

(** The body of [mult(other)]: entry [(r, i)] is
    [row.reduce((a, v, j) => a + v * other[j][i], 0)]. *)
Definition mult (A B : mat) : mat :=
  map (fun row => map (fun i => fold_left (fun a '(j, v) => a +. v *. get B j i)
                                          (enumerate row) nzero)
                      (seq 0 (mcols B)))
      A.

(** The body of [apply(v)]. *)
Definition mapply (A : mat) (v : vec) : vec := map (fun row => vdot row v) A.

(** [equals(other, ε)]. *)
Definition mequals (A B : mat) (eps : F) : bool :=
  Nat.eqb (mrows A) (mrows B) && Nat.eqb (mcols A) (mcols B) &&
  forallb (fun '(i, row) => vequals row (nth i B []) eps) (enumerate A).

(** [rowScale(i, c, start)]. *)
Definition rowScale (M : mat) (i : nat) (c : F) (start : nat) : mat :=
  set_nth M i (vscale (nth i M []) c start).

(** [rowReplace(i1, i2, c, start)]. *)
Definition rowReplace (M : mat) (i1 i2 : nat) (c : F) (start : nat) : mat :=
  set_nth M i1 (vadd (nth i1 M []) (nth i2 M []) c start).

(** [rowSwap(i1, i2)]. *)
Definition rowSwap (M : mat) (i1 i2 : nat) : mat := swap_nth [] M i1 i2.

(** ** Leading entries and the echelon predicates *)

(** The first [j < n] with [Math.abs(row[j]) > ε]. *)
Fixpoint first_nonzero (row : vec) (eps : F) (j fuel : nat) : option nat :=
  match fuel with
  | O => None
  | S f => if ngtb (nabs (nth j row nzero)) eps then Some j
           else first_nonzero row eps (S j) f
  end.

(** [leadingEntries(ε)]. *)
Definition leadingEntries (M : mat) (eps : F) : list (nat * nat) :=
  flat_map (fun '(i, row) =>
              match first_nonzero row eps 0 (mcols M) with
              | Some j => [(i, j)]
              | None => []
              end) (enumerate M).

(** The loop of [isEchelon(ε)], with [i0] and [j0] starting at [-1]. *)
Fixpoint isEchelon_loop (les : list (nat * nat)) (i0 j0 : Z) : bool :=
  match les with
  | [] => true
  | (i, j) :: rest =>
      if negb (Z.eqb (Z.of_nat i) (i0 + 1)) || Z.leb (Z.of_nat j) j0 then false
      else isEchelon_loop rest (Z.of_nat i) (Z.of_nat j)
  end.

(** [isEchelon(ε)]. *)
Definition isEchelon (M : mat) (eps : F) : bool :=
  isEchelon_loop (leadingEntries M eps) (-1) (-1).

(** [for(let k = 0; k < i; ++k) if(this[k][j] !== 0) return false;] *)
Definition above_zero (M : mat) (i j : nat) : bool :=
  forallb (fun k => neqb (get M k j) nzero) (seq 0 i).

(** The loop of [isRREF(ε)]. *)
Fixpoint isRREF_loop (M : mat) (les : list (nat * nat)) (i0 j0 : Z) : bool :=
  match les with
  | [] => true
  | (i, j) :: rest =>
      if negb (Z.eqb (Z.of_nat i) (i0 + 1)) || Z.leb (Z.of_nat j) j0 then false
      else if negb (neqb (get M i j) none) then false
      else if negb (above_zero M i j) then false
      else isRREF_loop M rest (Z.of_nat i) (Z.of_nat j)
  end.

(** [isRREF(ε)]. *)
Definition isRREF (M : mat) (eps : F) : bool :=
  isRREF_loop M (leadingEntries M eps) (-1) (-1).

(** ** The [PA = LU] factorization *)

(** [PLUData]: the permutation, [L], [U], [E] with [EA = U], the pivots and
    the sign of the permutation. *)
Record PLUData := mkPLU {
  plu_P : list nat;
  plu_L : mat;
  plu_U : mat;
  plu_E : mat;
  plu_pivots : list (nat * nat);
  plu_signP : Z
}.

(** The working variables of the elimination loop of [PLU(ε)]; [curRow] is
    [st_row]. *)
Record plu_state := mkst {
  st_P : list nat;
  st_L : mat;
  st_U : mat;
  st_E : mat;
  st_pivots : list (nat * nat);
  st_signP : Z;
  st_row : nat
}.

(** "Find maximal pivot": the scan over [i = curRow+1 .. m-1] that keeps
    the first entry of largest absolute value. *)
Definition find_pivot (U : mat) (m curRow curCol : nat) : F * nat :=
  fold_left (fun '(pivot, row) i =>
               if ngtb (nabs (get U i curCol)) (nabs pivot)
               then (get U i curCol, i) else (pivot, row))
            (seq (S curRow) (m - S curRow)) (get U curRow curCol, curRow).

(** [for(let j = 0; j < curRow; ++j) [L[row][j], L[curRow][j]] = ...]. *)
Definition swapL (L : mat) (row curRow : nat) : mat :=
  fold_left (fun L j => let a := get L curRow j in let b := get L row j in
                        set (set L row j a) curRow j b)
            (seq 0 curRow) L.

(** "Eliminate": for [i = curRow+1 .. m-1], [l = U[i][curCol] / pivot],
    [L[i][curRow] = l], [U[i][curCol] = 0] and the row replacements in [U]
    (from column [curCol+1]) and [E]. *)
Definition eliminate (L U E : mat) (m curRow curCol : nat) (pivot : F) : mat * mat * mat :=
  fold_left (fun '(L, U, E) i =>
               let l := get U i curCol /. pivot in
               let L := set L i curRow l in
               let U := set U i curCol nzero in
               (L, rowReplace U i curRow (nopp l) (S curCol),
                rowReplace E i curRow (nopp l) 0))
            (seq (S curRow) (m - S curRow)) (L, U, E).

(** "Clear the column so U is really upper-triangular". *)
Definition clear_col (U : mat) (m curRow curCol : nat) : mat :=
  fold_left (fun U i => set U i curCol nzero) (seq curRow (m - curRow)) U.

(** One iteration of the loop body of [PLU(ε)], at column [curCol]. *)
Definition plu_step (eps : F) (m curCol : nat) (st : plu_state) : plu_state :=
  let curRow := st_row st in
  let '(pivot, row) := find_pivot (st_U st) m curRow curCol in
  if ngtb (nabs pivot) eps then
    let '(P, signP, U, E, L) :=
      if negb (Nat.eqb row curRow) then
        (swap_nth 0 (st_P st) row curRow, Z.opp (st_signP st),
         rowSwap (st_U st) row curRow, rowSwap (st_E st) row curRow,
         swapL (st_L st) row curRow)
      else (st_P st, st_signP st, st_U st, st_E st, st_L st) in
    let '(L, U, E) := eliminate L U E m curRow curCol pivot in
    mkst P L U E (st_pivots st ++ [(curRow, curCol)]) signP (S curRow)
  else
    mkst (st_P st) (st_L st) (clear_col (st_U st) m curRow curCol) (st_E st)
         (st_pivots st) (st_signP st) curRow.

(** [for(let curRow = 0, curCol = 0; curRow < m && curCol < n; ++curCol)];
    [fuel] is [n - curCol]. *)
Fixpoint plu_loop (eps : F) (m : nat) (fuel curCol : nat) (st : plu_state) : plu_state :=
  match fuel with
  | O => st
  | S f => if Nat.ltb (st_row st) m
           then plu_loop eps m f (S curCol) (plu_step eps m curCol st)
           else st
  end.

(** The computation of [PLU(ε)] on the entries of a matrix. *)
Definition PLU_compute (A : mat) (eps : F) : PLUData :=
  let m := mrows A in
  let n := mcols A in
  let st0 := mkst (seq 0 m) (identity m none) A (identity m none) [] 1%Z 0 in
  let st := plu_loop eps m n 0 st0 in
  mkPLU (st_P st) (st_L st) (st_U st) (st_E st) (st_pivots st) (st_signP st).

(** ** Gauss--Jordan elimination *)

(** The elimination above one pivot [(row, col)] in [rref()], with the
    same row operations recorded in [rowOps]. *)
Definition rref_pivot (RO : mat * mat) (pv : nat * nat) : mat * mat :=
  let '(row, col) := pv in
  let '(Rm, Ops) := RO in
  let pivot := get Rm row col in
  let '(Rm, Ops) :=
    fold_left (fun '(Rm, Ops) i =>
                 let Rm := rowReplace Rm i row (nopp (get Rm i col) /. pivot) (S col) in
                 let Ops := rowReplace Ops i row (nopp (get Rm i col) /. pivot) 0 in
                 (set Rm i col nzero, Ops))
              (seq 0 row) (Rm, Ops) in
  let Rm := rowScale Rm row (none /. pivot) (S col) in
  let Ops := rowScale Ops row (none /. pivot) 0 in
  (set Rm row col none, Ops).

(** The computation of [rref(ε)] from [PLU(ε)]: the pivots from the last to
    the first.  Returns the reduced form and [rowOps]. *)
Definition rref_compute (d : PLUData) : mat * mat :=
  fold_left rref_pivot (rev (plu_pivots d)) (plu_U d, plu_E d).

(** ** Solving [Ax = b] *)

(** Forward substitution [y[i] -= L[i][ii] * y[ii]], in place. *)
Definition forward_subst (L : mat) (m : nat) (Pb : vec) : vec :=
  fold_left (fun y i =>
               fold_left (fun y ii => set_nth y i (nth i y nzero -. get L i ii *. nth ii y nzero))
                         (seq 0 i) y)
            (seq 1 (m - 1)) Pb.

(** Reverse substitution over the pivots [p = r-1 .. 0]. *)
Definition back_subst (U : mat) (pivots : list (nat * nat)) (r n : nat) (y : vec) : vec :=
  fold_left (fun x p =>
               let '(row, col) := nth p pivots (0, 0) in
               let x := set_nth x col (nth row y nzero) in
               let x := fold_left (fun x pp =>
                                     let col1 := snd (nth pp pivots (0, 0)) in
                                     set_nth x col (nth col x nzero -. get U row col1 *. nth col1 x nzero))
                                  (seq (S p) (r - S p)) x in
               set_nth x col (nth col x nzero /. get U row col))
            (rev (seq 0 r)) (vzero n).

(** The body of [solve(b, ε)] after the dimension check, given the
    factorization and the rank; [None] is [null]. *)
Definition solve_compute (d : PLUData) (r m n : nat) (b : vec) (eps : F) : option vec :=
  let Pb := map (fun i => nth (nth i (plu_P d) 0) b nzero) (seq 0 m) in
  let y := forward_subst (plu_L d) m Pb in
  if existsb (fun i => ngtb (nabs (nth i y nzero)) eps) (seq r (m - r)) then None
  else Some (back_subst (plu_U d) (plu_pivots d) r n y).

(** ** QR decomposition by modified Gram--Schmidt *)

(** [QRData]: [Q], [R] and the list [LD] of linearly dependent columns. *)
Record QRData := mkQR {
  qr_Q : mat;
  qr_R : mat;
  qr_LD : list nat
}.

(** The inner loop over [jj < j]: [factor = ui[jj].dot(u)],
    [u.sub(ui[jj].clone().scale(factor))], [R[jj][j] = factor]. *)
Definition qr_project (ui : list vec) (j : nat) (uR : vec * mat) : vec * mat :=
  fold_left (fun '(u, Rm) jj =>
               let factor := vdot (nth jj ui []) u in
               (vsub u (vscale (nth jj ui []) factor 0), set Rm jj j factor))
            (seq 0 j) uR.

(** One iteration of the outer loop of [QR(ε)], for column [j]. *)
Definition qr_column (eps : F) (m : nat) (vi : list vec)
           (acc : list vec * mat * list nat) (j : nat) : list vec * mat * list nat :=
  let '(ui, Rm, LD) := acc in
  let '(u, Rm) := qr_project ui j (nth j vi [], Rm) in
  let l := vsize u in
  if ngtb l eps then (ui ++ [vscale u (none /. l) 0], set Rm j j l, LD)
  else (ui ++ [vzero m], set Rm j j nzero, LD ++ [j]).

(** The computation of [QR(ε)]; [Q] is [Matrix.from(ui).transpose]. *)
Definition QR_compute (A : mat) (eps : F) : QRData :=
  let m := mrows A in
  let n := mcols A in
  let '(ui, Rm, LD) := fold_left (qr_column eps m (transpose A)) (seq 0 n)
                                 ([], mzero n n, []) in
  mkQR (transpose ui) Rm LD.

(** ** Characteristic polynomial *)

(** Modelled from the spec: a [Polynomial] is its list of coefficients,
    leading coefficient first (so that [charpoly[n]] is the constant
    term); [Polynomial.create(...coeffs)] keeps them in that order. *)
Definition poly := list F.
Definition poly_create (coeffs : list F) : poly := coeffs.

(** Modelled from the spec: [p.scale(c)] multiplies every coefficient. *)
Definition poly_scale (c : F) (p : poly) : poly := map (fun a => a *. c) p.

(** One iteration [i] of the loop of [get charpoly()], on [ret], [traces]
    and [power]. *)
Definition charpoly_step (A : mat) (acc : list F * list F * mat) (i : nat) : list F * list F * mat :=
  let '(ret, traces, power) := acc in
  let traces := traces ++ [trace power] in
  let power := mult power A in
  let r := fold_left (fun r j => r +. nth j ret nzero *. nth (i - j - 1) traces nzero)
                     (seq 0 i) (nth i traces nzero) in
  (ret ++ [nopp r /. nof_nat (S i)], traces, power).

(** The body of [get charpoly()] after the squareness check. *)
Definition charpoly_compute (A : mat) : poly :=
  let n := mcols A in
  let '(ret, _, _) := fold_left (charpoly_step A) (seq 0 n) ([], [], A) in
  let p := poly_create (none :: ret) in
  if Nat.eqb (n mod 2) 1 then poly_scale (nopp none) p else p.

(** ** Complex numbers and eigenvalues *)

(** Modelled from the spec: a [Complex] with its real and imaginary
    parts. *)
Record cplx := mkC { Re : F; Im : F }.

(** An eigenvalue as returned by [eigenvalues()] or given to
    [hintEigenvalues]: a number or a [Complex]. *)
Inductive root :=
| RealRoot (x : F)
| CplxRoot (z : cplx).

(** ** Subspaces (the [Subspace] collaborator) *)

(** Modelled from the spec: a [Subspace] built from a basis of [R^n]
    ([isBasis: true]). *)
Record subspace := mkSub { sub_basis : list vec; sub_n : nat }.

(** Modelled from the spec: [dim] of a subspace given by a basis. *)
Definition sub_dim (V : subspace) : nat := length (sub_basis V).

(** Modelled from the spec: [basis], the matrix whose columns are the basis
    vectors. *)
Definition sub_basis_mat (V : subspace) : mat :=
  match sub_basis V with
  | [] => mzero (sub_n V) 0
  | _ => transpose (sub_basis V)
  end.

(** Modelled from the spec: [ONbasis(ε)], an orthonormal basis, here the
    nonzero columns of the Gram--Schmidt [Q] of [basis]. *)
Definition sub_ONbasis (V : subspace) (eps : F) : mat :=
  let d := QR_compute (sub_basis_mat V) eps in
  transpose (map (col (qr_Q d))
                 (filter (fun j => negb (existsb (Nat.eqb j) (qr_LD d)))
                         (seq 0 (mcols (sub_basis_mat V))))).

(** ** Matrix objects and their cache *)

(** The private [_cache]: [undefined] fields are [None]. *)
Record cache := mkCache {
  c_transpose : option mat;
  c_charpoly : option poly;
  c_PLU : option PLUData;
  c_rank : option nat;
  c_rref : option mat;
  c_rowOps : option mat;
  c_nullBasis : option (list vec);
  c_nullSpace : option subspace;
  c_QR : option QRData;
  c_eigenvalues : option (list (root * nat));
  c_eigenspaces : option (list (F * subspace));
  c_cplxEigenspaces : option (list (cplx * list (vec * vec)))
}.

Definition empty_cache : cache :=
  mkCache None None None None None None None None None None None None.

(** A [Matrix] object: its entries and its cache. *)
Record obj := mkObj { entries : mat; ocache : cache }.

(** [Matrix.create(...rows)] of well-formed rows: a fresh object. *)
Definition fresh (A : mat) : obj := mkObj A empty_cache.

Definition upd_cache (o : obj) (f : cache -> cache) : obj := mkObj (entries o) (f (ocache o)).

Definition set_transpose (v : mat) (c : cache) : cache :=
  let 'mkCache _ a2 a3 a4 a5 a6 a7 a8 a9 a10 a11 a12 := c in
  mkCache (Some v) a2 a3 a4 a5 a6 a7 a8 a9 a10 a11 a12.
Definition set_charpoly (v : poly) (c : cache) : cache :=
  let 'mkCache a1 _ a3 a4 a5 a6 a7 a8 a9 a10 a11 a12 := c in
  mkCache a1 (Some v) a3 a4 a5 a6 a7 a8 a9 a10 a11 a12.
Definition set_PLU (v : PLUData) (c : cache) : cache :=
  let 'mkCache a1 a2 _ a4 a5 a6 a7 a8 a9 a10 a11 a12 := c in
  mkCache a1 a2 (Some v) a4 a5 a6 a7 a8 a9 a10 a11 a12.
Definition set_rank (v : nat) (c : cache) : cache :=
  let 'mkCache a1 a2 a3 _ a5 a6 a7 a8 a9 a10 a11 a12 := c in
  mkCache a1 a2 a3 (Some v) a5 a6 a7 a8 a9 a10 a11 a12.
Definition set_rref (v w : mat) (c : cache) : cache :=
  let 'mkCache a1 a2 a3 a4 _ _ a7 a8 a9 a10 a11 a12 := c in
  mkCache a1 a2 a3 a4 (Some v) (Some w) a7 a8 a9 a10 a11 a12.
Definition set_nullBasis (v : list vec) (c : cache) : cache :=
  let 'mkCache a1 a2 a3 a4 a5 a6 _ a8 a9 a10 a11 a12 := c in
  mkCache a1 a2 a3 a4 a5 a6 (Some v) a8 a9 a10 a11 a12.
Definition set_nullSpace (v : subspace) (c : cache) : cache :=
  let 'mkCache a1 a2 a3 a4 a5 a6 a7 _ a9 a10 a11 a12 := c in
  mkCache a1 a2 a3 a4 a5 a6 a7 (Some v) a9 a10 a11 a12.
Definition set_QR (v : QRData) (r : nat) (c : cache) : cache :=
  let 'mkCache a1 a2 a3 _ a5 a6 a7 a8 _ a10 a11 a12 := c in
  mkCache a1 a2 a3 (Some r) a5 a6 a7 a8 (Some v) a10 a11 a12.
Definition set_eigenvalues (v : list (root * nat)) (c : cache) : cache :=
  let 'mkCache a1 a2 a3 a4 a5 a6 a7 a8 a9 _ a11 a12 := c in
  mkCache a1 a2 a3 a4 a5 a6 a7 a8 a9 (Some v) a11 a12.
Definition set_eigenspaces (v : list (F * subspace)) (c : cache) : cache :=
  let 'mkCache a1 a2 a3 a4 a5 a6 a7 a8 a9 a10 _ a12 := c in
  mkCache a1 a2 a3 a4 a5 a6 a7 a8 a9 a10 (Some v) a12.
Definition set_cplxEigenspaces (v : list (cplx * list (vec * vec))) (c : cache) : cache :=
  let 'mkCache a1 a2 a3 a4 a5 a6 a7 a8 a9 a10 a11 _ := c in
  mkCache a1 a2 a3 a4 a5 a6 a7 a8 a9 a10 a11 (Some v).

(** ** Methods of a matrix object

    Each method takes the object and returns its result with the object
    afterwards (only the cache changes, except for the mutators). *)

(** [get transpose()]. *)
Definition m_transpose (o : obj) : mat * obj :=
  match c_transpose (ocache o) with
  | Some t => (t, o)
  | None => let t := transpose (entries o) in (t, upd_cache o (set_transpose t))
  end.

(** [isSquare()]. *)
Definition isSquare (M : mat) : bool := Nat.eqb (mrows M) (mcols M).

(** [get charpoly()]. *)
Definition m_charpoly (o : obj) : js_result (poly * obj) :=
  match c_charpoly (ocache o) with
  | Some p => Ok (p, o)
  | None =>
      if negb (isSquare (entries o))
      then Throw "Tried to compute the characteristic polynomial of a non-square matrix"%string
      else let p := charpoly_compute (entries o) in Ok (p, upd_cache o (set_charpoly p))
  end.

(** [PLU(ε)]. *)
Definition m_PLU (o : obj) (eps : F) : PLUData * obj :=
  match c_PLU (ocache o) with
  | Some d => (d, o)
  | None => let d := PLU_compute (entries o) eps in (d, upd_cache o (set_PLU d))
  end.

(** [pivots(ε)]. *)
Definition m_pivots (o : obj) (eps : F) : list (nat * nat) * obj :=
  let '(d, o) := m_PLU o eps in (plu_pivots d, o).

(** [rank(ε)]. *)
Definition m_rank (o : obj) (eps : F) : nat * obj :=
  match c_rank (ocache o) with
  | Some r => (r, o)
  | None => let '(p, o) := m_pivots o eps in
            (length p, upd_cache o (set_rank (length p)))
  end.

(** [rref(ε)]; it also stores [rowOps]. *)
Definition m_rref (o : obj) (eps : F) : mat * obj :=
  match c_rref (ocache o) with
  | Some r => (r, o)
  | None => let '(d, o) := m_PLU o eps in
            let '(r, ops) := rref_compute d in
            (r, upd_cache o (set_rref r ops))
  end.

(** [rowOps(ε)]: [this.rref(ε); return this._cache.rowOps] ([None] is
    [undefined]). *)
Definition m_rowOps (o : obj) (eps : F) : option mat * obj :=
  match c_rowOps (ocache o) with
  | Some e => (Some e, o)
  | None => let '(_, o) := m_rref o eps in (c_rowOps (ocache o), o)
  end.

(** [isFullRowRank(ε)]. *)
Definition m_isFullRowRank (o : obj) (eps : F) : bool * obj :=
  if Nat.ltb (mcols (entries o)) (mrows (entries o)) then (false, o)
  else let '(r, o) := m_rank o eps in (Nat.eqb r (mrows (entries o)), o).

(** [isFullColRank(ε)]. *)
Definition m_isFullColRank (o : obj) (eps : F) : bool * obj :=
  if Nat.ltb (mrows (entries o)) (mcols (entries o)) then (false, o)
  else let '(r, o) := m_rank o eps in (Nat.eqb r (mcols (entries o)), o).

(** [isInvertible(ε)]. *)
Definition m_isInvertible (o : obj) (eps : F) : bool * obj :=
  let '(b, o) := m_isFullRowRank o eps in
  if b then m_isFullColRank o eps else (false, o).

(** [inverse(ε)]. *)
Definition m_inverse (o : obj) (eps : F) : js_result (option mat * obj) :=
  if negb (isSquare (entries o)) then Throw "Tried to invert a non-square matrix"%string
  else let '(E, o) := m_rowOps o eps in
       let '(b, o) := m_isInvertible o eps in
       if negb b then Throw "Tried to invert a singular matrix"%string else Ok (E, o).

(** [solve(b, ε)]. *)
Definition m_solve (o : obj) (b : vec) (eps : F) : js_result (option vec * obj) :=
  if negb (Nat.eqb (length b) (mrows (entries o)))
  then Throw "Incompatible dimensions of matrix and vector"%string
  else let '(d, o) := m_PLU o eps in
       let '(r, o) := m_rank o eps in
       Ok (solve_compute d r (mrows (entries o)) (mcols (entries o)) b eps, o).

(** [QR(ε)]; it also stores the rank [n - LD.length]. *)
Definition m_QR (o : obj) (eps : F) : QRData * obj :=
  match c_QR (ocache o) with
  | Some d => (d, o)
  | None => let d := QR_compute (entries o) eps in
            (d, upd_cache o (set_QR d (mcols (entries o) - length (qr_LD d))))
  end.

(** The loop of [nullBasis(ε)] over the columns, with the pivots not yet
    reached and those already passed ([previous]). *)
Fixpoint null_loop (rref : mat) (n : nat) (js : list nat) (pivots previous : list (nat * nat))
         (basis : list vec) : list vec :=
  match js with
  | [] => basis
  | j :: js =>
      match pivots with
      | (r, c) :: ps =>
          if Nat.eqb c j then null_loop rref n js ps (previous ++ [(r, c)]) basis
          else
            let v := fold_left (fun v '(row, col) => set_nth v col (nopp (get rref row j)))
                               previous (vzero n) in
            null_loop rref n js pivots previous (basis ++ [set_nth v j none])
      | [] =>
          let v := fold_left (fun v '(row, col) => set_nth v col (nopp (get rref row j)))
                             previous (vzero n) in
          null_loop rref n js pivots previous (basis ++ [set_nth v j none])
      end
  end.

(** [nullBasis(ε)]. *)
Definition m_nullBasis (o : obj) (eps : F) : list vec * obj :=
  match c_nullBasis (ocache o) with
  | Some b => (b, o)
  | None =>
      let '(r, o) := m_rref o eps in
      let '(p, o) := m_pivots o eps in
      let b := null_loop r (mcols (entries o)) (seq 0 (mcols (entries o))) p [] [] in
      (b, upd_cache o (set_nullBasis b))
  end.

(** [nullSpace(ε)]. *)
Definition m_nullSpace (o : obj) (eps : F) : subspace * obj :=
  match c_nullSpace (ocache o) with
  | Some V => (V, o)
  | None => let '(b, o) := m_nullBasis o eps in
            let V := mkSub b (mcols (entries o)) in
            (V, upd_cache o (set_nullSpace V))
  end.

(** [invalidate()]: [delete this.__cache]. *)
Definition invalidate (o : obj) : obj := mkObj (entries o) empty_cache.

(** [this[ii+i].splice(j, M.n, ...M[ii])] on one row. *)
Definition splice_row (row : vec) (j k : nat) (items : vec) : vec :=
  firstn j row ++ items ++ skipn (j + k) row.

(** [insertSubmatrix(i, j, M)]; a row [ii+i] past the end is [undefined],
    whose [splice] throws a [TypeError]. *)
Definition m_insertSubmatrix (o : obj) (i j : nat) (S : mat) : js_result obj :=
  if Nat.ltb (mrows (entries o)) (i + mrows S) then Throw "TypeError"%string
  else Ok (mkObj (fold_left (fun M ii => set_nth M (ii + i)
                                                 (splice_row (nth (ii + i) M []) j (mcols S) (nth ii S [])))
                            (seq 0 (mrows S)) (entries o))
                 (ocache o)).

(** The methods [rowScale], [rowReplace] and [rowSwap] on an object (rows
    within range). *)
Definition m_rowScale (o : obj) (i : nat) (c : F) (start : nat) : obj :=
  mkObj (rowScale (entries o) i c start) (ocache o).
Definition m_rowReplace (o : obj) (i1 i2 : nat) (c : F) (start : nat) : obj :=
  mkObj (rowReplace (entries o) i1 i2 c start) (ocache o).
Definition m_rowSwap (o : obj) (i1 i2 : nat) : obj :=
  mkObj (rowSwap (entries o) i1 i2) (ocache o).

(** [hintEigenvalues(...eigenvalues)]. *)
Definition hintEigenvalues (o : obj) (evs : list (root * nat)) : obj :=
  upd_cache o (set_eigenvalues evs).

(** ** More of the [Matrix] interface *)

(** [Matrix.create(...rows)]: no rows give the empty matrix, rows of
    different lengths throw (the rows are copied into [Vector]s with the
    same entries). *)
Definition create (rows : list vec) : js_result mat :=
  match rows with
  | [] => Ok []
  | r0 :: _ =>
      if existsb (fun row => negb (Nat.eqb (length row) (length r0))) rows
      then Throw "Matrix rows must have the same length."%string
      else Ok rows
  end.

(** [Math.abs(this[i][j]) > ε] in the loops of the triangularity tests: a
    read past the end of row [i] is [undefined], [Math.abs(undefined)] is
    [NaN] and the comparison is false. *)
Definition entry_gt (M : mat) (i j : nat) (eps : F) : bool :=
  match nth_error (nth i M []) j with
  | Some x => ngtb (nabs x) eps
  | None => false
  end.

(** [isUpperTri(ε)]: [for(i = 1; i < m; ++i) for(j = 0; j < i; ++j)]. *)
Definition isUpperTri (M : mat) (eps : F) : bool :=
  forallb (fun i => forallb (fun j => negb (entry_gt M i j eps)) (seq 0 i))
          (seq 1 (mrows M - 1)).

(** [isLowerTri(ε)]: [for(i = 0; i < m; ++i) for(j = i+1; j < n; ++j)]. *)
Definition isLowerTri (M : mat) (eps : F) : bool :=
  forallb (fun i => forallb (fun j => negb (entry_gt M i j eps)) (seq (S i) (mcols M - S i)))
          (seq 0 (mrows M)).

(** The loop [for(let d of this.diag()) if(Math.abs(d - 1) > ε) return
    false] of [isUpperUnip] and [isLowerUnip]; [this[j][j]] past the end
    of a row is [undefined] and [Math.abs(undefined - 1) > ε] is false. *)
Definition unip_diag (M : mat) (eps : F) : bool :=
  forallb (fun j => match nth_error (nth j M []) j with
                    | Some d => negb (ngtb (nabs (d -. none)) eps)
                    | None => true
                    end)
          (seq 0 (Nat.min (mrows M) (mcols M))).

(** [isUpperUnip(ε)]. *)
Definition isUpperUnip (M : mat) (eps : F) : bool := unip_diag M eps && isUpperTri M eps.

(** [isLowerUnip(ε)]. *)
Definition isLowerUnip (M : mat) (eps : F) : bool := unip_diag M eps && isLowerTri M eps.

(** [isDiagonal(ε)]. *)
Definition isDiagonal (M : mat) (eps : F) : bool := isLowerTri M eps && isUpperTri M eps.

(** [mult(other)] with its dimension check. *)
Definition m_mult (A B : mat) : js_result mat :=
  if negb (Nat.eqb (mrows B) (mcols A))
  then Throw "Cannot multiply matrices of incompatible dimensions"%string
  else Ok (mult A B).

(** [apply(v)] with its dimension check. *)
Definition m_apply (A : mat) (v : vec) : js_result vec :=
  if negb (Nat.eqb (length v) (mcols A))
  then Throw "Cannot multiply matrix and vector of incompatible dimensions"%string
  else Ok (mapply A v).

(** [add(other, factor)] on the entries (the rows are changed in place and
    the cache is kept). *)
Definition add (A B : mat) (c : F) : js_result mat :=
  if negb (Nat.eqb (mrows A) (mrows B)) || negb (Nat.eqb (mcols A) (mcols B))
  then Throw "Tried to add matrices of different sizes"%string
  else Ok (map (fun '(i, row) => vadd row (nth i B []) c 0) (enumerate A)).

(** [sub(other)]: [this.add(other, -1)]. *)
Definition sub (A B : mat) : js_result mat := add A B (nopp none).

(** [scale(c)] on the entries. *)
Definition scale (A : mat) (c : F) : mat := map (fun row => vscale row c 0) A.

(** [get normal()]: [this.transpose.mult(this)], on an object whose cache
    holds no normal matrix yet (the record [cache] has no field for it). *)
Definition m_normal (o : obj) : js_result (mat * obj) :=
  let '(t, o) := m_transpose o in
  match m_mult t (entries o) with
  | Ok N => Ok (N, o)
  | Throw e => Throw e
  end.

(** [isOrthogonal(ε)]: [this.isSquare() && this.normal.equals(
    Matrix.identity(this.n), ε)]. *)
Definition m_isOrthogonal (o : obj) (eps : F) : js_result (bool * obj) :=
  if negb (isSquare (entries o)) then Ok (false, o)
  else match m_normal o with
       | Ok (N, o) => Ok (mequals N (identity (mcols (entries o)) none) eps, o)
       | Throw e => Throw e
       end.

(** [nullity(ε)]: [this.n - this.rank(ε)]. *)
Definition m_nullity (o : obj) (eps : F) : nat * obj :=
  let '(r, o) := m_rank o eps in (mcols (entries o) - r, o).

(** [isSingular(ε)]. *)
Definition m_isSingular (o : obj) (eps : F) : bool * obj :=
  let '(b, o) := m_isInvertible o eps in (negb b, o).

(** [get det()]: [this.charpoly[this.n]] (the polynomial has [n + 1]
    coefficients, so the index is in range). *)
Definition m_det (o : obj) : js_result (F * obj) :=
  match m_charpoly o with
  | Ok (p, o) => Ok (nth (mcols (entries o)) p nzero, o)
  | Throw e => Throw e
  end.

(** [leftNullBasis(ε)]: the rows [r .. m-1] of [E], on an object whose
    cache holds no left null basis yet. *)
Definition m_leftNullBasis (o : obj) (eps : F) : list vec * obj :=
  let '(d, o) := m_PLU o eps in
  let '(r, o) := m_rank o eps in
  (map (fun i => nth i (plu_E d) []) (seq r (mrows (entries o) - r)), o).

(** [solveLeastSquares(b, ε)]: [this.normal.solve(this.transpose.apply(b),
    ε)]; the normal matrix is a new object, with an empty cache. *)
Definition m_solveLeastSquares (o : obj) (b : vec) (eps : F) : js_result (option vec * obj) :=
  match m_normal o with
  | Throw e => Throw e
  | Ok (N, o) =>
      let '(t, o) := m_transpose o in
      match m_apply t b with
      | Throw e => Throw e
      | Ok y => match m_solve (fresh N) y eps with
                | Ok (x, _) => Ok (x, o)
                | Throw e => Throw e
                end
      end
  end.

(** ** Invariants used in the proofs *)

(** [dims M m n]: [M] has [m] rows, each of length [n]. *)
Definition dims (M : mat) (m n : nat) : Prop :=
  length M = m /\ forall i, i < m -> length (nth i M []) = n.

(** The shape of the working variables of [PLU(ε)] before column
    [curCol]: dimensions, [P] a permutation of the rows, the pivots
    [(0, c_0), ..., (r-1, c_{r-1})] with increasing columns below
    [curCol], zeros below row [r] in the columns already passed and to the
    left of each pivot, each pivot passing the test [|pivot| > ε], and the
    columns of [L] from [r] on (and its upper triangle) those of the
    identity. *)
Record plu_inv (eps : F) (m n curCol : nat) (st : plu_state) : Prop := {
  pi_U : dims (st_U st) m n;
  pi_L : dims (st_L st) m m;
  pi_E : dims (st_E st) m m;
  pi_Plen : length (st_P st) = m;
  pi_Prange : forall a, a < m -> nth a (st_P st) 0 < m;
  pi_Pinj : forall a b, a < m -> b < m -> nth a (st_P st) 0 = nth b (st_P st) 0 -> a = b;
  pi_row : st_row st <= m;
  pi_rowcol : st_row st <= curCol;
  pi_fst : map fst (st_pivots st) = seq 0 (st_row st);
  pi_mono : forall k1 k2, k1 < k2 < st_row st ->
              snd (nth k1 (st_pivots st) (0, 0)) < snd (nth k2 (st_pivots st) (0, 0));
  pi_lt : forall k, k < st_row st -> snd (nth k (st_pivots st) (0, 0)) < curCol;
  pi_below : forall i j, st_row st <= i < m -> j < curCol -> get (st_U st) i j = nzero;
  pi_left : forall k j, k < st_row st -> j < snd (nth k (st_pivots st) (0, 0)) ->
              get (st_U st) k j = nzero;
  pi_piv : forall k, k < st_row st ->
             ngtb (nabs (get (st_U st) k (snd (nth k (st_pivots st) (0, 0))))) eps = true;
  pi_Lid : forall a b, a < m -> b < m -> (a <= b \/ st_row st <= b) ->
             get (st_L st) a b = if a =? b then none else nzero
}.


(** The shape kept by the loop of [QR(ε)] in every arithmetic. *)
Definition qr_shape (m n t : nat) (acc : list vec * mat * list nat) : Prop :=
  let '(ui, Rm, LD) := acc in
  length ui = t /\ (forall k, k < t -> length (nth k ui []) = m) /\ dims Rm n n /\
  (forall k j, j < k -> get Rm k j = nzero) /\ Sorted lt LD /\ (forall x, In x LD -> x < t).
End Generic.

(** ** Eigenvalues, eigenspaces and diagonalization in binary64

    The closest-match loops start from the literal [Infinity], so this part
    is written for JavaScript numbers only. *)

Section Eigen.
#[local] Existing Instance Binary64.num.

Local Abbreviation float := spec_float.
Local Abbreviation fvec := (@vec float).
Local Abbreviation fmat := (@mat float).
Local Abbreviation fobj := (@obj float).
Local Abbreviation fcplx := (@cplx float).
Local Abbreviation froot := (@root float).
Local Abbreviation fsub := (@subspace float).

(** Modelled from the spec: [Polynomial#factor(ε)], which may throw (it
    only factors up to degree 4). *)
Variable factor : @poly float -> float -> js_result (list (froot * nat)).

(** A method that reads and updates the matrix object and may throw. *)
Definition St (A : Type) : Type := fobj -> js_result (A * fobj).

Definition st_ret {A} (a : A) : St A := fun o => Ok (a, o).
Definition st_bind {A B} (m : St A) (k : A -> St B) : St B :=
  fun o => match m o with Ok (a, o') => k a o' | Throw e => Throw e end.
Definition st_throw {A} (msg : String.string) : St A := fun _ => Throw msg.
Definition st_get : St fobj := fun o => Ok (o, o).
Definition st_put (o : fobj) : St unit := fun _ => Ok (tt, o).

Local Notation "x <- m ;; k" := (st_bind m (fun x => k))
  (at level 61, m at next level, right associativity).

(** Modelled from the spec: the [Complex] operations; [clone()] is the
    identity on values. *)
Definition cof (x : float) : fcplx := mkC x nzero.
Definition cadd (z w : fcplx) : fcplx := mkC (Re z +. Re w) (Im z +. Im w).
Definition csub (z w : fcplx) : fcplx := mkC (Re z -. Re w) (Im z -. Im w).
Definition cmult (z w : fcplx) : fcplx :=
  mkC (Re z *. Re w -. Im z *. Im w) (Re z *. Im w +. Im z *. Re w).
(** [z.mult(c)] by a number. *)
Definition cscale (z : fcplx) (c : float) : fcplx := mkC (Re z *. c) (Im z *. c).
Definition csizesq (z : fcplx) : float := Re z *. Re z +. Im z *. Im z.
Definition cdiv (z w : fcplx) : fcplx :=
  let d := csizesq w in
  mkC ((Re z *. Re w +. Im z *. Im w) /. d) ((Im z *. Re w -. Re z *. Im w) /. d).
Definition crecip (z : fcplx) : fcplx :=
  let d := csizesq z in mkC (Re z /. d) (nopp (Im z) /. d).

(** JavaScript's SameValueZero on numbers, the key equality of a [Map]. *)
Definition same_value_zero (x y : float) : bool :=
  match x, y with
  | S754_nan, S754_nan => true
  | _, _ => SFeqb x y
  end.

(** [map.set(k, v)] on a [Map] given by its entries in insertion order. *)
Fixpoint map_set {K V} (eqk : K -> K -> bool) (m : list (K * V)) (k : K) (v : V) : list (K * V) :=
  match m with
  | [] => [(k, v)]
  | (k', v') :: m' => if eqk k' k then (k', v) :: m' else (k', v') :: map_set eqk m' k v
  end.

(** "Find best matching eigenvalue": [closest] starts at [Infinity] and
    [best] at [undefined]. *)
Definition best_match {K V} (m : list (K * V)) (dist : K -> float) (bound : float) : option V :=
  snd (fold_left (fun '(closest, best) '(k, v) =>
                    let c := dist k in
                    if SFltb c closest && SFleb c bound then (c, Some v) else (closest, best))
                 m (Binary64.infinity, None)).

(** [add(other, factor)] of matrices, which throws on different sizes. *)
Definition madd (A B : fmat) (c : float) : js_result fmat :=
  if negb (Nat.eqb (mrows A) (mrows B)) || negb (Nat.eqb (mcols A) (mcols B))
  then Throw "Tried to add matrices of different sizes"%string
  else Ok (map (fun '(i, row) => vadd row (nth i B []) c 0) (enumerate A)).

(** [_realEigenspace(λ, ε)]; the null space is computed on a clone, whose
    cache is fresh. *)
Definition realEigenspace (lam eps : float) : St fsub :=
  o <- st_get ;;
  let es := match c_eigenspaces (ocache o) with Some m => m | None => [] end in
  _ <- st_put (upd_cache o (set_eigenspaces es)) ;;
  match best_match es (fun l1 => SFabs (l1 -. lam)) eps with
  | Some V => st_ret V
  | None =>
      match madd (entries o) (identity (mcols (entries o)) lam) (nopp none) with
      | Throw e => st_throw e
      | Ok B =>
          let V := fst (m_nullSpace (fresh B) eps) in
          if Nat.eqb (sub_dim V) 0
          then st_throw "λ is not an eigenvalue of this matrix"%string
          else o <- st_get ;;
               _ <- st_put (upd_cache o (set_eigenspaces (map_set same_value_zero es lam V))) ;;
               st_ret V
      end
  end.

(** A matrix of [Complex] entries, as in [_complexEigenspace]. *)
Definition cmat := list (list fcplx).
Definition cget (U : cmat) (i j : nat) : fcplx := nth j (nth i U []) (cof nzero).
Definition cset (U : cmat) (i j : nat) (z : fcplx) : cmat :=
  set_nth U i (set_nth (nth i U []) j z).
(** [z.Re = z.Im = 0]. *)
Definition czero : fcplx := mkC nzero nzero.

(** "Find maximal pivot" on [sizesq]. *)
Definition cfind_pivot (U : cmat) (m curRow curCol : nat) : fcplx * nat :=
  fold_left (fun '(pivot, row) i =>
               if ngtb (csizesq (cget U i curCol)) (csizesq pivot)
               then (cget U i curCol, i) else (pivot, row))
            (seq (S curRow) (m - S curRow)) (cget U curRow curCol, curRow).

(** [U[i][j].add(U[row][j].clone().mult(l))] for [j = col+1 .. n-1]. *)
Definition crow_add (U : cmat) (n i row col : nat) (l : fcplx) : cmat :=
  fold_left (fun U j => cset U i j (cadd (cget U i j) (cmult (cget U row j) l)))
            (seq (S col) (n - S col)) U.

(** "Eliminate" below the pivot. *)
Definition celiminate (U : cmat) (m n curRow curCol : nat) (pivot : fcplx) : cmat :=
  fold_left (fun U i =>
               let l := cscale (cdiv (cget U i curCol) pivot) (nopp none) in
               let U := cset U i curCol czero in
               crow_add U n i curRow curCol l)
            (seq (S curRow) (m - S curRow)) U.

(** "Clear the column so U is really upper-triangular". *)
Definition cclear_col (U : cmat) (m curRow curCol : nat) : cmat :=
  fold_left (fun U i => cset U i curCol czero) (seq curRow (m - curRow)) U.

(** The elimination loop of [_complexEigenspace], keeping [U], [pivots]
    and [curRow]; [fuel] is [n - curCol]. *)
Fixpoint cplu_loop (eps : float) (m n fuel curCol : nat)
         (st : cmat * list (nat * nat) * nat) : cmat * list (nat * nat) * nat :=
  match fuel with
  | O => st
  | S f =>
      let '(U, pivots, curRow) := st in
      if Nat.ltb curRow m then
        let '(pivot, row) := cfind_pivot U m curRow curCol in
        let st' :=
          if ngtb (csizesq pivot) (eps *. eps) then
            let U := swap_nth [] U row curRow in
            (celiminate U m n curRow curCol pivot, pivots ++ [(curRow, curCol)], S curRow)
          else (cclear_col U m curRow curCol, pivots, curRow) in
        cplu_loop eps m n f (S curCol) st'
      else st
  end.

(** "Transform into rref" at one pivot. *)
Definition crref_pivot (n : nat) (U : cmat) (pv : nat * nat) : cmat :=
  let '(row, col) := pv in
  let pivot := cget U row col in
  let U := fold_left (fun U i =>
                        let l := cscale (cdiv (cget U i col) pivot) (nopp none) in
                        let U := crow_add U n i row col l in
                        cset U i col czero)
                     (seq 0 row) U in
  let l := crecip pivot in
  let U := fold_left (fun U j => cset U row j (cmult (cget U row j) l))
                     (seq (S col) (n - S col)) U in
  cset U row col (mkC none nzero).

(** The pair [[Re_v, Im_v]] of a free column [j]. *)
Definition cfree_vec (U : cmat) (n j : nat) (previous : list (nat * nat)) : fvec * fvec :=
  let '(re, im) := fold_left (fun '(re, im) '(row, col) =>
                                (set_nth re col (nopp (Re (cget U row j))),
                                 set_nth im col (nopp (Im (cget U row j)))))
                             previous (vzero n, vzero n) in
  (set_nth re j none, im).

(** "Now extract the null basis". *)
Fixpoint cnull_loop (U : cmat) (n : nat) (js : list nat) (pivots previous : list (nat * nat))
         (basis : list (fvec * fvec)) : list (fvec * fvec) :=
  match js with
  | [] => basis
  | j :: js =>
      match pivots with
      | (r, c) :: ps =>
          if Nat.eqb c j then cnull_loop U n js ps (previous ++ [(r, c)]) basis
          else cnull_loop U n js pivots previous (basis ++ [cfree_vec U n j previous])
      | [] => cnull_loop U n js pivots previous (basis ++ [cfree_vec U n j previous])
      end
  end.

(** [_complexEigenspace(λ, ε)]; [U[i][i]] of a missing row [i >= m]
    throws a [TypeError]. *)
Definition complexEigenspace (lam : fcplx) (eps : float) : St (list (fvec * fvec)) :=
  o <- st_get ;;
  let es := match c_cplxEigenspaces (ocache o) with Some m => m | None => [] end in
  _ <- st_put (upd_cache o (set_cplxEigenspaces es)) ;;
  match best_match es (fun l1 => csizesq (csub l1 lam)) (eps *. eps) with
  | Some B => st_ret B
  | None =>
      let A := entries o in
      let m := mrows A in
      let n := mcols A in
      if Nat.ltb m n then st_throw "TypeError"%string else
      let U := map (map cof) A in
      let U := fold_left (fun U i => cset U i i (csub (cget U i i) lam)) (seq 0 n) U in
      let '(U, pivots, _) := cplu_loop eps m n n 0 (U, [], 0) in
      if Nat.eqb (length pivots) n
      then st_throw "λ is not an eigenvalue of this matrix"%string
      else
        let U := fold_left (crref_pivot n) (rev pivots) U in
        let basis := cnull_loop U n (seq 0 n) pivots [] [] in
        o <- st_get ;;
        _ <- st_put (upd_cache o (set_cplxEigenspaces (es ++ [(lam, basis)]))) ;;
        st_ret basis
  end.

(** The two kinds of result of [eigenspace]. *)
Inductive espace :=
| ESReal (V : fsub)
| ESCplx (B : list (fvec * fvec)).

(** [eigenspace(λ, ε)]. *)
Definition eigenspace (lam : froot) (eps : float) : St espace :=
  match lam with
  | CplxRoot z =>
      if SFltb eps (SFabs (Im z))
      then B <- complexEigenspace z eps ;; st_ret (ESCplx B)
      else V <- realEigenspace (Re z) eps ;; st_ret (ESReal V)
  | RealRoot x => V <- realEigenspace x eps ;; st_ret (ESReal V)
  end.

(** [eigenvalues(ε)]. *)
Definition eigenvalues (eps : float) : St (list (froot * nat)) :=
  o <- st_get ;;
  match c_eigenvalues (ocache o) with
  | Some e => st_ret e
  | None =>
      if negb (isSquare (entries o))
      then st_throw "Tried to compute the eigenvalues of a non-square matrix"%string
      else match m_charpoly o with
           | Throw e => st_throw e
           | Ok (p, o) =>
               match factor p eps with
               | Throw e => st_throw e
               | Ok e => _ <- st_put (upd_cache o (set_eigenvalues e)) ;; st_ret e
               end
           end
  end.

(** [for] loops of statements that may throw. *)
Fixpoint js_fold {A B} (f : A -> B -> js_result A) (l : list B) (a : A) : js_result A :=
  match l with
  | [] => Ok a
  | b :: l => match f a b with Ok a => js_fold f l a | Throw e => Throw e end
  end.

(** [M.insertSubmatrix(i, j, S)] on a matrix with a fresh cache. *)
Definition insertSubmatrix (M : fmat) (i j : nat) (S : fmat) : js_result fmat :=
  match m_insertSubmatrix (fresh M) i j S with
  | Ok o => Ok (entries o)
  | Throw e => Throw e
  end.

(** [eigenbasis[i] = v], where [i] is always [eigenbasis.length]. *)
Definition array_set (l : list fvec) (i : nat) (v : fvec) : list fvec :=
  if Nat.ltb i (length l) then set_nth l i v else l ++ [v].

(** The working variables [eigenbasis], [D] and [i] of [diagonalize]. *)
Definition dstate := (list fvec * fmat * nat)%type.

(** The inner loop for a complex eigenvalue [λ] with basis [B]. *)
Definition cblock_loop (z : fcplx) (B : list (fvec * fvec)) (m : nat) (st : dstate) : js_result dstate :=
  js_fold (fun '(eb, D, i) j =>
             let '(vr, vi) := nth j B ([], []) in
             match insertSubmatrix D i i [[Re z; Im z]; [nopp (Im z); Re z]] with
             | Ok D => Ok (eb ++ [vr; vi], D, i + 2)
             | Throw e => Throw e
             end)
          (seq 0 m) st.

(** The inner loop for a real eigenvalue [λ] with basis matrix [B]; [D[i]]
    of a missing row throws a [TypeError]. *)
Definition real_loop (x : float) (B : fmat) (m : nat) (st : dstate) : js_result dstate :=
  js_fold (fun '(eb, D, i) j =>
             if Nat.ltb i (mrows D)
             then Ok (array_set eb i (col B j), set D i i x, S i)
             else Throw "TypeError"%string)
          (seq 0 m) st.

(** The loop of [diagonalize] over the eigenvalues; [None] is an early
    [return null].  A [Subspace] has no [length] and no indexed entries,
    so a complex root whose imaginary part is at most [ε] leads to a
    [TypeError] at [...B[j]] as soon as [m > 0]. *)
Fixpoint diag_loop (block ortho : bool) (eps : float) (evs : list (froot * nat)) (st : dstate)
  : St (option dstate) :=
  match evs with
  | [] => st_ret (Some st)
  | (lam, m) :: evs =>
      match lam with
      | CplxRoot z =>
          if negb block then st_ret None else
          E <- eigenspace (CplxRoot z) eps ;;
          match E with
          | ESCplx B =>
              if Nat.ltb (length B) m then st_ret None else
              match cblock_loop z B m st with
              | Ok st => diag_loop block ortho eps evs st
              | Throw e => st_throw e
              end
          | ESReal _ =>
              if Nat.eqb m 0 then diag_loop block ortho eps evs st
              else st_throw "TypeError"%string
          end
      | RealRoot x =>
          V <- realEigenspace x eps ;;
          if Nat.ltb (sub_dim V) m then st_ret None else
          let B := if ortho then sub_ONbasis V eps else sub_basis_mat V in
          match real_loop x B m st with
          | Ok st => diag_loop block ortho eps evs st
          | Throw e => st_throw e
          end
      end
  end.

(** The options [{block, ortho, ε}] of [diagonalize]. *)
Record dopts := mkOpts { block : bool; ortho : bool; d_eps : float }.

(** [{}]: [block=false, ortho=false, ε=1e-10]. *)
Definition default_opts : dopts := mkOpts false false (Binary64.tenth_pow 10).

(** Only one of a conjugate pair: [!(λ instanceof Complex) || λ.Im >= 0]. *)
Definition keep_root (e : froot * nat) : bool :=
  match fst e with
  | RealRoot _ => true
  | CplxRoot z => SFleb nzero (Im z)
  end.

(** [diagonalize(opts)]; [None] is [null], [Some (C, D)] is [{C, D}]. *)
Definition diagonalize (opts : dopts) : St (option (fmat * fmat)) :=
  o <- st_get ;;
  let n := mcols (entries o) in
  evs <- eigenvalues (d_eps opts) ;;
  r <- diag_loop (block opts) (ortho opts) (d_eps opts) (filter keep_root evs) ([], mzero n n, 0) ;;
  match r with
  | None => st_ret None
  | Some (eb, D, _) => st_ret (Some (transpose eb, D))
  end.

End Eigen.

(** ** Binary64 predicates used in the proofs *)
Module FloatPred.
#[local] Existing Instance Binary64.num.

(** [+0]. *)
Definition fzero : spec_float := S754_zero false.

(** [Math.abs(x) > 0]: [x] is neither a zero nor [NaN]. *)
Definition fpos (x : spec_float) : bool := SFltb fzero (SFabs x).

(** [x] is [+0], [-0] or [NaN]. *)
Definition zeroish (x : spec_float) : Prop :=
  match x with S754_zero _ | S754_nan => True | _ => False end.

(** The extra invariant of the loop of [PLU(ε)] in binary64 for any [ε]:
    either every pivot so far is nonzero, or the last pivot is a zero
    (accepted when [ε < 0]), the division by it made the rows below [NaN]
    in the columns not yet visited, and no pivot came after it. *)
Definition dead_inv (m n curCol : nat) (st : plu_state) : Prop :=
  (forall k, k < st_row st -> fpos (get (st_U st) k (snd (nth k (st_pivots st) (0, 0)))) = true) \/
  (exists r, st_row st = S r /\
     (forall k, k < r -> fpos (get (st_U st) k (snd (nth k (st_pivots st) (0, 0)))) = true) /\
     fpos (get (st_U st) r (snd (nth r (st_pivots st) (0, 0)))) = false /\
     forall i j, S r <= i < m -> curCol <= j < n -> get (st_U st) i j = S754_nan).
End FloatPred.

(** ** The row bookkeeping of [PLU(ε)] in exact arithmetic

    [swap_idx row r] is the transposition of rows [row] and [r] performed
    by the pivot swap; [LU_sum] is entry [(a, b)] of [L·U], and [resid] the
    corresponding entry of [P·A − L·U] for the working variables. *)
Module ExactPLU.
#[local] Existing Instance Exact.num.
Local Open Scope R_scope.

Definition swap_idx (row r a : nat) : nat :=
  if (a =? row)%nat then r else if (a =? r)%nat then row else a.

(** [Σ_{k < n} f k]. *)
Fixpoint rsum (f : nat -> R) (n : nat) : R :=
  match n with O => 0 | S n' => rsum f n' + f n' end.

Definition LU_sum (m : nat) (st : plu_state) (a b : nat) : R :=
  rsum (fun k => get (st_L st) a k * get (st_U st) k b) m.

Definition resid (A : @mat R) (m : nat) (st : plu_state) (a b : nat) : R :=
  get A (nth a (st_P st) 0%nat) b - LU_sum m st a b.

(** One iteration [p] of the reverse substitution of [solve(b, ε)]. *)
Definition bstep (U : @mat R) (pivots : list (nat * nat)) (r : nat) (y : list R)
           (x : list R) (p : nat) : list R :=
  let '(row, col) := nth p pivots (0, 0)%nat in
  let x := set_nth x col (nth row y nzero) in
  let x := fold_left (fun x pp =>
                        let col1 := snd (nth pp pivots (0, 0)%nat) in
                        set_nth x col (nth col x nzero -. get U row col1 *. nth col1 x nzero))
                     (seq (S p) (r - S p)) x in
  set_nth x col (nth col x nzero /. get U row col).

(** Every entry of [P·A − L·U] is at most [ε] in absolute value, and the
    columns not yet visited are exact. *)
Definition exinv (A : @mat R) (eps : R) (m n c : nat) (st : plu_state) : Prop :=
  (forall a b, (a < m)%nat -> (b < n)%nat -> Rabs (resid A m st a b) <= eps) /\
  (forall a b, (a < m)%nat -> (c <= b < n)%nat -> resid A m st a b = 0).

(** [E·A = U] on the entries of the working variables. *)
Definition eainv (A : @mat R) (m n : nat) (E U : @mat R) : Prop :=
  forall a b, (a < m)%nat -> (b < n)%nat -> rsum (fun k => get E a k * get A k b) m = get U a b.

(** [E] has trivial kernel: [E·x = 0] forces [x = 0]. *)
Definition einj (m : nat) (E : @mat R) : Prop :=
  forall x : nat -> R, (forall a, (a < m)%nat -> rsum (fun k => get E a k * x k) m = 0) ->
  forall k, (k < m)%nat -> x k = 0.

(** [A] has a two-sided inverse: some [B] with [B·A] and [A·B] equal to the
    identity. *)
Definition invertible (A : @mat R) : Prop :=
  exists B, mequals (mult B A) (identity (mrows A) 1) 0 = true /\
            mequals (mult A B) (identity (mrows A) 1) 0 = true.

(** Entry [i] of the vector [ui[k]]. *)
Definition qv (ui : list (@vec R)) (k i : nat) : R := nth i (nth k ui []) 0.

(** The working variables of [QR(ε)] after the columns [j < t]: [ui] holds
    [t] vectors of length [m], each a unit vector or zero and pairwise
    orthogonal; [R] is [n × n], zero from column [t] on and below its
    diagonal in the columns visited; and every entry of column [j < t] of
    [A] is [Σ_k ui[k][i]·R[k][j]] up to [ε]. *)
Record qr_inv (A : @mat R) (eps : R) (m n t : nat) (ui : list (@vec R)) (Rm : @mat R) : Prop := {
  qi_len : length ui = t;
  qi_vlen : forall k, (k < t)%nat -> length (nth k ui []) = m;
  qi_dims : dims Rm n n;
  qi_orth : forall s k, (s < t)%nat -> (k < t)%nat -> s <> k -> vdot (nth s ui []) (nth k ui []) = 0;
  qi_unit : forall k, (k < t)%nat -> vdot (nth k ui []) (nth k ui []) = 1 \/ nth k ui [] = vzero m;
  qi_zero : forall k j, (t <= j)%nat -> get Rm k j = 0;
  qi_upper : forall k j, (j < t)%nat -> (j < k)%nat -> get Rm k j = 0;
  qi_rec : forall i j, (i < m)%nat -> (j < t)%nat ->
             Rabs (get A i j - rsum (fun k => qv ui k i * get Rm k j) t) <= eps
}.
End ExactPLU.

(** * Properties *)

(** ** Lemmas on lists updated by index *)

Lemma set_nth_length {A} (l : list A) i x : length (set_nth l i x) = length l.
Proof. revert i; induction l; intros [|i]; simpl; auto. Qed.

Lemma nth_set_nth {A} (l : list A) i j x d :
  nth j (set_nth l i x) d = if Nat.eqb i j then (if Nat.ltb i (length l) then x else nth j l d) else nth j l d.
Proof.
  revert i j; induction l as [|a l IH]; intros i j.
  - simpl. destruct j, i; simpl; try destruct (Nat.eqb _ _); reflexivity.
  - destruct i as [|i], j as [|j]; simpl; auto.
    all: try (rewrite IH; destruct (Nat.eqb i j); reflexivity).
Qed.

Module CacheFacts.
Section S.
Context {F : Type} `{Num F}.

(** C10: once [PLU], [rank], [rref] or [QR] has been computed with a
    tolerance [ε1], a second call with any tolerance [ε2] returns the same
    result and leaves the object as it was: the later tolerance is
    ignored. *)
Theorem cached_results_ignore_later_eps (o : obj) (eps1 eps2 : F) :
  (let '(d, o1) := m_PLU o eps1 in m_PLU o1 eps2 = (d, o1)) /\
  (let '(r, o1) := m_rank o eps1 in m_rank o1 eps2 = (r, o1)) /\
  (let '(r, o1) := m_rref o eps1 in m_rref o1 eps2 = (r, o1)) /\
  (let '(q, o1) := m_QR o eps1 in m_QR o1 eps2 = (q, o1)).
Proof.
  destruct o as [A c].
  destruct c as [t cp plu rk rr ro nb ns qr ev es ces].
  split; [|split; [|split]]; destruct plu, rk, rr, qr; simpl; try reflexivity;
    unfold m_rref; simpl; destruct (rref_compute _); reflexivity.
Qed.

End S.
End CacheFacts.

Module MutationFacts.
Section S.
Context {F : Type} `{Num F}.

(** C9 (amended): [insertSubmatrix] and the row operations change the
    entries but leave the cache as it was, so a cached quantity read after
    them is the one computed before; after [invalidate()] the transpose,
    [PLU], [rank], [rref] and [QR] are computed again from the current
    entries. *)
Theorem mutators_keep_cache_invalidate_recomputes (o : obj) :
  (forall i j S, match m_insertSubmatrix o i j S with
                 | Ok o' => ocache o' = ocache o
                 | Throw _ => True
                 end) /\
  (forall i c start, ocache (m_rowScale o i c start) = ocache o) /\
  (forall i1 i2 c start, ocache (m_rowReplace o i1 i2 c start) = ocache o) /\
  (forall i1 i2, ocache (m_rowSwap o i1 i2) = ocache o) /\
  (forall eps : F,
     fst (m_transpose (invalidate o)) = transpose (entries o) /\
     fst (m_PLU (invalidate o) eps) = PLU_compute (entries o) eps /\
     fst (m_rank (invalidate o) eps) = length (plu_pivots (PLU_compute (entries o) eps)) /\
     fst (m_rref (invalidate o) eps) = fst (rref_compute (PLU_compute (entries o) eps)) /\
     fst (m_QR (invalidate o) eps) = QR_compute (entries o) eps).
Proof.
  repeat split; intros; try reflexivity.
  - unfold m_insertSubmatrix. destruct (Nat.ltb _ _); reflexivity.
  - unfold m_rref; simpl. destruct (rref_compute _); reflexivity.
Qed.

End S.

#[local] Existing Instance Binary64.num.

(** C9: reading the transpose of [[1, 2], [3, 4]] caches it;
    [insertSubmatrix(0, 0, [[5]])] then changes the entries, but the
    transpose read afterwards is still the old one. *)
Lemma insertSubmatrix_leaves_transpose_stale :
  let A := [[Binary64.of_Z 1; Binary64.of_Z 2]; [Binary64.of_Z 3; Binary64.of_Z 4]] in
  let o := snd (m_transpose (fresh A)) in
  match m_insertSubmatrix o 0 0 [[Binary64.of_Z 5]] with
  | Ok o' => fst (m_transpose o') = transpose A /\ transpose (entries o') <> transpose A
  | Throw _ => False
  end.
Proof. vm_compute. split; [reflexivity | discriminate]. Qed.

End MutationFacts.

Module EchelonFacts.
Section S.
Context {F : Type} `{Num F}.

Lemma isEchelon_loop_iff (les : list (nat * nat)) (a : nat) (j0 : Z) :
  isEchelon_loop les (Z.of_nat a - 1) j0 = true <->
  map fst les = seq a (length les) /\
  Sorted Z.lt (j0 :: map (fun p => Z.of_nat (snd p)) les).
Proof.
  revert a j0; induction les as [|[i j] les IH]; intros a j0; simpl.
  - split; auto.
  - destruct (Z.eqb (Z.of_nat i) (Z.of_nat a - 1 + 1)) eqn:Ei; simpl.
    + apply Z.eqb_eq in Ei. assert (i = a) by lia. subst i.
      destruct (Z.leb (Z.of_nat j) j0) eqn:Ej; simpl.
      * split; [discriminate|]. intros [_ Hs].
        apply Sorted_inv in Hs as [_ Hr]. inversion Hr; subst. lia.
      * replace (Z.of_nat a) with (Z.of_nat (S a) - 1)%Z by lia.
        rewrite IH. split.
        -- intros [Hm Hs]. split; [now rewrite Hm|].
           constructor; [exact Hs|]. constructor. lia.
        -- intros [Hm Hs]. injection Hm as Hm. split; [exact Hm|].
           now apply Sorted_inv in Hs as [Hs _].
    + split; [discriminate|]. intros [Hm _]. injection Hm as Hm. subst.
      apply Z.eqb_neq in Ei. lia.
Qed.

Lemma sorted_lt_of_nat (l : list nat) (j0 : Z) :
  (j0 < 0)%Z ->
  Sorted Z.lt (j0 :: map Z.of_nat l) <-> Sorted lt l.
Proof.
  intros Hj. split.
  - intros Hs. apply Sorted_inv in Hs as [Hs _].
    induction l as [|x l IH]; constructor.
    + apply IH. simpl in Hs. now apply Sorted_inv in Hs as [Hs _].
    + simpl in Hs. apply Sorted_inv in Hs as [_ Hr].
      destruct l; constructor. simpl in Hr. inversion Hr. lia.
  - intros Hs. constructor.
    + induction Hs as [|x l Hs IH Hr]; simpl; constructor; auto.
      destruct Hr; constructor. lia.
    + destruct l; simpl; constructor. lia.
Qed.

(** C7 (amended): for every matrix and every [ε], [isEchelon(ε)] holds
    exactly when the leading entries sit in the rows [0, 1, ..., k-1] (so
    the rows without a leading entry are all at the bottom) and their
    columns strictly increase. *)
Theorem isEchelon_iff (M : mat) (eps : F) :
  isEchelon M eps = true <->
  map fst (leadingEntries M eps) = seq 0 (length (leadingEntries M eps)) /\
  Sorted lt (map snd (leadingEntries M eps)).
Proof.
  unfold isEchelon. change (-1)%Z with (Z.of_nat 0 - 1)%Z.
  rewrite isEchelon_loop_iff.
  rewrite <- (sorted_lt_of_nat (map snd (leadingEntries M eps)) (-1)) by lia.
  rewrite map_map. reflexivity.
Qed.

End S.

#[local] Existing Instance Binary64.num.

(** C7: the matrix [[0], [1]] has a single leading entry, at [(1, 0)]:
    its list has strictly increasing rows and columns, yet
    [isEchelon(0)] is false. *)
Lemma isEchelon_zero_row_first :
  let M := [[nzero]; [none]] in
  leadingEntries M nzero = [(1, 0)] /\ isEchelon M nzero = false.
Proof. vm_compute. split; reflexivity. Qed.

End EchelonFacts.

Module CharpolyFacts.
Section S.
Context {F : Type} `{Num F}.

(** [A^(k+1)] as the code forms it, [power = power.mult(this)] from
    [power = this]. *)
Fixpoint mpow_succ (A : mat) (k : nat) : mat :=
  match k with
  | O => A
  | S k => mult (mpow_succ A k) A
  end.

(** The recursion of the specification, with the divisor of the [i]th
    coefficient a parameter ([formula_step] computes [c_i] from
    [c_1 .. c_{i-1}]): [trace(A^k)] for [k = 1..n],
    [c_i = -(trace(A^i) + Σ_{1<=j<i} c_j·trace(A^{i-j})) / div(i)], the
    polynomial [λ^n + c_1 λ^{n-1} + ... + c_n], multiplied by [(-1)^n]. *)
Definition formula_step (div : nat -> nat) (tr : nat -> F) (c : list F) (i : nat) : list F :=
  c ++ [nopp (fold_left (fun s j => s +. nth (j - 1) c nzero *. tr (i - j))
                        (seq 1 (i - 1)) (tr i)) /. nof_nat (div i)].

Definition charpoly_by_formula (div : nat -> nat) (A : mat) : poly :=
  let n := mcols A in
  let tr k := trace (mpow_succ A (k - 1)) in
  let c := fold_left (formula_step div tr) (seq 1 n) [] in
  let p := none :: c in
  if Nat.odd n then poly_scale (nopp none) p else p.

Lemma fold_left_ext_in {A B} (f g : A -> B -> A) (l : list B) (a : A) :
  (forall x a, In x l -> f a x = g a x) -> fold_left f l a = fold_left g l a.
Proof.
  revert a; induction l as [|x l IH]; intros a Hfg; simpl; auto.
  rewrite Hfg by (left; reflexivity). apply IH. intros; apply Hfg; right; assumption.
Qed.

Lemma fold_left_map_in {A B C} (f : A -> B -> A) (g : C -> B) (l : list C) (a : A) :
  fold_left f (map g l) a = fold_left (fun a x => f a (g x)) l a.
Proof. revert a; induction l; simpl; auto. Qed.

Lemma nth_map_seq {A} (h : nat -> A) (s len i : nat) (d : A) :
  i < len -> nth i (map h (seq s len)) d = h (s + i).
Proof.
  intros Hi. rewrite nth_indep with (d' := h 0) by (rewrite length_map, length_seq; lia).
  rewrite map_nth, seq_nth by lia. reflexivity.
Qed.

Lemma odd_mod2 (n : nat) : Nat.odd n = Nat.eqb (n mod 2) 1.
Proof.
  induction n as [n IH] using (well_founded_induction lt_wf).
  destruct n as [|[|n]]; try reflexivity.
  rewrite Nat.odd_succ_succ.
  replace (S (S n)) with (n + 1 * 2) by lia. rewrite Nat.Div0.mod_add.
  apply IH. lia.
Qed.

Lemma charpoly_loop (A : mat) (k : nat) :
  fold_left (charpoly_step A) (seq 0 k) ([], [], A) =
  (fold_left (formula_step (fun i => i) (fun k => trace (mpow_succ A (k - 1)))) (seq 1 k) [],
   map (fun k => trace (mpow_succ A (k - 1))) (seq 1 k), mpow_succ A k).
Proof.
  set (tr := fun k => trace (mpow_succ A (k - 1))).
  induction k as [|k IH]; [reflexivity|].
  rewrite !seq_S, !fold_left_app, IH. cbn [fold_left].
  set (c := fold_left (formula_step (fun i => i) tr) (seq 1 k) []).
  assert (Htr : map tr (seq 1 k) ++ [trace (mpow_succ A k)] = map tr (seq 1 (S k))).
  { rewrite seq_S, map_app. unfold tr. simpl. rewrite ?Nat.sub_0_r. reflexivity. }
  unfold charpoly_step, formula_step.
  rewrite Htr, <- seq_S.
  replace (1 + k - 1) with k by lia. replace (1 + k) with (S k) by lia.
  rewrite !Nat.add_0_l. f_equal.
  apply (f_equal (fun x => (c ++ [nopp x /. nof_nat (S k)], map tr (seq 1 (S k))))).
  - rewrite nth_map_seq by lia.
    rewrite <- (seq_shift k 0), fold_left_map_in.
    apply fold_left_ext_in. intros j a Hj. apply in_seq in Hj.
    rewrite nth_map_seq by lia. f_equal. f_equal.
    + f_equal. lia.
    + f_equal. lia.
Qed.
(** C6 (amended): the coefficients of [charpoly] follow the recursion of
    the specification with [c_i] divided by [i], not [i+1]: the computed
    polynomial is [charpoly_by_formula] with the divisor [i ↦ i], term
    for term in the same order of operations. *)
Theorem charpoly_divides_by_i (A : mat) :
  charpoly_compute A = charpoly_by_formula (fun i => i) A.
Proof.
  unfold charpoly_compute, charpoly_by_formula.
  rewrite charpoly_loop, odd_mod2. reflexivity.
Qed.

End S.

#[local] Existing Instance Binary64.num.

(** C6: for the [1]x[1] matrix [[1]] the code gives the polynomial
    [-λ + 1] (coefficients [[-1, 1]]), while the recursion with the divisor
    [i+1] gives [[-1, 0.5]]. *)
Lemma charpoly_not_divided_by_i_plus_1 :
  let A := [[none]] in
  (charpoly_compute A = [nopp none; none]) /\
  (charpoly_by_formula S A = [nopp none; ndiv none (Binary64.of_Z 2)]) /\
  (charpoly_compute A <> charpoly_by_formula S A).
Proof. vm_compute. split; [reflexivity | split; [reflexivity | discriminate]]. Qed.

End CharpolyFacts.

Module DiagonalizeFacts.

(** C8: the matrix [[11, 1.1e8], [3, 3e7]] is [(11, 3)ᵀ(1, 1e7)]: in exact
    arithmetic its eigenvalues are [0] and [30000011], with eigenvectors
    [(-1e7, 1)] and [(11, 3)], so [A·C = C·D] for an invertible [C].  With
    these eigenvalues hinted, [diagonalize()] with the default options
    does not return a diagonalization or [null]: the elimination of
    [A - 0·I] in binary64 leaves [2^-28 > 1e-10] in the second pivot
    position, the null space comes out trivial and [_realEigenspace]
    throws. *)
Theorem diagonalize_throws_on_hinted_matrix
  (factor : @poly spec_float -> spec_float -> js_result (list (@root spec_float * nat))) :
  (let A := [[11; 110000000]; [3; 30000000]]%R in
   let C := [[-10000000; 11]; [1; 3]]%R in
   let D := [[0; 0]; [0; 30000011]]%R in
   let Cinv := [[3 / -30000011; -11 / -30000011]; [-1 / -30000011; -10000000 / -30000011]]%R in
   @mult R Exact.num A C = @mult R Exact.num C D /\
   @mult R Exact.num C Cinv = @identity R Exact.num 2 1%R /\
   @mult R Exact.num Cinv C = @identity R Exact.num 2 1%R) /\
  (let A := [[Binary64.of_Z 11; Binary64.of_Z 110000000];
             [Binary64.of_Z 3; Binary64.of_Z 30000000]] in
   let o := hintEigenvalues (fresh A) [(RealRoot (Binary64.of_Z 0), 1); (RealRoot (Binary64.of_Z 30000011), 1)] in
   diagonalize factor default_opts o = Throw "λ is not an eigenvalue of this matrix"%string).
Proof.
  split.
  - cbv zeta. unfold mult, identity, ve, enumerate, get, mcols. simpl.
    repeat split;
      repeat match goal with
             | |- cons _ _ = cons _ _ => apply f_equal2
             end;
      try reflexivity; field.
  - vm_compute. reflexivity.
Qed.

End DiagonalizeFacts.

Ltac bdestr :=
  repeat match goal with
  | |- context [Nat.leb ?a ?b] => destruct (Nat.leb_spec a b)
  | |- context [Nat.ltb ?a ?b] => destruct (Nat.ltb_spec a b)
  | |- context [Nat.eqb ?a ?b] => destruct (Nat.eqb_spec a b)
  end; simpl.

Ltac mlia := unfold vec, mat in * ; lia.

Module MatrixLemmas.
Section S.
Context {F : Type} `{Num F}.
Implicit Types M L U E : @mat F.

Lemma nth_set_nth_eq {A} (l : list A) i x d : i < length l -> nth i (set_nth l i x) d = x.
Proof. intros Hi. rewrite nth_set_nth, Nat.eqb_refl. apply Nat.ltb_lt in Hi. now rewrite Hi. Qed.

Lemma nth_set_nth_neq {A} (l : list A) i j x d : i <> j -> nth j (set_nth l i x) d = nth j l d.
Proof. intros Hij. rewrite nth_set_nth. apply Nat.eqb_neq in Hij. now rewrite Hij. Qed.

Lemma nth_swap_nth {A} (d : A) (l : list A) i j a :
  i < length l -> j < length l ->
  nth a (swap_nth d l i j) d = if Nat.eqb a j then nth i l d else if Nat.eqb a i then nth j l d else nth a l d.
Proof.
  intros Hi Hj. unfold swap_nth.
  destruct (Nat.eqb a j) eqn:Ea.
  - apply Nat.eqb_eq in Ea; subst. apply nth_set_nth_eq. now rewrite set_nth_length.
  - apply Nat.eqb_neq in Ea. rewrite nth_set_nth_neq by congruence.
    destruct (Nat.eqb a i) eqn:Eb.
    + apply Nat.eqb_eq in Eb; subst. now apply nth_set_nth_eq.
    + apply Nat.eqb_neq in Eb. now apply nth_set_nth_neq.
Qed.

Lemma length_swap_nth {A} (d : A) l i j : length (swap_nth d l i j) = length l.
Proof. unfold swap_nth. now rewrite !set_nth_length. Qed.

Lemma nth_enumerate {A} (l : list A) k d1 d2 :
  k < length l -> nth k (enumerate l) (d1, d2) = (k, nth k l d2).
Proof.
  intros Hk. unfold enumerate. rewrite combine_nth by (now rewrite length_seq).
  now rewrite seq_nth.
Qed.

Lemma length_enumerate {A} (l : list A) : length (enumerate l) = length l.
Proof. unfold enumerate. rewrite length_combine, length_seq. mlia. Qed.

Lemma nth_map_lt {A B} (f : A -> B) (l : list A) b d da :
  b < length l -> nth b (map f l) d = f (nth b l da).
Proof. intros Hb. rewrite (nth_indep _ d (f da)) by (rewrite length_map; mlia). apply map_nth. Qed.

Lemma get_set_eq M i j x :
  i < length M -> j < length (nth i M []) -> get (set M i j x) i j = x.
Proof.
  intros Hi Hj. unfold get, set. rewrite nth_set_nth_eq by assumption.
  now apply nth_set_nth_eq.
Qed.

Lemma get_set_neq M i j x a b : (a, b) <> (i, j) -> get (set M i j x) a b = get M a b.
Proof.
  intros Hn. unfold get, set. rewrite nth_set_nth.
  destruct (Nat.eqb i a) eqn:Ea; [|reflexivity].
  apply Nat.eqb_eq in Ea; subst.
  destruct (Nat.ltb a (length M)); [|reflexivity].
  apply nth_set_nth_neq. congruence.
Qed.

Lemma dims_set M m n i j x : dims M m n -> dims (set M i j x) m n.
Proof.
  intros [Hl Hr]. unfold set. split; [now rewrite set_nth_length|].
  intros a Ha. rewrite nth_set_nth.
  destruct (Nat.eqb i a) eqn:E; [|auto].
  apply Nat.eqb_eq in E; subst. destruct (Nat.ltb a (length M)); auto.
  rewrite set_nth_length. auto.
Qed.

Lemma length_vadd v w c s : length (vadd v w c s) = length v.
Proof. unfold vadd. now rewrite length_map, length_enumerate. Qed.

Lemma nth_vadd v w c s b :
  b < length v -> nth b (vadd v w c s) nzero =
                  if Nat.leb s b then nth b v nzero +. c *. nth b w nzero else nth b v nzero.
Proof.
  intros Hb. unfold vadd.
  rewrite (nth_map_lt _ _ _ _ (0, nzero)) by (now rewrite length_enumerate).
  rewrite nth_enumerate by assumption. reflexivity.
Qed.

Lemma length_vscale v c s : length (vscale v c s) = length v.
Proof. unfold vscale. now rewrite length_map, length_enumerate. Qed.

Lemma nth_vscale v c s b :
  b < length v -> nth b (vscale v c s) nzero = if Nat.leb s b then nth b v nzero *. c else nth b v nzero.
Proof.
  intros Hb. unfold vscale.
  rewrite (nth_map_lt _ _ _ _ (0, nzero)) by (now rewrite length_enumerate).
  rewrite nth_enumerate by assumption. reflexivity.
Qed.

Lemma get_rowReplace_eq M i1 i2 c s b :
  i1 < length M -> b < length (nth i1 M []) ->
  get (rowReplace M i1 i2 c s) i1 b =
  if Nat.leb s b then get M i1 b +. c *. get M i2 b else get M i1 b.
Proof.
  intros Hi Hb. unfold get, rowReplace. rewrite nth_set_nth_eq by assumption.
  now apply nth_vadd.
Qed.

Lemma get_rowReplace_neq M i1 i2 c s a b :
  a <> i1 -> get (rowReplace M i1 i2 c s) a b = get M a b.
Proof. intros Ha. unfold get, rowReplace. rewrite nth_set_nth_neq by congruence. reflexivity. Qed.

Lemma dims_rowReplace M m n i1 i2 c s : dims M m n -> dims (rowReplace M i1 i2 c s) m n.
Proof.
  intros [Hl Hr]. unfold rowReplace. split; [now rewrite set_nth_length|].
  intros a Ha. rewrite nth_set_nth.
  destruct (Nat.eqb i1 a) eqn:E; [|auto].
  apply Nat.eqb_eq in E; subst. destruct (Nat.ltb a (length M)); auto.
  rewrite length_vadd. auto.
Qed.

Lemma get_rowScale_eq M i c s b :
  i < length M -> b < length (nth i M []) ->
  get (rowScale M i c s) i b = if Nat.leb s b then get M i b *. c else get M i b.
Proof.
  intros Hi Hb. unfold get, rowScale. rewrite nth_set_nth_eq by assumption.
  now apply nth_vscale.
Qed.

Lemma get_rowScale_neq M i c s a b : a <> i -> get (rowScale M i c s) a b = get M a b.
Proof. intros Ha. unfold get, rowScale. rewrite nth_set_nth_neq by congruence. reflexivity. Qed.

Lemma dims_rowScale M m n i c s : dims M m n -> dims (rowScale M i c s) m n.
Proof.
  intros [Hl Hr]. unfold rowScale. split; [now rewrite set_nth_length|].
  intros a Ha. rewrite nth_set_nth.
  destruct (Nat.eqb i a) eqn:E; [|auto].
  apply Nat.eqb_eq in E; subst. destruct (Nat.ltb a (length M)); auto.
  rewrite length_vscale. auto.
Qed.

Lemma get_rowSwap M i j a b :
  i < length M -> j < length M ->
  get (rowSwap M i j) a b = get M (if Nat.eqb a j then i else if Nat.eqb a i then j else a) b.
Proof.
  intros Hi Hj. unfold get, rowSwap. rewrite nth_swap_nth by assumption.
  destruct (Nat.eqb a j), (Nat.eqb a i); reflexivity.
Qed.

Lemma dims_rowSwap M m n i j : i < m -> j < m -> dims M m n -> dims (rowSwap M i j) m n.
Proof.
  intros Hi Hj [Hl Hr]. unfold rowSwap. split; [now rewrite length_swap_nth|].
  intros a Ha. rewrite nth_swap_nth by mlia.
  destruct (Nat.eqb a j), (Nat.eqb a i); auto.
Qed.


Lemma dims_length_row M m n i : dims M m n -> i < m -> length (nth i M []) = n.
Proof. intros [_ Hr] Hi. auto. Qed.

Lemma swapL_loop L m row curRow k' :
  dims L m m -> row < m -> curRow < m -> k' <= curRow ->
  dims (fold_left (fun L j => let a := get L curRow j in let b := get L row j in
                        set (set L row j a) curRow j b) (seq 0 k') L) m m /\
  forall a k, get (fold_left (fun L j => let a := get L curRow j in let b := get L row j in
                        set (set L row j a) curRow j b) (seq 0 k') L) a k =
              if Nat.ltb k k' then get L (if Nat.eqb a row then curRow else if Nat.eqb a curRow then row else a) k
              else get L a k.
Proof.
  intros HL Hr Hc. induction k' as [|k' IH]; intros Hk.
  - split; [assumption|]. intros a k. reflexivity.
  - rewrite seq_S, fold_left_app. simpl.
    destruct IH as [HD HG]; [mlia|].
    match goal with |- context [fold_left ?f (seq 0 k') L] => set (L1 := fold_left f (seq 0 k') L) in * end.
    clearbody L1.
    split.
    + apply dims_set, dims_set, HD.
    + intros a k.
      destruct (Nat.eq_dec a curRow) as [->|Ha]; destruct (Nat.eq_dec k k') as [->|Hk'].
      * rewrite get_set_eq.
        2: { destruct (dims_set L1 m m row k' (get L1 curRow k') HD) as [Hl1 _]. mlia. }
        2: { destruct (dims_set L1 m m row k' (get L1 curRow k') HD) as [_ Hr1]. rewrite Hr1 by mlia. mlia. }
        rewrite HG, Nat.ltb_irrefl, (proj2 (Nat.ltb_lt k' (S k'))) by mlia.
        destruct (Nat.eqb curRow row) eqn:E1; [apply Nat.eqb_eq in E1; subst; reflexivity|].
        now rewrite Nat.eqb_refl.
      * rewrite get_set_neq by congruence. rewrite get_set_neq by congruence.
        rewrite !HG. destruct (Nat.ltb k k') eqn:E1, (Nat.ltb k (S k')) eqn:E2; try reflexivity.
        -- apply Nat.ltb_lt in E1. apply Nat.ltb_ge in E2. mlia.
        -- apply Nat.ltb_ge in E1. apply Nat.ltb_lt in E2. mlia.
      * rewrite get_set_neq by congruence.
        destruct (Nat.eq_dec a row) as [->|Hb].
        -- rewrite get_set_eq by (destruct HD as [H1 H2]; try mlia; rewrite H2; mlia).
           rewrite HG, Nat.ltb_irrefl, (proj2 (Nat.ltb_lt k' (S k'))) by mlia.
           now rewrite Nat.eqb_refl.
        -- rewrite get_set_neq by congruence. rewrite HG, Nat.ltb_irrefl, (proj2 (Nat.ltb_lt k' (S k'))) by mlia.
           apply Nat.eqb_neq in Ha, Hb. now rewrite Ha, Hb.
      * rewrite get_set_neq by congruence. rewrite get_set_neq by congruence.
        rewrite HG. destruct (Nat.ltb k k') eqn:E1, (Nat.ltb k (S k')) eqn:E2; try reflexivity.
        -- apply Nat.ltb_lt in E1. apply Nat.ltb_ge in E2. mlia.
        -- apply Nat.ltb_ge in E1. apply Nat.ltb_lt in E2. mlia.
Qed.

Lemma swapL_dims L m row curRow :
  dims L m m -> row < m -> curRow < m -> dims (swapL L row curRow) m m.
Proof. intros. apply (swapL_loop L m row curRow curRow); auto. Qed.

Lemma get_swapL L m row curRow a k :
  dims L m m -> row < m -> curRow < m ->
  get (swapL L row curRow) a k =
  if Nat.ltb k curRow then get L (if Nat.eqb a row then curRow else if Nat.eqb a curRow then row else a) k
  else get L a k.
Proof. intros. apply (swapL_loop L m row curRow curRow); auto. Qed.


Lemma eliminate_loop L U E m n p curRow curCol k L' U' E' :
  dims L m m -> dims U m n -> dims E m m -> curRow < m -> curCol < n -> S curRow + k <= m ->
  fold_left (fun '(L, U, E) i =>
               let l := get U i curCol /. p in
               let L := set L i curRow l in
               let U := set U i curCol nzero in
               (L, rowReplace U i curRow (nopp l) (S curCol),
                rowReplace E i curRow (nopp l) 0))
            (seq (S curRow) k) (L, U, E) = (L', U', E') ->
  dims L' m m /\ dims U' m n /\ dims E' m m /\
  (forall a j, get L' a j =
     if (S curRow <=? a) && (a <? S curRow + k) && (j =? curRow) then get U a curCol /. p else get L a j) /\
  (forall a b, b < n -> get U' a b =
     if (S curRow <=? a) && (a <? S curRow + k) then
       (if b =? curCol then nzero
        else if S curCol <=? b then get U a b +. nopp (get U a curCol /. p) *. get U curRow b
        else get U a b)
     else get U a b) /\
  (forall a b, b < m -> get E' a b =
     if (S curRow <=? a) && (a <? S curRow + k) then get E a b +. nopp (get U a curCol /. p) *. get E curRow b
     else get E a b).
Proof.
  intros HL HU HE Hr Hc. revert L' U' E'. induction k as [|k IH]; intros L' U' E' Hk Hf.
  - simpl in Hf. injection Hf as <- <- <-.
    refine (conj HL (conj HU (conj HE (conj _ (conj _ _))))); intros; bdestr; first [reflexivity | mlia].
  - rewrite seq_S, fold_left_app in Hf.
    match type of Hf with context [fold_left ?f (seq (S curRow) k) (L, U, E)] =>
      destruct (fold_left f (seq (S curRow) k) (L, U, E)) as [[L1 U1] E1] eqn:Ef end.
    destruct (IH L1 U1 E1 ltac:(mlia) eq_refl) as (HL1 & HU1 & HE1 & GL & GU & GE).
    set (i := S curRow + k) in * .
    simpl in Hf. injection Hf as <- <- <-.
    assert (Hi : i < m) by (unfold i; mlia).
    assert (Hl1 : get U1 i curCol = get U i curCol).
    { rewrite GU by assumption. bdestr; first [reflexivity | mlia]. }
    assert (Hc1 : forall b, b < n -> get U1 curRow b = get U curRow b).
    { intros b Hb. rewrite GU by assumption. bdestr; first [reflexivity | mlia]. }
    assert (HcE : forall b, b < m -> get E1 curRow b = get E curRow b).
    { intros b Hb. rewrite GE by assumption. bdestr; first [reflexivity | mlia]. }
    refine (conj _ (conj _ (conj _ (conj _ (conj _ _))))).
    + now apply dims_set.
    + apply dims_rowReplace, dims_set, HU1.
    + now apply dims_rowReplace.
    + intros a j. destruct (Nat.eq_dec a i) as [->|Ha].
      * destruct (Nat.eq_dec j curRow) as [->|Hj].
        -- rewrite get_set_eq by (destruct HL1 as [H1 H2]; try mlia; rewrite H2; mlia).
           rewrite Hl1. unfold i. bdestr; first [reflexivity | mlia].
        -- rewrite get_set_neq by congruence. rewrite GL. unfold i. bdestr; first [reflexivity | mlia].
      * rewrite get_set_neq by congruence. rewrite GL. unfold i in * . bdestr; first [reflexivity | mlia].
    + intros a b Hb. destruct (Nat.eq_dec a i) as [->|Ha].
      * rewrite get_rowReplace_eq.
        2: { destruct (dims_set U1 m n i curCol nzero HU1) as [H1 _]. mlia. }
        2: { destruct (dims_set U1 m n i curCol nzero HU1) as [_ H2]. rewrite H2; mlia. }
        rewrite (get_set_neq U1 i curCol nzero curRow b) by (intro Heq; injection Heq; unfold i; mlia).
        rewrite Hc1, Hl1 by assumption.
        destruct (Nat.eq_dec b curCol) as [->|Hbc].
        -- rewrite get_set_eq by (destruct HU1 as [H1 H2]; try mlia; rewrite H2; mlia).
           unfold i. bdestr; first [reflexivity | mlia].
        -- rewrite get_set_neq by congruence. rewrite GU by assumption.
           unfold i. bdestr; first [reflexivity | mlia].
      * rewrite get_rowReplace_neq, get_set_neq by congruence. rewrite GU by assumption.
        unfold i in * . bdestr; first [reflexivity | mlia].
    + intros a b Hb. destruct (Nat.eq_dec a i) as [->|Ha].
      * rewrite get_rowReplace_eq.
        2: { destruct HE1 as [H1 _]. mlia. }
        2: { destruct HE1 as [_ H2]. rewrite H2; mlia. }
        rewrite HcE, Hl1 by assumption. rewrite GE by assumption.
        unfold i. bdestr; first [reflexivity | mlia].
      * rewrite get_rowReplace_neq by congruence. rewrite GE by assumption.
        unfold i in * . bdestr; first [reflexivity | mlia].
Qed.


Lemma clear_col_loop U m n curRow curCol k :
  dims U m n -> curCol < n -> curRow + k <= m ->
  dims (fold_left (fun U i => set U i curCol nzero) (seq curRow k) U) m n /\
  forall a b, get (fold_left (fun U i => set U i curCol nzero) (seq curRow k) U) a b =
    if (curRow <=? a) && (a <? curRow + k) && (b =? curCol) then nzero else get U a b.
Proof.
  intros HU Hc. induction k as [|k IH]; intros Hk.
  - split; [assumption|]. intros a b. simpl. bdestr; first [reflexivity | mlia].
  - rewrite seq_S, fold_left_app. simpl.
    destruct IH as [HD HG]; [mlia|].
    split; [now apply dims_set|].
    intros a b. destruct (Nat.eq_dec a (curRow + k)) as [->|Ha].
    + destruct (Nat.eq_dec b curCol) as [->|Hb].
      * rewrite get_set_eq by (destruct HD as [H1 H2]; try mlia; rewrite H2; mlia).
        bdestr; first [reflexivity | mlia].
      * rewrite get_set_neq by congruence. rewrite HG. bdestr; first [reflexivity | mlia].
    + rewrite get_set_neq by congruence. rewrite HG. bdestr; first [reflexivity | mlia].
Qed.

Lemma clear_col_spec U m n curRow curCol :
  dims U m n -> curCol < n -> curRow <= m ->
  dims (clear_col U m curRow curCol) m n /\
  forall a b, get (clear_col U m curRow curCol) a b =
    if (curRow <=? a) && (a <? m) && (b =? curCol) then nzero else get U a b.
Proof.
  intros HU Hc Hr. unfold clear_col.
  destruct (clear_col_loop U m n curRow curCol (m - curRow)) as [HD HG]; try assumption; try mlia.
  split; [assumption|]. intros a b. rewrite HG. replace (curRow + (m - curRow)) with m by mlia. reflexivity.
Qed.

Lemma find_pivot_loop U curRow curCol k :
  let '(pivot, row) :=
    fold_left (fun '(pivot, row) i =>
                 if ngtb (nabs (get U i curCol)) (nabs pivot)
                 then (get U i curCol, i) else (pivot, row))
              (seq (S curRow) k) (get U curRow curCol, curRow) in
  curRow <= row <= curRow + k /\ pivot = get U row curCol.
Proof.
  induction k as [|k IH].
  - simpl. split; [mlia | reflexivity].
  - rewrite seq_S, fold_left_app. simpl.
    match goal with |- context [fold_left ?f (seq (S curRow) k) ?a0] =>
      destruct (fold_left f (seq (S curRow) k) a0) as [pv r] end.
    destruct IH as [H1 H2].
    destruct (ngtb _ _); split; try mlia; auto.
Qed.

Lemma find_pivot_spec U m curRow curCol :
  curRow < m ->
  let '(pivot, row) := find_pivot U m curRow curCol in
  curRow <= row < m /\ pivot = get U row curCol.
Proof.
  intros Hr. unfold find_pivot.
  pose proof (find_pivot_loop U curRow curCol (m - S curRow)) as Hl.
  match goal with |- context [fold_left ?f ?l ?a0] => destruct (fold_left f l a0) as [pv r] end.
  destruct Hl as [H1 H2]. split; [mlia | assumption].
Qed.


Lemma get_identity m c a b : a < m -> b < m -> get (identity m c) a b = if a =? b then c else nzero.
Proof.
  intros Ha Hb. unfold get, identity, ve.
  rewrite (nth_map_lt _ _ _ _ 0) by (now rewrite length_seq).
  rewrite seq_nth by assumption. simpl.
  rewrite (nth_map_lt _ _ _ _ 0) by (now rewrite length_seq).
  rewrite seq_nth by assumption. simpl. bdestr; subst; first [reflexivity | mlia].
Qed.

Lemma dims_identity m c : dims (identity m c) m m.
Proof.
  unfold identity, ve. split; [now rewrite length_map, length_seq|].
  intros i Hi. rewrite (nth_map_lt _ _ _ _ 0) by (now rewrite length_seq).
  now rewrite length_map, length_seq.
Qed.

Lemma get_out_of_cols M m n a b : dims M m n -> n <= b -> get M a b = nzero.
Proof.
  intros [Hl Hr] Hb. unfold get. destruct (Nat.lt_ge_cases a m) as [Ha|Ha].
  - apply nth_overflow. rewrite Hr; mlia.
  - rewrite (nth_overflow M) by mlia. now destruct b.
Qed.

End S.
End MatrixLemmas.

(** ** The invariant of the loop of [PLU(ε)] *)
Module PLUInvariant.
Import MatrixLemmas.
Section S.
Context {F : Type} `{Num F}.
Implicit Types M L U E : @mat F.

Lemma length_pivots_inv eps m n c st : plu_inv eps m n c st -> length (st_pivots st) = st_row st.
Proof. intros Hi. rewrite <- (length_map fst), (pi_fst _ _ _ _ _ Hi). apply length_seq. Qed.

Lemma nth_pivots_app (pv : list (nat * nat)) x k :
  nth k (pv ++ [x]) (0, 0) = if k <? length pv then nth k pv (0, 0) else if k =? length pv then x else (0, 0).
Proof.
  bdestr.
  - now apply app_nth1.
  - subst. rewrite app_nth2 by mlia. now rewrite Nat.sub_diag.
  - rewrite app_nth2 by mlia. destruct (k - length pv) as [|q] eqn:E; [mlia|]. simpl. now destruct q.
Qed.


Lemma plu_step_inv eps m n curCol st :
  plu_inv eps m n curCol st -> st_row st < m -> curCol < n ->
  plu_inv eps m n (S curCol) (plu_step eps m curCol st).
Proof.
  intros Hi Hr Hc. destruct st as [P L U E pv sg r]. simpl in Hr.
  pose proof (length_pivots_inv _ _ _ _ _ Hi) as Hlp.
  destruct Hi as [pi_U0 pi_L0 pi_E0 pi_Plen0 pi_Prange0 pi_Pinj0 pi_row0 pi_rowcol0 pi_fst0 pi_mono0 pi_lt0 pi_below0 pi_left0 pi_piv0 pi_Lid0]; simpl in * .
  unfold plu_step; simpl.
  pose proof (find_pivot_spec U m r curCol Hr) as Hfp.
  destruct (find_pivot U m r curCol) as [pivot row] eqn:Efp.
  destruct Hfp as [Hrow Hpiv].
  destruct (ngtb (nabs pivot) eps) eqn:Hg.
  - set (swp := fun a => if a =? row then r else if a =? r then row else a).
    assert (Hswp_lt : forall a, a < m -> swp a < m) by (intros a Ha; unfold swp; bdestr; mlia).
    assert (Hswp_id : forall a, a < r -> swp a = a) by (intros a Ha; unfold swp; bdestr; mlia).
    assert (Hswp_ge : forall a, r <= a -> r <= swp a) by (intros a Ha; unfold swp; bdestr; mlia).
    assert (Hswp_inj : forall a b, swp a = swp b -> a = b) by (intros a b; unfold swp; bdestr; mlia).
    assert (Hs : exists Ps sg' Us Es Ls,
      (if negb (row =? r) then (swap_nth 0 P row r, Z.opp sg, rowSwap U row r, rowSwap E row r, swapL L row r)
       else (P, sg, U, E, L)) = (Ps, sg', Us, Es, Ls) /\
      dims Us m n /\ dims Es m m /\ dims Ls m m /\ length Ps = m /\
      (forall a b, get Us a b = get U (swp a) b) /\
      (forall a b, get Es a b = get E (swp a) b) /\
      (forall a k, get Ls a k = if k <? r then get L (swp a) k else get L a k) /\
      (forall a, nth a Ps 0 = nth (swp a) P 0)).
    { destruct (Nat.eqb_spec row r) as [->|Hne]; simpl.
      - exists P, sg, U, E, L. split; [reflexivity|].
        assert (Hid : forall a, swp a = a) by (intros a; unfold swp; bdestr; mlia).
        refine (conj pi_U0 (conj pi_E0 (conj pi_L0 (conj pi_Plen0 (conj _ (conj _ (conj _ _)))))));
          intros; rewrite ?Hid; try reflexivity.
        bdestr; reflexivity.
      - eexists _, _, _, _, _. split; [reflexivity|].
        refine (conj (dims_rowSwap _ _ _ _ _ _ _ pi_U0) (conj (dims_rowSwap _ _ _ _ _ _ _ pi_E0)
                  (conj (swapL_dims _ _ _ _ pi_L0 _ _) (conj _ (conj _ (conj _ (conj _ _))))))); try mlia.
        + now rewrite length_swap_nth.
        + intros a b. rewrite get_rowSwap by (destruct pi_U0; mlia). f_equal. unfold swp. bdestr; mlia.
        + intros a b. rewrite get_rowSwap by (destruct pi_E0; mlia). f_equal. unfold swp. bdestr; mlia.
        + intros a k. rewrite (get_swapL L m) by (assumption || mlia). reflexivity.
        + intros a. rewrite nth_swap_nth by mlia. unfold swp. bdestr; subst; first [reflexivity | mlia]. }
    destruct Hs as (Ps & sg' & Us & Es & Ls & -> & HUs & HEs & HLs & HPs & GU & GE & GL & GP).
    destruct (eliminate Ls Us Es m r curCol pivot) as [[L' U'] E'] eqn:Hel.
    unfold eliminate in Hel.
    destruct (eliminate_loop Ls Us Es m n pivot r curCol (m - S r) L' U' E' HLs HUs HEs Hr Hc ltac:(mlia) Hel)
      as (HL' & HU' & HE' & GL' & GU' & GE').
    replace (S r + (m - S r)) with m in GL', GU', GE' by mlia.
    constructor; simpl; try assumption.
    + intros a Ha. rewrite GP. auto.
    + intros a b Ha Hb. rewrite !GP. intros Heq. apply Hswp_inj. apply pi_Pinj0; auto.
    + mlia.
    + change (0 :: seq 1 r) with (seq 0 (S r)). rewrite map_app, pi_fst0, seq_S. reflexivity.
    + intros k1 k2 Hk. rewrite !nth_pivots_app, Hlp.
      bdestr; try mlia; simpl; first [apply pi_mono0; mlia | apply pi_lt0; mlia].
    + intros k Hk. rewrite nth_pivots_app, Hlp. bdestr; try mlia; simpl; auto.
      specialize (pi_lt0 k ltac:(mlia)). mlia.
    + intros i j Hij Hj. rewrite GU' by mlia. bdestr; try mlia; try reflexivity.
      rewrite GU. apply pi_below0; [|mlia]. split; [apply Hswp_ge; mlia|apply Hswp_lt; mlia].
    + intros k j Hk Hj. rewrite nth_pivots_app, Hlp in Hj.
      assert (Hjn : j < n).
      { revert Hj; bdestr; intros Hj; try mlia. specialize (pi_lt0 k ltac:(mlia)). mlia. }
      rewrite GU' by assumption.
      replace ((S r <=? k) && (k <? m)) with false by (bdestr; first [reflexivity | mlia]).
      rewrite GU. destruct (Nat.eq_dec k r) as [->|Hkr].
      * rewrite Nat.ltb_irrefl, Nat.eqb_refl in Hj. simpl in Hj.
        replace (swp r) with row by (unfold swp; bdestr; mlia).
        apply pi_below0; mlia.
      * rewrite (proj2 (Nat.ltb_lt k r)) in Hj by mlia.
        rewrite Hswp_id by mlia. now apply pi_left0; mlia.
    + intros k Hk. rewrite nth_pivots_app, Hlp. destruct (Nat.eq_dec k r) as [->|Hkr].
      * rewrite Nat.ltb_irrefl, Nat.eqb_refl. simpl.
        rewrite GU' by assumption.
        replace ((S r <=? r) && (r <? m)) with false by (bdestr; first [reflexivity | mlia]).
        rewrite GU. replace (swp r) with row by (unfold swp; bdestr; mlia). now rewrite <- Hpiv.
      * rewrite (proj2 (Nat.ltb_lt k r)) by mlia.
        rewrite GU' by (specialize (pi_lt0 k ltac:(mlia)); mlia).
        replace ((S r <=? k) && (k <? m)) with false by (bdestr; first [reflexivity | mlia]).
        rewrite GU, Hswp_id by mlia. apply pi_piv0; mlia.
    + intros a b Ha Hb Hab. rewrite GL'.
      destruct (Nat.eq_dec b r) as [->|Hbr].
      * replace ((S r <=? a) && (a <? m) && (r =? r)) with false by (bdestr; first [reflexivity | mlia]).
        rewrite GL, Nat.ltb_irrefl. apply pi_Lid0; mlia.
      * replace ((S r <=? a) && (a <? m) && (b =? r)) with false by (bdestr; first [reflexivity | mlia]).
        rewrite GL. destruct (Nat.ltb_spec b r).
        -- rewrite Hswp_id by mlia. apply pi_Lid0; mlia.
        -- apply pi_Lid0; mlia.
  - destruct (clear_col_spec U m n r curCol pi_U0 Hc ltac:(mlia)) as [HD HG].
    constructor; simpl; try assumption.
    + mlia.
    + intros k Hk. specialize (pi_lt0 k Hk). mlia.
    + intros i j Hij Hj. rewrite HG. bdestr; try mlia; try reflexivity. apply pi_below0; mlia.
    + intros k j Hk Hj. rewrite HG. bdestr; try mlia; now apply pi_left0.
    + intros k Hk. rewrite HG. bdestr; try mlia; now apply pi_piv0.
Qed.


Lemma plu_loop_inv eps m n fuel curCol st :
  plu_inv eps m n curCol st -> curCol + fuel = n ->
  exists c, c <= n /\ plu_inv eps m n c (plu_loop eps m fuel curCol st) /\
            (st_row (plu_loop eps m fuel curCol st) = m \/ c = n).
Proof.
  revert curCol st. induction fuel as [|f IH]; intros curCol st Hi Hf; simpl.
  - exists curCol. split; [mlia|]. split; [assumption | right; mlia].
  - destruct (Nat.ltb_spec (st_row st) m) as [Hr|Hr].
    + apply IH; [apply plu_step_inv; [assumption | assumption | mlia] | mlia].
    + exists curCol. split; [mlia|]. split; [assumption|]. left. pose proof (pi_row _ _ _ _ _ Hi). mlia.
Qed.

Lemma wf_dims (A : @mat F) : wf A = true -> dims A (mrows A) (mcols A).
Proof.
  intros Hw. split; [reflexivity|]. intros i Hi.
  unfold wf in Hw. rewrite forallb_forall in Hw.
  apply Nat.eqb_eq, Hw, nth_In. exact Hi.
Qed.

Lemma plu_init_inv eps (A : @mat F) :
  wf A = true ->
  plu_inv eps (mrows A) (mcols A) 0
          (mkst (seq 0 (mrows A)) (identity (mrows A) none) A (identity (mrows A) none) [] 1%Z 0).
Proof.
  intros Hw. constructor; simpl.
  - now apply wf_dims.
  - apply dims_identity.
  - apply dims_identity.
  - apply length_seq.
  - intros a Ha. rewrite seq_nth by assumption. assumption.
  - intros a b Ha Hb. rewrite !seq_nth by assumption. auto.
  - mlia.
  - mlia.
  - reflexivity.
  - intros; mlia.
  - intros; mlia.
  - intros; mlia.
  - intros; mlia.
  - intros; mlia.
  - intros a b Ha Hb _. now apply get_identity.
Qed.

(** The final state of [PLU(ε)] satisfies the invariant, with all the
    rows or all the columns used up. *)
Lemma PLU_compute_inv eps (A : @mat F) :
  wf A = true ->
  exists c st, c <= mcols A /\ plu_inv eps (mrows A) (mcols A) c st /\ (st_row st = mrows A \/ c = mcols A) /\
    PLU_compute A eps = mkPLU (st_P st) (st_L st) (st_U st) (st_E st) (st_pivots st) (st_signP st).
Proof.
  intros Hw. destruct (plu_loop_inv eps (mrows A) (mcols A) (mcols A) 0 _ (plu_init_inv eps A Hw) eq_refl)
    as (c & Hcn & Hi & Hc).
  exists c. eexists. split; [exact Hcn|]. split; [exact Hi|]. split; [exact Hc|]. reflexivity.
Qed.

Lemma first_nonzero_some row eps j fuel c :
  j <= c < j + fuel ->
  (forall x, j <= x < c -> ngtb (nabs (nth x row nzero)) eps = false) ->
  ngtb (nabs (nth c row nzero)) eps = true ->
  first_nonzero row eps j fuel = Some c.
Proof.
  revert j. induction fuel as [|f IH]; intros j Hc Hz Hp; [mlia|]. simpl.
  destruct (Nat.eq_dec j c) as [->|Hjc]; [now rewrite Hp|].
  rewrite Hz by mlia. apply IH; [mlia| |assumption]. intros x Hx. apply Hz. mlia.
Qed.

Lemma first_nonzero_none row eps j fuel :
  (forall x, j <= x < j + fuel -> ngtb (nabs (nth x row nzero)) eps = false) ->
  first_nonzero row eps j fuel = None.
Proof.
  revert j. induction fuel as [|f IH]; intros j Hz; [reflexivity|]. simpl.
  rewrite Hz by mlia. apply IH. intros x Hx. apply Hz. mlia.
Qed.

Lemma combine_seq_nth {A} (l : list A) s d :
  combine (seq s (length l)) l = map (fun i => (s + i, nth i l d)) (seq 0 (length l)).
Proof.
  revert s. induction l as [|x l IH]; intros s; [reflexivity|].
  simpl. rewrite Nat.add_0_r. f_equal. rewrite IH, <- seq_shift, map_map.
  apply map_ext. intros i. f_equal. mlia.
Qed.

Lemma enumerate_seq {A} (l : list A) d : enumerate l = map (fun i => (i, nth i l d)) (seq 0 (length l)).
Proof. unfold enumerate. apply combine_seq_nth. Qed.


Lemma flat_map_map_comp {A B C} (f : B -> list C) (g : A -> B) l :
  flat_map f (map g l) = flat_map (fun x => f (g x)) l.
Proof. induction l as [|x l IH]; simpl; [reflexivity|]. now rewrite IH. Qed.

Lemma flat_map_single {A B} (f : A -> list B) (g : A -> B) l :
  (forall x, In x l -> f x = [g x]) -> flat_map f l = map g l.
Proof. induction l as [|x l IH]; intros Hf; simpl; [reflexivity|]. rewrite Hf by now left. simpl. f_equal. apply IH. intros; apply Hf; now right. Qed.

Lemma flat_map_nil {A B} (f : A -> list B) l :
  (forall x, In x l -> f x = []) -> flat_map f l = [].
Proof. induction l as [|x l IH]; intros Hf; simpl; [reflexivity|]. rewrite Hf by now left. apply IH. intros; apply Hf; now right. Qed.

Lemma pivots_as_map (pv : list (nat * nat)) r :
  map fst pv = seq 0 r -> pv = map (fun k => (k, snd (nth k pv (0, 0)))) (seq 0 r).
Proof.
  intros Hf. assert (Hl : length pv = r) by (rewrite <- (length_map fst), Hf; apply length_seq).
  apply nth_ext with (d := (0, 0)) (d' := (0, 0)); [now rewrite length_map, length_seq|].
  intros k Hk. rewrite (nth_map_lt _ _ _ _ 0) by (rewrite length_seq; mlia).
  rewrite seq_nth by mlia. simpl.
  assert (Hk' : fst (nth k pv (0, 0)) = k).
  { rewrite <- (map_nth fst pv (0, 0) k). simpl. rewrite Hf, seq_nth by mlia. reflexivity. }
  destruct (nth k pv (0, 0)) as [a b]. simpl in * . now subst.
Qed.

Lemma mcols_dims M m n : dims M m n -> 0 < m -> mcols M = n.
Proof. intros [Hl Hr] Hm. destruct M as [|r0 M]; simpl in *; [mlia|]. apply (Hr 0). mlia. Qed.

(** A matrix whose rows [k < r] start with zeros before a column [c k]
    whose entry the tolerance sees, and whose other rows are zero, has the
    leading entries [(k, c k)]. *)
Lemma leadingEntries_of M eps0 m n r (c : nat -> nat) :
  dims M m n -> r <= m ->
  (forall k, k < r -> c k < n) ->
  (forall k j, k < r -> j < c k -> get M k j = nzero) ->
  (forall k, k < r -> ngtb (nabs (get M k (c k))) eps0 = true) ->
  (forall i j, r <= i < m -> j < n -> get M i j = nzero) ->
  ngtb (nabs nzero) eps0 = false ->
  leadingEntries M eps0 = map (fun k => (k, c k)) (seq 0 r).
Proof.
  intros HM Hrm Hc Hleft Hp Hbelow Hz.
  unfold leadingEntries. rewrite (enumerate_seq _ []), flat_map_map_comp.
  pose proof HM as [HMl HMr]. match goal with |- context [seq 0 ?L] => replace L with m by mlia end.
  replace m with (r + (m - r)) at 1 by mlia.
  rewrite seq_app, flat_map_app, (flat_map_nil _ (seq (0 + r) _)), app_nil_r.
  - apply flat_map_single. intros k Hk. apply in_seq in Hk.
    rewrite (mcols_dims _ m n) by (first [exact HM | mlia]).
    rewrite (first_nonzero_some _ _ _ _ (c k)); [reflexivity| | |].
    + pose proof (Hc k ltac:(mlia)). mlia.
    + intros x Hx. change (nth x (nth k M []) nzero) with (get M k x).
      rewrite Hleft by mlia. assumption.
    + apply Hp. mlia.
  - intros i Hi'. apply in_seq in Hi'.
    rewrite first_nonzero_none; [reflexivity|].
    intros x Hx. change (nth x (nth i M []) nzero) with (get M i x).
    destruct (Nat.lt_ge_cases x n) as [Hxn|Hxn].
    + rewrite Hbelow by mlia. assumption.
    + rewrite (get_out_of_cols _ m n) by (first [exact HM | mlia]). assumption.
Qed.

(** The leading entries of the final [U] are the pivots, for a tolerance
    [eps0] that does not see [0] and sees each pivot. *)
Lemma leadingEntries_final eps eps0 m n c st :
  c <= n -> plu_inv eps m n c st -> (st_row st = m \/ c = n) ->
  ngtb (nabs nzero) eps0 = false ->
  (forall k, k < st_row st -> ngtb (nabs (get (st_U st) k (snd (nth k (st_pivots st) (0, 0))))) eps0 = true) ->
  leadingEntries (st_U st) eps0 = st_pivots st.
Proof.
  intros Hcn Hi Hend Hz Hp.
  rewrite (pivots_as_map _ _ (pi_fst _ _ _ _ _ Hi)).
  apply (leadingEntries_of _ _ m n); try assumption.
  - exact (pi_U _ _ _ _ _ Hi).
  - exact (pi_row _ _ _ _ _ Hi).
  - intros k Hk. pose proof (pi_lt _ _ _ _ _ Hi k Hk). mlia.
  - exact (pi_left _ _ _ _ _ Hi).
  - intros i j Hij Hj. destruct Hend as [Hend|Hend]; [mlia|]. subst c.
    apply (pi_below _ _ _ _ _ Hi); mlia.
Qed.

Lemma plu_step_U eps m n curCol st pivot row :
  plu_inv eps m n curCol st -> st_row st < m -> curCol < n ->
  find_pivot (st_U st) m (st_row st) curCol = (pivot, row) ->
  let st' := plu_step eps m curCol st in
  (forall k j, k < st_row st -> get (st_U st') k j = get (st_U st) k j) /\
  (ngtb (nabs pivot) eps = true ->
     st_row st' = S (st_row st) /\ st_pivots st' = st_pivots st ++ [(st_row st, curCol)] /\
     get (st_U st') (st_row st) curCol = pivot /\
     (row = st_row st -> forall i j, st_row st < i < m -> curCol < j < n ->
        get (st_U st') i j = get (st_U st) i j +. nopp (get (st_U st) i curCol /. pivot) *. get (st_U st) (st_row st) j)) /\
  (ngtb (nabs pivot) eps = false ->
     st_row st' = st_row st /\ st_pivots st' = st_pivots st /\
     forall i j, curCol < j -> get (st_U st') i j = get (st_U st) i j).
Proof.
  intros Hi Hr Hc Efp. destruct st as [P L U E pv sg r]. simpl in Hr, Efp |- * .
  pose proof (length_pivots_inv _ _ _ _ _ Hi) as Hlp.
  destruct Hi as [pi_U0 pi_L0 pi_E0 pi_Plen0 pi_Prange0 pi_Pinj0 pi_row0 pi_rowcol0 pi_fst0 pi_mono0 pi_lt0 pi_below0 pi_left0 pi_piv0 pi_Lid0]; simpl in * .
  unfold plu_step; simpl. rewrite Efp.
  pose proof (find_pivot_spec U m r curCol Hr) as Hfp. rewrite Efp in Hfp.
  destruct Hfp as [Hrow Hpiv].
  destruct (ngtb (nabs pivot) eps) eqn:Hg.
  - set (swp := fun a => if a =? row then r else if a =? r then row else a).
    assert (Hs : exists Ps sg' Us Es Ls,
      (if negb (row =? r) then (swap_nth 0 P row r, Z.opp sg, rowSwap U row r, rowSwap E row r, swapL L row r)
       else (P, sg, U, E, L)) = (Ps, sg', Us, Es, Ls) /\
      dims Us m n /\ dims Es m m /\ dims Ls m m /\
      (forall a b, get Us a b = get U (swp a) b)).
    { destruct (Nat.eqb_spec row r) as [->|Hne]; simpl.
      - exists P, sg, U, E, L. split; [reflexivity|].
        refine (conj pi_U0 (conj pi_E0 (conj pi_L0 _))).
        intros a b. f_equal. unfold swp. bdestr; mlia.
      - eexists _, _, _, _, _. split; [reflexivity|].
        refine (conj (dims_rowSwap _ _ _ _ _ _ _ pi_U0) (conj (dims_rowSwap _ _ _ _ _ _ _ pi_E0)
                  (conj (swapL_dims _ _ _ _ pi_L0 _ _) _))); try mlia.
        intros a b. rewrite get_rowSwap by (destruct pi_U0; mlia). f_equal. unfold swp. bdestr; mlia. }
    destruct Hs as (Ps & sg' & Us & Es & Ls & -> & HUs & HEs & HLs & GU).
    destruct (eliminate Ls Us Es m r curCol pivot) as [[L' U'] E'] eqn:Hel.
    unfold eliminate in Hel.
    destruct (eliminate_loop Ls Us Es m n pivot r curCol (m - S r) L' U' E' HLs HUs HEs Hr Hc ltac:(mlia) Hel)
      as (HL' & HU' & HE' & GL' & GU' & GE').
    replace (S r + (m - S r)) with m in GL', GU', GE' by mlia.
    simpl. split; [|split; [|discriminate]].
    + intros k j Hk. destruct (Nat.lt_ge_cases j n) as [Hj|Hj].
      * rewrite GU' by assumption. bdestr; try mlia; rewrite GU; f_equal; unfold swp; bdestr; mlia.
      * rewrite (get_out_of_cols _ m n) by (first [exact HU' | mlia]).
        rewrite (get_out_of_cols _ m n) by (first [exact pi_U0 | mlia]). reflexivity.
    + intros _. refine (conj eq_refl (conj eq_refl (conj _ _))).
      * rewrite GU' by assumption. bdestr; try mlia; rewrite GU, Hpiv; f_equal; unfold swp; bdestr; mlia.
      * intros -> i j Hir Hjn. rewrite GU' by mlia. bdestr; try mlia. rewrite !GU.
        unfold swp; bdestr; try mlia; reflexivity.
  - destruct (clear_col_spec U m n r curCol pi_U0 Hc ltac:(mlia)) as [HD HG].
    simpl. split; [|split; [discriminate|]].
    + intros k j Hk. rewrite HG. bdestr; try mlia; reflexivity.
    + intros _. refine (conj eq_refl (conj eq_refl _)). intros i j Hj. rewrite HG. bdestr; try mlia; reflexivity.
Qed.

Lemma plu_loop_inv_ext eps m n (Q : nat -> plu_state -> Prop) fuel curCol st :
  (forall c st, plu_inv eps m n c st -> st_row st < m -> c < n -> Q c st -> Q (S c) (plu_step eps m c st)) ->
  plu_inv eps m n curCol st -> Q curCol st -> curCol + fuel = n ->
  exists c, c <= n /\ plu_inv eps m n c (plu_loop eps m fuel curCol st) /\ Q c (plu_loop eps m fuel curCol st) /\
            (st_row (plu_loop eps m fuel curCol st) = m \/ c = n).
Proof.
  intros HQ. revert curCol st. induction fuel as [|f IH]; intros curCol st Hi Hq Hf; simpl.
  - exists curCol. split; [mlia|]. split; [assumption|]. split; [assumption | right; mlia].
  - destruct (Nat.ltb_spec (st_row st) m) as [Hr|Hr].
    + apply IH; [apply plu_step_inv; [assumption | assumption | mlia] | apply HQ; try assumption; mlia | mlia].
    + exists curCol. split; [mlia|]. split; [assumption|]. split; [assumption|].
      left. pose proof (pi_row _ _ _ _ _ Hi). mlia.
Qed.

Lemma PLU_compute_inv_ext eps (A : @mat F) (Q : nat -> plu_state -> Prop) :
  wf A = true ->
  (forall c st, plu_inv eps (mrows A) (mcols A) c st -> st_row st < mrows A -> c < mcols A -> Q c st ->
     Q (S c) (plu_step eps (mrows A) c st)) ->
  Q 0 (mkst (seq 0 (mrows A)) (identity (mrows A) none) A (identity (mrows A) none) [] 1%Z 0) ->
  exists c st, c <= mcols A /\ plu_inv eps (mrows A) (mcols A) c st /\ Q c st /\
    (st_row st = mrows A \/ c = mcols A) /\
    PLU_compute A eps = mkPLU (st_P st) (st_L st) (st_U st) (st_E st) (st_pivots st) (st_signP st).
Proof.
  intros Hw HQ Hq0.
  destruct (plu_loop_inv_ext eps (mrows A) (mcols A) Q (mcols A) 0 _ HQ (plu_init_inv eps A Hw) Hq0 eq_refl)
    as (c & Hcn & Hi & Hq & Hc).
  exists c. eexists. refine (conj Hcn (conj Hi (conj Hq (conj Hc _)))). reflexivity.
Qed.

Lemma leadingEntries_gen M eps0 m n r (c : nat -> nat) :
  dims M m n -> r <= m ->
  (forall k, k < r -> c k < n) ->
  (forall k j, k < r -> j < c k -> ngtb (nabs (get M k j)) eps0 = false) ->
  (forall k, k < r -> ngtb (nabs (get M k (c k))) eps0 = true) ->
  (forall i j, r <= i < m -> j < n -> ngtb (nabs (get M i j)) eps0 = false) ->
  ngtb (nabs nzero) eps0 = false ->
  leadingEntries M eps0 = map (fun k => (k, c k)) (seq 0 r).
Proof.
  intros HM Hrm Hc Hleft Hp Hbelow Hz.
  unfold leadingEntries. rewrite (enumerate_seq _ []), flat_map_map_comp.
  pose proof HM as [HMl HMr]. match goal with |- context [seq 0 ?L] => replace L with m by mlia end.
  replace m with (r + (m - r)) at 1 by mlia.
  rewrite seq_app, flat_map_app, (flat_map_nil _ (seq (0 + r) _)), app_nil_r.
  - apply flat_map_single. intros k Hk. apply in_seq in Hk.
    rewrite (mcols_dims _ m n) by (first [exact HM | mlia]).
    rewrite (first_nonzero_some _ _ _ _ (c k)); [reflexivity| | |].
    + pose proof (Hc k ltac:(mlia)). mlia.
    + intros x Hx. apply (Hleft k x); mlia.
    + apply Hp. mlia.
  - intros i Hi'. apply in_seq in Hi'.
    rewrite first_nonzero_none; [reflexivity|].
    intros x Hx. change (nth x (nth i M []) nzero) with (get M i x).
    destruct (Nat.lt_ge_cases x n) as [Hxn|Hxn].
    + apply Hbelow; mlia.
    + rewrite (get_out_of_cols _ m n) by (first [exact HM | mlia]). assumption.
Qed.

Lemma first_nonzero_some_inv row eps j fuel c :
  first_nonzero row eps j fuel = Some c ->
  j <= c < j + fuel /\ (forall x, j <= x < c -> ngtb (nabs (nth x row nzero)) eps = false) /\
  ngtb (nabs (nth c row nzero)) eps = true.
Proof.
  revert j. induction fuel as [|f IH]; intros j Hf; simpl in Hf; [discriminate|].
  destruct (ngtb (nabs (nth j row nzero)) eps) eqn:Hg.
  - injection Hf as <-. split; [mlia|]. split; [intros; mlia | assumption].
  - destruct (IH _ Hf) as (Hr & Hb & Hc). split; [mlia|]. split; [|assumption].
    intros x Hx. destruct (Nat.eq_dec x j) as [->|Hne]; [assumption|]. apply Hb. mlia.
Qed.

Lemma first_nonzero_none_inv row eps j fuel :
  first_nonzero row eps j fuel = None ->
  forall x, j <= x < j + fuel -> ngtb (nabs (nth x row nzero)) eps = false.
Proof.
  revert j. induction fuel as [|f IH]; intros j Hf x Hx; simpl in Hf; [mlia|].
  destruct (ngtb (nabs (nth j row nzero)) eps) eqn:Hg; [discriminate|].
  destruct (Nat.eq_dec x j) as [->|Hne]; [assumption|]. apply (IH _ Hf). mlia.
Qed.

End S.
End PLUInvariant.

(** ** Echelon forms from the pivots *)
Module EchelonStructure.
Import MatrixLemmas PLUInvariant.
Section S.
Context {F : Type} `{Num F}.
Implicit Types M L U E : @mat F.

Lemma sorted_map_seq (c : nat -> nat) s len :
  (forall k1 k2, s <= k1 -> k1 < k2 -> k2 < s + len -> c k1 < c k2) ->
  Sorted lt (map c (seq s len)).
Proof.
  revert s. induction len as [|len IH]; intros s Hc; simpl; constructor.
  - apply IH. intros; apply Hc; mlia.
  - destruct len; simpl; constructor. apply Hc; mlia.
Qed.

Lemma pivots_sorted (pv : list (nat * nat)) r :
  map fst pv = seq 0 r ->
  (forall k1 k2, k1 < k2 < r -> snd (nth k1 pv (0, 0)) < snd (nth k2 pv (0, 0))) ->
  Sorted lt (map snd pv).
Proof.
  intros Hf Hm. rewrite (pivots_as_map _ _ Hf), map_map. simpl.
  apply sorted_map_seq. intros; apply Hm; mlia.
Qed.

Lemma isEchelon_of_pivots M eps (pv : list (nat * nat)) r :
  leadingEntries M eps = pv -> map fst pv = seq 0 r ->
  (forall k1 k2, k1 < k2 < r -> snd (nth k1 pv (0, 0)) < snd (nth k2 pv (0, 0))) ->
  isEchelon M eps = true.
Proof.
  intros Hl Hf Hm. unfold isEchelon. rewrite Hl.
  change (-1)%Z with (Z.of_nat 0 - 1)%Z.
  apply EchelonFacts.isEchelon_loop_iff. split.
  - rewrite Hf. f_equal. rewrite <- (length_map fst), Hf. symmetry. apply length_seq.
  - rewrite <- map_map. apply (EchelonFacts.sorted_lt_of_nat (map snd pv) (-1)); [mlia|].
    now apply (pivots_sorted pv r).
Qed.

Lemma isRREF_loop_of M les i0 j0 :
  isEchelon_loop les i0 j0 = true ->
  (forall p, In p les -> neqb (get M (fst p) (snd p)) none = true /\ above_zero M (fst p) (snd p) = true) ->
  isRREF_loop M les i0 j0 = true.
Proof.
  revert i0 j0. induction les as [|[i j] les IH]; intros i0 j0 He Hp; simpl in *; [reflexivity|].
  destruct (negb (Z.of_nat i =? i0 + 1)%Z || (Z.of_nat j <=? j0)%Z); [discriminate|].
  destruct (Hp (i, j) (or_introl eq_refl)) as [H1 H2]. simpl in H1, H2.
  rewrite H1, H2. simpl. apply IH; [assumption|]. intros p Hin. apply Hp. now right.
Qed.


Lemma rref_inner_loop Rm Ops m n m' t col p k Rm' Ops' :
  dims Rm m n -> dims Ops m m' -> t < m -> col < n -> k <= t ->
  fold_left (fun '(Rm, Ops) i =>
               let Rm := rowReplace Rm i t (nopp (get Rm i col) /. p) (S col) in
               let Ops := rowReplace Ops i t (nopp (get Rm i col) /. p) 0 in
               (set Rm i col nzero, Ops))
            (seq 0 k) (Rm, Ops) = (Rm', Ops') ->
  dims Rm' m n /\ dims Ops' m m' /\
  (forall a b, b < n -> get Rm' a b =
     if a <? k then
       (if b =? col then nzero
        else if S col <=? b then get Rm a b +. (nopp (get Rm a col) /. p) *. get Rm t b
        else get Rm a b)
     else get Rm a b) /\
  (forall a b, b < m' -> get Ops' a b =
     if a <? k then get Ops a b +. (nopp (get Rm a col) /. p) *. get Ops t b else get Ops a b).
Proof.
  intros HR HO Ht Hc. revert Rm' Ops'. induction k as [|k IH]; intros Rm' Ops' Hk Hf.
  - simpl in Hf. injection Hf as <- <-.
    refine (conj HR (conj HO (conj _ _))); intros; reflexivity.
  - rewrite seq_S, fold_left_app in Hf.
    match type of Hf with context [fold_left ?f (seq 0 k) (Rm, Ops)] =>
      destruct (fold_left f (seq 0 k) (Rm, Ops)) as [R1 O1] eqn:Ef end.
    destruct (IH R1 O1 ltac:(mlia) eq_refl) as (HR1 & HO1 & GR & GO).
    simpl in Hf. injection Hf as <- <-.
    assert (Hrow : forall b, b < n -> get R1 t b = get Rm t b).
    { intros b Hb. rewrite GR by assumption. bdestr; first [reflexivity | mlia]. }
    assert (Hrowk : forall b, b < n -> get R1 k b = get Rm k b).
    { intros b Hb. rewrite GR by assumption. bdestr; first [reflexivity | mlia]. }
    assert (HrowO : forall b, b < m' -> get O1 t b = get Ops t b).
    { intros b Hb. rewrite GO by assumption. bdestr; first [reflexivity | mlia]. }
    assert (HrowOk : forall b, b < m' -> get O1 k b = get Ops k b).
    { intros b Hb. rewrite GO by assumption. bdestr; first [reflexivity | mlia]. }
    assert (HRR : dims (rowReplace R1 k t (nopp (get R1 k col) /. p) (S col)) m n) by now apply dims_rowReplace.
    assert (Hcol : get (rowReplace R1 k t (nopp (get R1 k col) /. p) (S col)) k col = get Rm k col).
    { rewrite get_rowReplace_eq by (destruct HR1 as [H1 H2]; try mlia; rewrite H2; mlia).
      bdestr; try mlia. now apply Hrowk. }
    rewrite Hcol.
    refine (conj (dims_set _ _ _ _ _ _ HRR) (conj (dims_rowReplace _ _ _ _ _ _ _ HO1) (conj _ _))).
    + intros a b Hb. destruct (Nat.eq_dec a k) as [->|Ha].
      * destruct (Nat.eq_dec b col) as [->|Hbc].
        -- rewrite get_set_eq by (destruct HRR as [H1 H2]; try mlia; rewrite H2; mlia).
           bdestr; first [reflexivity | mlia].
        -- rewrite get_set_neq by congruence.
           rewrite get_rowReplace_eq by (destruct HR1 as [H1 H2]; try mlia; rewrite H2; mlia).
           rewrite Hrowk, Hrow by assumption. rewrite Hrowk by assumption.
           bdestr; first [reflexivity | mlia].
      * rewrite get_set_neq by congruence. rewrite get_rowReplace_neq by assumption.
        rewrite GR by assumption. bdestr; first [reflexivity | mlia].
    + intros a b Hb. destruct (Nat.eq_dec a k) as [->|Ha].
      * rewrite get_rowReplace_eq by (destruct HO1 as [H1 H2]; try mlia; rewrite H2; mlia).
        rewrite HrowOk, HrowO by assumption. bdestr; first [reflexivity | mlia].
      * rewrite get_rowReplace_neq by assumption. rewrite GO by assumption.
        bdestr; first [reflexivity | mlia].
Qed.


Lemma rref_pivot_spec Rm Ops m n m' t col Rm2 Ops2 :
  dims Rm m n -> dims Ops m m' -> t < m -> col < n ->
  rref_pivot (Rm, Ops) (t, col) = (Rm2, Ops2) ->
  dims Rm2 m n /\ dims Ops2 m m' /\
  (forall a b, b < n -> get Rm2 a b =
     if a <? t then
       (if b =? col then nzero
        else if S col <=? b then get Rm a b +. (nopp (get Rm a col) /. get Rm t col) *. get Rm t b
        else get Rm a b)
     else if a =? t then
       (if b =? col then none
        else if S col <=? b then get Rm t b *. (none /. get Rm t col)
        else get Rm t b)
     else get Rm a b) /\
  (forall a b, b < m' -> get Ops2 a b =
     if a <? t then get Ops a b +. (nopp (get Rm a col) /. get Rm t col) *. get Ops t b
     else if a =? t then get Ops t b *. (none /. get Rm t col)
     else get Ops a b).
Proof.
  intros HR HO Ht Hc Hp. unfold rref_pivot in Hp.
  match type of Hp with context [fold_left ?f (seq 0 t) (Rm, Ops)] =>
    destruct (fold_left f (seq 0 t) (Rm, Ops)) as [R1 O1] eqn:Ef end.
  destruct (rref_inner_loop Rm Ops m n m' t col (get Rm t col) t R1 O1 HR HO Ht Hc (le_n t) Ef)
    as (HR1 & HO1 & GR & GO).
  injection Hp as <- <-.
  assert (HS : dims (rowScale R1 t (none /. get Rm t col) (S col)) m n) by now apply dims_rowScale.
  refine (conj (dims_set _ _ _ _ _ _ HS) (conj (dims_rowScale _ _ _ _ _ _ HO1) (conj _ _))).
  - intros a b Hb. destruct (Nat.eq_dec a t) as [->|Ha].
    + destruct (Nat.eq_dec b col) as [->|Hbc].
      * rewrite get_set_eq by (destruct HS as [H1 H2]; try mlia; rewrite H2; mlia).
        bdestr; first [reflexivity | mlia].
      * rewrite get_set_neq by congruence.
        rewrite get_rowScale_eq by (destruct HR1 as [H1 H2]; try mlia; rewrite H2; mlia).
        rewrite GR by assumption. bdestr; first [reflexivity | mlia].
    + rewrite get_set_neq by congruence. rewrite get_rowScale_neq by assumption.
      rewrite GR by assumption. bdestr; first [reflexivity | mlia].
  - intros a b Hb. destruct (Nat.eq_dec a t) as [->|Ha].
    + rewrite get_rowScale_eq by (destruct HO1 as [H1 H2]; try mlia; rewrite H2; mlia).
      rewrite GO by assumption. bdestr; first [reflexivity | mlia].
    + rewrite get_rowScale_neq by assumption. rewrite GO by assumption.
      bdestr; first [reflexivity | mlia].
Qed.


Section RREF.
Variable Zp : F -> Prop.
Hypothesis Zp_zero : Zp nzero.
Hypothesis Zp_addmul : forall x y f, Zp x -> Zp y -> Zp (x +. f *. y).
Hypothesis Zp_mul : forall x f, Zp x -> Zp (x *. f).
Variables (m n m' r : nat) (c : nat -> nat).
Hypothesis Hrm : r <= m.
Hypothesis Hcn : forall k, k < r -> c k < n.
Hypothesis Hmono : forall k1 k2, k1 < k2 < r -> c k1 < c k2.

Lemma rref_fold_inv t Rm Ops :
  t <= r -> dims Rm m n -> dims Ops m m' ->
  (forall i j, r <= i < m -> j < n -> get Rm i j = nzero) ->
  (forall k j, k < r -> j < c k -> get Rm k j = nzero) ->
  (forall k, t <= k < r -> get Rm k (c k) = none) ->
  (forall k i, t <= k < r -> i < k -> Zp (get Rm i (c k))) ->
  let Rf := fst (fold_left rref_pivot (map (fun k => (k, c k)) (rev (seq 0 t))) (Rm, Ops)) in
  dims Rf m n /\
  (forall i j, r <= i < m -> j < n -> get Rf i j = nzero) /\
  (forall k j, k < r -> j < c k -> get Rf k j = nzero) /\
  (forall k, k < r -> get Rf k (c k) = none) /\
  (forall k i, k < r -> i < k -> Zp (get Rf i (c k))).
Proof.
  revert Rm Ops. induction t as [|t IH]; intros Rm Ops Ht HR HO Hb Hl Hp Hz; cbv zeta.
  - simpl. refine (conj HR (conj Hb (conj Hl (conj _ _)))); intros; [apply Hp | apply Hz]; mlia.
  - rewrite seq_S, rev_app_distr. cbn [rev map fold_left app Nat.add].
    destruct (rref_pivot (Rm, Ops) (t, c t)) as [R2 O2] eqn:Ep.
    assert (Hct : c t < n) by (apply Hcn; mlia).
    destruct (rref_pivot_spec Rm Ops m n m' t (c t) R2 O2 HR HO ltac:(mlia) Hct Ep)
      as (HR2 & HO2 & GR & GO).
    apply IH; try assumption; [mlia | | | |].
    + intros i j Hi Hj. rewrite GR by assumption. bdestr; try mlia; apply Hb; mlia.
    + intros k j Hk Hj. assert (Hjn : j < n) by (pose proof (Hcn k Hk); mlia).
      rewrite GR by assumption.
      destruct (Nat.lt_trichotomy k t) as [Hkt|[->|Hkt]].
      * assert (c k < c t) by (apply Hmono; mlia).
        bdestr; try mlia; apply Hl; mlia.
      * bdestr; try mlia; apply Hl; mlia.
      * bdestr; try mlia; apply Hl; mlia.
    + intros k Hk. rewrite GR by (apply Hcn; mlia).
      destruct (Nat.eq_dec k t) as [->|Hkt].
      * bdestr; first [reflexivity | mlia].
      * assert (c t < c k) by (apply Hmono; mlia).
        bdestr; try mlia; apply Hp; mlia.
    + intros k i Hk Hi. rewrite GR by (apply Hcn; mlia).
      destruct (Nat.eq_dec k t) as [->|Hkt].
      * bdestr; try mlia; assumption.
      * assert (c t < c k) by (apply Hmono; mlia).
        destruct (Nat.lt_trichotomy i t) as [Hit|[->|Hit]].
        -- bdestr; try mlia; apply Zp_addmul; apply Hz; mlia.
        -- bdestr; try mlia; apply Zp_mul, Hz; mlia.
        -- bdestr; try mlia; apply Hz; mlia.
Qed.

End RREF.


Lemma isRREF_of M eps0 m n r (c : nat -> nat) :
  dims M m n -> r <= m ->
  (forall k, k < r -> c k < n) ->
  (forall k1 k2, k1 < k2 < r -> c k1 < c k2) ->
  (forall k j, k < r -> j < c k -> get M k j = nzero) ->
  (forall k, k < r -> get M k (c k) = none) ->
  (forall i j, r <= i < m -> j < n -> get M i j = nzero) ->
  ngtb (nabs nzero) eps0 = false -> ngtb (nabs none) eps0 = true -> neqb none none = true ->
  (forall k i, k < r -> i < k -> neqb (get M i (c k)) nzero = true) ->
  isRREF M eps0 = true.
Proof.
  intros HM Hrm Hc Hmono Hleft Hpiv Hbelow Hz Ho Hoo Habove.
  assert (Hle : leadingEntries M eps0 = map (fun k => (k, c k)) (seq 0 r)).
  { apply (leadingEntries_of _ _ m n); try assumption.
    intros k Hk. rewrite Hpiv by assumption. assumption. }
  unfold isRREF. rewrite Hle. apply isRREF_loop_of.
  - change (-1)%Z with (Z.of_nat 0 - 1)%Z. apply EchelonFacts.isEchelon_loop_iff. split.
    + rewrite map_map, length_map, length_seq. simpl. apply map_id.
    + rewrite map_map. simpl.
      rewrite <- (map_map c Z.of_nat).
      apply (EchelonFacts.sorted_lt_of_nat (map c (seq 0 r)) (-1)); [mlia|].
      apply sorted_map_seq. intros; apply Hmono; mlia.
  - intros p Hp. apply in_map_iff in Hp as (k & <- & Hk). apply in_seq in Hk. simpl.
    rewrite Hpiv by mlia. split; [assumption|].
    unfold above_zero. apply forallb_forall. intros i Hi. apply in_seq in Hi. apply Habove; mlia.
Qed.

(** The structure of [rref(ε)] computed from the final state of
    [PLU(ε)], for a class [Zp] of zero-like values closed under the row
    operations. *)
Lemma rref_compute_structure (Zp : F -> Prop) eps m n c st :
  Zp nzero ->
  (forall x y f, Zp x -> Zp y -> Zp (x +. f *. y)) ->
  (forall x f, Zp x -> Zp (x *. f)) ->
  c <= n -> plu_inv eps m n c st -> (st_row st = m \/ c = n) ->
  let Rf := fst (rref_compute (mkPLU (st_P st) (st_L st) (st_U st) (st_E st) (st_pivots st) (st_signP st))) in
  let ck := fun k => snd (nth k (st_pivots st) (0, 0)) in
  dims Rf m n /\
  (forall k, k < st_row st -> ck k < n) /\
  (forall k1 k2, k1 < k2 < st_row st -> ck k1 < ck k2) /\
  (forall k j, k < st_row st -> j < ck k -> get Rf k j = nzero) /\
  (forall k, k < st_row st -> get Rf k (ck k) = none) /\
  (forall i j, st_row st <= i < m -> j < n -> get Rf i j = nzero) /\
  (forall k i, k < st_row st -> i < k -> Zp (get Rf i (ck k))).
Proof.
  intros Z0 Z1 Z2 Hcn Hi Hend. cbv zeta.
  assert (Hck : forall k, k < st_row st -> snd (nth k (st_pivots st) (0, 0)) < n).
  { intros k Hk. pose proof (pi_lt _ _ _ _ _ Hi k Hk). mlia. }
  unfold rref_compute. simpl.
  replace (rev (st_pivots st)) with (map (fun k => (k, snd (nth k (st_pivots st) (0, 0)))) (rev (seq 0 (st_row st))))
    by (rewrite map_rev, <- (pivots_as_map _ _ (pi_fst _ _ _ _ _ Hi)); reflexivity).
  destruct (rref_fold_inv Zp Z0 Z1 Z2 m n m (st_row st) (fun k => snd (nth k (st_pivots st) (0, 0)))
              (pi_row _ _ _ _ _ Hi) Hck (pi_mono _ _ _ _ _ Hi) (st_row st) (st_U st) (st_E st)
              (le_n _) (pi_U _ _ _ _ _ Hi) (pi_E _ _ _ _ _ Hi))
    as (HD & Hb & Hl & Hp & Hz).
  - intros i j Hij Hj. destruct Hend as [Hend|Hend]; [mlia|]. subst c. apply (pi_below _ _ _ _ _ Hi); mlia.
  - exact (pi_left _ _ _ _ _ Hi).
  - intros; mlia.
  - intros; mlia.
  - refine (conj HD (conj Hck (conj (pi_mono _ _ _ _ _ Hi) (conj Hl (conj Hp (conj Hb Hz)))))).
Qed.

(** A matrix whose rows [k < r] have their leading entries at increasing
    columns [c k], whose row [r] is zero up to column [c r] included, past
    the columns [c k], and whose rows below [r] are zero, is in echelon
    form: row [r] has a leading entry further right, or none. *)
Lemma isEchelon_dead M eps0 m n r (c : nat -> nat) :
  dims M m n -> r < m ->
  (forall k, k <= r -> c k < n) ->
  (forall k1 k2, k1 < k2 <= r -> c k1 < c k2) ->
  (forall k j, k <= r -> j < c k -> ngtb (nabs (get M k j)) eps0 = false) ->
  (forall k, k < r -> ngtb (nabs (get M k (c k))) eps0 = true) ->
  ngtb (nabs (get M r (c r))) eps0 = false ->
  (forall i j, r < i < m -> j < n -> ngtb (nabs (get M i j)) eps0 = false) ->
  ngtb (nabs nzero) eps0 = false ->
  isEchelon M eps0 = true.
Proof.
  intros HM Hrm Hc Hmono Hleft Hp Hr Hbelow Hz.
  destruct (first_nonzero (nth r M []) eps0 0 n) as [j|] eqn:Ef.
  - destruct (first_nonzero_some_inv _ _ _ _ _ Ef) as (Hj & Hbj & Hpj).
    assert (Hcj : c r < j).
    { destruct (Nat.lt_total (c r) j) as [Hlt|[Heq|Hgt]]; [assumption| |].
      - subst j. change (get M r (c r)) with (nth (c r) (nth r M []) nzero) in Hr. congruence.
      - specialize (Hleft r j ltac:(mlia) Hgt). change (get M r j) with (nth j (nth r M []) nzero) in Hleft.
        congruence. }
    set (c' := fun k => if k <? r then c k else j).
    apply (isEchelon_of_pivots _ _ (map (fun k => (k, c' k)) (seq 0 (S r))) (S r)).
    + apply (leadingEntries_gen _ _ m n); try assumption.
      * unfold c'. intros k Hk. bdestr; try mlia. apply Hc; mlia.
      * unfold c'. intros k x Hk. bdestr; intros Hx; [apply Hleft; mlia|].
        assert (k = r) by mlia. subst k. apply Hbj. mlia.
      * unfold c'. intros k Hk. bdestr; [apply Hp; mlia|].
        assert (k = r) by mlia. subst k. exact Hpj.
    + rewrite map_map. apply map_id.
    + intros k1 k2 Hk. rewrite !(nth_map_lt _ _ _ _ 0) by (rewrite length_seq; mlia).
      rewrite !seq_nth by mlia. simpl. unfold c'. bdestr; try mlia.
      * apply Hmono; mlia.
      * pose proof (Hmono k1 r ltac:(mlia)). mlia.
  - apply (isEchelon_of_pivots _ _ (map (fun k => (k, c k)) (seq 0 r)) r).
    + apply (leadingEntries_gen _ _ m n); try mlia; try assumption.
      * intros k Hk. apply Hc; mlia.
      * intros k x Hk Hx. apply Hleft; mlia.
      * intros i x Hi Hx. destruct (Nat.eq_dec i r) as [->|Hne].
        -- exact (first_nonzero_none_inv _ _ _ _ Ef x ltac:(mlia)).
        -- apply Hbelow; mlia.
    + rewrite map_map. apply map_id.
    + intros k1 k2 Hk. rewrite !(nth_map_lt _ _ _ _ 0) by (rewrite length_seq; mlia).
      rewrite !seq_nth by mlia. simpl. apply Hmono; mlia.
Qed.

End S.
End EchelonStructure.

Module RREFFacts.
Import MatrixLemmas PLUInvariant EchelonStructure FloatPred.
#[local] Existing Instance Binary64.num.

Lemma fpos_false_cases x : fpos x = false -> (exists s, x = S754_zero s) \/ x = S754_nan.
Proof. destruct x; simpl; try discriminate; eauto. Qed.

Lemma abs_lt_fpos a b : SFltb (SFabs a) (SFabs b) = true -> fpos b = true.
Proof. destruct a, b; simpl; try discriminate; try reflexivity; destruct s; discriminate. Qed.

Lemma lt_abs_not_nan e p : SFltb e (SFabs p) = true -> Binary64.is_nan p = false.
Proof. destruct p; try reflexivity. destruct e; discriminate. Qed.

Lemma find_pivot_zero_loop U c (l : list nat) p0 r0 p row :
  fold_left (fun '(pivot, row) i =>
               if ngtb (nabs (get U i c)) (nabs pivot) then (get U i c, i) else (pivot, row))
            l (p0, r0) = (p, row) ->
  fpos p = false -> Binary64.is_nan p = false ->
  (p, row) = (p0, r0) /\ forall i, In i l -> fpos (get U i c) = false.
Proof.
  revert p0 r0. induction l as [|a l IH]; intros p0 r0 Hf Hp Hn; simpl in Hf.
  - split; [symmetry; exact Hf | intros i []].
  - unfold ngtb, nltb, nabs in Hf; simpl in Hf.
    destruct (SFltb (SFabs p0) (SFabs (get U a c))) eqn:Hlt.
    + destruct (IH _ _ Hf Hp Hn) as [He _]. inversion He; subst.
      rewrite (abs_lt_fpos _ _ Hlt) in Hp. discriminate.
    + destruct (IH _ _ Hf Hp Hn) as [He Hall]. inversion He; subst.
      split; [reflexivity|]. intros i [<-|Hi]; [|auto].
      destruct (fpos_false_cases _ Hp) as [[s ->] | ->]; [|discriminate].
      exact Hlt.
Qed.

Lemma find_pivot_nan_loop U c (l : list nat) r0 :
  fst (fold_left (fun '(pivot, row) i =>
               if ngtb (nabs (get U i c)) (nabs pivot) then (get U i c, i) else (pivot, row))
            l (S754_nan, r0)) = S754_nan.
Proof.
  revert r0. induction l as [|a l IH]; intros r0; simpl; [reflexivity|].
  unfold ngtb, nltb, nabs; simpl. apply IH.
Qed.

Lemma div_zero_nan x s : fpos x = false -> SFdiv Binary64.prec Binary64.emax x (S754_zero s) = S754_nan.
Proof. intros H. destruct (fpos_false_cases _ H) as [[s' ->] | ->]; reflexivity. Qed.

Lemma add_nan_absorb x y : SFadd Binary64.prec Binary64.emax x (SFmul Binary64.prec Binary64.emax (SFopp S754_nan) y) = S754_nan.
Proof. destruct x, y; reflexivity. Qed.

Lemma lt_nan_false e : SFltb e S754_nan = false.
Proof. destruct e; reflexivity. Qed.

Lemma dead_inv_step eps m n c st :
  plu_inv eps m n c st -> st_row st < m -> c < n -> dead_inv m n c st -> dead_inv m n (S c) (plu_step eps m c st).
Proof.
  intros Hi Hr Hc Hd.
  pose proof (length_pivots_inv _ _ _ _ _ Hi) as Hlp.
  destruct (find_pivot (st_U st) m (st_row st) c) as [p row] eqn:Efp.
  destruct (plu_step_U eps m n c st p row Hi Hr Hc Efp) as (Hkeep & Hpv & Hnp).
  destruct Hd as [Halive | (r & Hr' & Hk & Hz & Hnan)].
  - destruct (ngtb (nabs p) eps) eqn:Hg.
    + destruct (Hpv eq_refl) as (Hrow' & Hpiv' & Hval & Hel).
      destruct (fpos p) eqn:Hfp.
      * left. rewrite Hrow', Hpiv'. intros k Hk. rewrite nth_pivots_app, Hlp.
        destruct (Nat.eq_dec k (st_row st)) as [->|Hne].
        -- rewrite Nat.ltb_irrefl, Nat.eqb_refl; simpl. rewrite Hval. exact Hfp.
        -- rewrite (proj2 (Nat.ltb_lt _ _)) by lia. rewrite Hkeep by lia. apply Halive; lia.
      * right. exists (st_row st). rewrite Hrow', Hpiv'. split; [reflexivity|]. split; [|split].
        -- intros k Hk. rewrite nth_pivots_app, Hlp, (proj2 (Nat.ltb_lt _ _)) by lia.
           rewrite Hkeep by lia. auto.
        -- rewrite nth_pivots_app, Hlp, Nat.ltb_irrefl, Nat.eqb_refl; simpl. rewrite Hval. exact Hfp.
        -- assert (Hpn : Binary64.is_nan p = false) by exact (lt_abs_not_nan _ _ Hg).
           unfold find_pivot in Efp.
           destruct (find_pivot_zero_loop _ _ _ _ _ _ _ Efp Hfp Hpn) as [He Hall].
           injection He as Hp0 Hrow0.
           destruct (fpos_false_cases _ Hfp) as [[s Hs] | Hs]; [|rewrite Hs in Hpn; discriminate].
           intros i j Hij Hj. rewrite Hel by (first [exact Hrow0 | lia]).
           assert (Hl : get (st_U st) i c /. p = S754_nan).
           { rewrite Hs. apply div_zero_nan. apply Hall. apply in_seq. lia. }
           rewrite Hl. apply add_nan_absorb.
    + destruct (Hnp eq_refl) as (Hrow' & Hpiv' & _). left. rewrite Hrow', Hpiv'.
      intros k Hk. rewrite Hkeep by lia. auto.
  - assert (Hp : p = S754_nan).
    { unfold find_pivot in Efp. rewrite (Hnan (st_row st) c) in Efp by lia.
      pose proof (find_pivot_nan_loop (st_U st) c (seq (S (st_row st)) (m - S (st_row st))) (st_row st)) as Hl.
      rewrite Efp in Hl. exact Hl. }
    subst p. destruct (Hnp (lt_nan_false _)) as (Hrow' & Hpiv' & Hcols).
    right. exists r. rewrite Hrow', Hpiv'. split; [exact Hr'|]. split; [|split].
    + intros k Hk0. rewrite Hkeep by lia. auto.
    + rewrite Hkeep by lia. exact Hz.
    + intros i j Hij Hj. rewrite Hcols by lia. apply Hnan; lia.
Qed.

Theorem plu_U_isEchelon (A : @mat spec_float) (eps : spec_float) :
  wf A = true -> isEchelon (plu_U (fst (m_PLU (fresh A) eps))) nzero = true.
Proof.
  intros Hw.
  destruct (PLU_compute_inv_ext eps A (dead_inv (mrows A) (mcols A)) Hw
              (fun c st Hi Hr Hc Hd => dead_inv_step eps _ _ c st Hi Hr Hc Hd)
              (or_introl (fun k (Hk : k < 0) => False_rect _ (Nat.nlt_0_r k Hk))))
    as (c & st & Hcn & Hi & Hd & Hend & Heq).
  change (plu_U (fst (m_PLU (fresh A) eps))) with (plu_U (PLU_compute A eps)).
  rewrite Heq. cbn [plu_U].
  destruct Hd as [Halive | (r & Hr & Hkp & Hz & Hnan)].
  - apply (isEchelon_of_pivots _ _ (st_pivots st) (st_row st)).
    + apply (leadingEntries_final eps nzero (mrows A) (mcols A) c st); try assumption.
      * reflexivity.
    + exact (pi_fst _ _ _ _ _ Hi).
    + exact (pi_mono _ _ _ _ _ Hi).
  - pose proof (pi_row _ _ _ _ _ Hi) as Hrm.
    apply (isEchelon_dead _ _ (mrows A) (mcols A) r (fun k => snd (nth k (st_pivots st) (0, 0)))).
    + exact (pi_U _ _ _ _ _ Hi).
    + lia.
    + intros k Hk. pose proof (pi_lt _ _ _ _ _ Hi k ltac:(lia)). lia.
    + intros k1 k2 Hk12. apply (pi_mono _ _ _ _ _ Hi). lia.
    + intros k j Hk Hj. rewrite (pi_left _ _ _ _ _ Hi k j) by lia. reflexivity.
    + exact Hkp.
    + exact Hz.
    + intros i j Hij Hj. destruct (Nat.lt_ge_cases j c) as [Hjc|Hjc].
      * rewrite (pi_below _ _ _ _ _ Hi i j) by lia. reflexivity.
      * rewrite Hnan by lia. reflexivity.
    + reflexivity.
Qed.

Lemma zeroish_mul_l x f : zeroish x -> zeroish (SFmul Binary64.prec Binary64.emax x f).
Proof. destruct x; simpl; try tauto; destruct f; simpl; auto. Qed.

Lemma zeroish_mul_r x f : zeroish x -> zeroish (SFmul Binary64.prec Binary64.emax f x).
Proof. destruct x; simpl; try tauto; destruct f; simpl; auto. Qed.

Lemma zeroish_add x y : zeroish x -> zeroish y -> zeroish (SFadd Binary64.prec Binary64.emax x y).
Proof. destruct x, y; simpl; try tauto; intros; destruct s, s0; simpl; auto. Qed.

Lemma zeroish_eq x : zeroish x -> Binary64.is_nan x = false -> SFeqb x (S754_zero false) = true.
Proof. destruct x; simpl; try tauto; try discriminate; reflexivity. Qed.

Lemma get_not_nan (M : @mat spec_float) i j :
  forallb (forallb (fun x => negb (Binary64.is_nan x))) M = true -> Binary64.is_nan (get M i j) = false.
Proof.
  intros Hm. unfold get. destruct (Nat.lt_ge_cases i (length M)) as [Hi|Hi].
  - rewrite forallb_forall in Hm. specialize (Hm _ (nth_In M [] Hi)). rewrite forallb_forall in Hm.
    destruct (Nat.lt_ge_cases j (length (nth i M []))) as [Hj|Hj].
    + specialize (Hm _ (nth_In _ nzero Hj)). now apply negb_true_iff.
    + rewrite nth_overflow by assumption. reflexivity.
  - rewrite (nth_overflow M) by assumption. now destruct j.
Qed.

(** C5 (amended): for every matrix [A] and every tolerance [ε] (negative
    or [NaN] included), the [U] returned by [A.PLU(ε)] satisfies
    [isEchelon(0)], and the matrix returned by [A.rref(ε)] satisfies
    [isRREF(0)] whenever none of its entries is [NaN]. *)
Theorem rref_isRREF_unless_nan (A : @mat spec_float) (eps : spec_float) :
  wf A = true ->
  isEchelon (plu_U (fst (m_PLU (fresh A) eps))) nzero = true /\
  (forallb (forallb (fun x => negb (Binary64.is_nan x))) (fst (m_rref (fresh A) eps)) = true ->
   isRREF (fst (m_rref (fresh A) eps)) nzero = true).
Proof.
  intros Hw. split; [now apply plu_U_isEchelon|].
  destruct (PLU_compute_inv eps A Hw) as (c & st & Hcn & Hi & Hend & Heq).
  assert (Hr : fst (m_rref (fresh A) eps) = fst (rref_compute (PLU_compute A eps))).
  { unfold m_rref. simpl. destruct (rref_compute _). reflexivity. }
  rewrite Hr, Heq. intros Hnan.
  destruct (rref_compute_structure zeroish eps (mrows A) (mcols A) c st ltac:(exact I)
              (fun x y f Hx Hy => zeroish_add _ _ Hx (zeroish_mul_r _ _ Hy))
              (fun x f Hx => zeroish_mul_l _ _ Hx) Hcn Hi Hend)
    as (HD & Hck & Hmono & Hl & Hp & Hb & Hz).
  apply (isRREF_of _ _ (mrows A) (mcols A) (st_row st) (fun k => snd (nth k (st_pivots st) (0, 0))));
    try assumption; try reflexivity.
  - exact (pi_row _ _ _ _ _ Hi).
  - intros k i Hk Hik. apply zeroish_eq; [now apply Hz|]. now apply get_not_nan.
Qed.

Lemma rref_isRREF_unless_nan_witness :
  let A := [[Binary64.of_Z 1; Binary64.of_Z 2]; [Binary64.of_Z 3; Binary64.of_Z 4]] in
  wf A = true /\
  (isEchelon (plu_U (fst (m_PLU (fresh A) (Binary64.tenth_pow 10)))) nzero = true /\
   (forallb (forallb (fun x => negb (Binary64.is_nan x))) (fst (m_rref (fresh A) (Binary64.tenth_pow 10))) = true ->
    isRREF (fst (m_rref (fresh A) (Binary64.tenth_pow 10))) nzero = true)).
Proof.
  intros A. split; [vm_compute; reflexivity|].
  apply (rref_isRREF_unless_nan A (Binary64.tenth_pow 10)). vm_compute. reflexivity.
Defined.

(** C5: for [A = [[1, 1e300, 0], [0, 1e-9, 0], [0, 0, 1]]] and the
    default [ε = 1e-10], [rref()] divides the second row by [1e-9] and
    then subtracts [1e300 / 1e-9 = Infinity] times it from the first row:
    the entry [(0, 2)] becomes [0 - Infinity·0 = NaN] and the result is
    not in reduced row echelon form for [isRREF(0)]. *)
Lemma rref_overflow_nan :
  let A := [[Binary64.of_Z 1; Binary64.of_Z (10 ^ 300); Binary64.of_Z 0];
            [Binary64.of_Z 0; Binary64.tenth_pow 9; Binary64.of_Z 0];
            [Binary64.of_Z 0; Binary64.of_Z 0; Binary64.of_Z 1]] in
  wf A = true /\
  get (fst (m_rref (fresh A) (Binary64.tenth_pow 10))) 0 2 = S754_nan /\
  isRREF (fst (m_rref (fresh A) (Binary64.tenth_pow 10))) nzero = false.
Proof. vm_compute. split; [reflexivity | split; reflexivity]. Qed.

End RREFFacts.

(** ** One step of [PLU(ε)], entry by entry *)

Module PLUSteps.
Import MatrixLemmas PLUInvariant ExactPLU.


Section S.
Context {F : Type} `{Num F}.
Implicit Types M L U E : @mat F.

Lemma swap_idx_below row r a : a < r -> r <= row -> swap_idx row r a = a.
Proof. unfold swap_idx. bdestr; intros; mlia. Qed.

Lemma swap_idx_r row r : swap_idx row r r = row.
Proof. unfold swap_idx. bdestr; intros; mlia. Qed.

Lemma swap_idx_lt row r m a : a < m -> row < m -> r < m -> swap_idx row r a < m.
Proof. unfold swap_idx. bdestr; intros; mlia. Qed.

Lemma swap_idx_ge row r a : r <= a -> r <= row -> r <= swap_idx row r a.
Proof. unfold swap_idx. bdestr; intros; mlia. Qed.

Lemma swap_idx_inj row r a b : swap_idx row r a = swap_idx row r b -> a = b.
Proof. unfold swap_idx. bdestr; intros; mlia. Qed.


Lemma plu_step_spec eps m n c st p row :
  plu_inv eps m n c st -> st_row st < m -> c < n ->
  find_pivot (st_U st) m (st_row st) c = (p, row) ->
  let r := st_row st in
  let swp := swap_idx row r in
  let st' := plu_step eps m c st in
  r <= row < m /\ p = get (st_U st) row c /\
  (ngtb (nabs p) eps = true ->
     (forall a, nth a (st_P st') 0 = nth (swp a) (st_P st) 0) /\
     (forall a k, get (st_L st') a k =
        if (S r <=? a) && (a <? m) && (k =? r) then get (st_U st) (swp a) c /. p
        else if k <? r then get (st_L st) (swp a) k else get (st_L st) a k) /\
     (forall a b, b < n -> get (st_U st') a b =
        if (S r <=? a) && (a <? m) then
          (if b =? c then nzero
           else if S c <=? b then get (st_U st) (swp a) b +. nopp (get (st_U st) (swp a) c /. p) *. get (st_U st) row b
           else get (st_U st) (swp a) b)
        else get (st_U st) (swp a) b) /\
     (forall a b, b < m -> get (st_E st') a b =
        if (S r <=? a) && (a <? m) then
          get (st_E st) (swp a) b +. nopp (get (st_U st) (swp a) c /. p) *. get (st_E st) row b
        else get (st_E st) (swp a) b)) /\
  (ngtb (nabs p) eps = false ->
     st_P st' = st_P st /\ st_L st' = st_L st /\ st_E st' = st_E st /\
     st_U st' = clear_col (st_U st) m r c).
Proof.
  intros Hi Hr Hc Efp. destruct st as [P L U E pv sg r]. simpl in Hr, Efp |- * .
  destruct Hi as [pi_U0 pi_L0 pi_E0 pi_Plen0 pi_Prange0 pi_Pinj0 pi_row0 pi_rowcol0 pi_fst0 pi_mono0 pi_lt0 pi_below0 pi_left0 pi_piv0 pi_Lid0]; simpl in * .
  pose proof (find_pivot_spec U m r c Hr) as Hfp. rewrite Efp in Hfp.
  destruct Hfp as [Hrow Hpiv].
  split; [exact Hrow|]. split; [exact Hpiv|].
  unfold plu_step; simpl. rewrite Efp.
  destruct (ngtb (nabs p) eps) eqn:Hg; (split; [intros _|discriminate]) || (split; [discriminate|intros _]).
  - set (swp := swap_idx row r). unfold swap_idx in swp.
    assert (Hs : exists Ps sg' Us Es Ls,
      (if negb (row =? r) then (swap_nth 0 P row r, Z.opp sg, rowSwap U row r, rowSwap E row r, swapL L row r)
       else (P, sg, U, E, L)) = (Ps, sg', Us, Es, Ls) /\
      dims Us m n /\ dims Es m m /\ dims Ls m m /\
      (forall a b, get Us a b = get U (swp a) b) /\
      (forall a b, get Es a b = get E (swp a) b) /\
      (forall a k, get Ls a k = if k <? r then get L (swp a) k else get L a k) /\
      (forall a, nth a Ps 0 = nth (swp a) P 0)).
    { destruct (Nat.eqb_spec row r) as [->|Hne]; simpl.
      - exists P, sg, U, E, L. split; [reflexivity|].
        assert (Hid : forall a, swp a = a) by (intros a; unfold swp; bdestr; mlia).
        refine (conj pi_U0 (conj pi_E0 (conj pi_L0 (conj _ (conj _ (conj _ _))))));
          intros; rewrite ?Hid; try reflexivity.
        bdestr; reflexivity.
      - eexists _, _, _, _, _. split; [reflexivity|].
        refine (conj (dims_rowSwap _ _ _ _ _ _ _ pi_U0) (conj (dims_rowSwap _ _ _ _ _ _ _ pi_E0)
                  (conj (swapL_dims _ _ _ _ pi_L0 _ _) (conj _ (conj _ (conj _ _)))))); try mlia.
        + intros a b. rewrite get_rowSwap by (destruct pi_U0; mlia). f_equal. unfold swp. bdestr; mlia.
        + intros a b. rewrite get_rowSwap by (destruct pi_E0; mlia). f_equal. unfold swp. bdestr; mlia.
        + intros a k. rewrite (get_swapL L m) by (assumption || mlia). reflexivity.
        + intros a. rewrite nth_swap_nth by mlia. unfold swp. bdestr; subst; first [reflexivity | mlia]. }
    destruct Hs as (Ps & sg' & Us & Es & Ls & -> & HUs & HEs & HLs & GU & GE & GL & GP).
    destruct (eliminate Ls Us Es m r c p) as [[L' U'] E'] eqn:Hel.
    unfold eliminate in Hel.
    destruct (eliminate_loop Ls Us Es m n p r c (m - S r) L' U' E' HLs HUs HEs Hr Hc ltac:(mlia) Hel)
      as (HL' & HU' & HE' & GL' & GU' & GE').
    replace (S r + (m - S r)) with m in GL', GU', GE' by mlia.
    assert (Hsr : swp r = row) by (unfold swp; bdestr; mlia).
    simpl. refine (conj GP (conj _ (conj _ _))).
    + intros a k. rewrite GL', GU, GL. reflexivity.
    + intros a b Hb. rewrite GU' by assumption. rewrite !GU, Hsr. reflexivity.
    + intros a b Hb. rewrite GE' by assumption. rewrite !GE, GU, Hsr. reflexivity.
  - simpl. repeat split.
Qed.

End S.
End PLUSteps.

(** ** Finite sums, matrix products and permutation matrices over R *)

Module RSumFacts.
Import MatrixLemmas PLUInvariant ExactPLU.
#[local] Existing Instance Exact.num.
Local Open Scope R_scope.

Ltac rnum := cbn [nzero none nadd nsub nmul ndiv nopp nabs nltb Exact.num] in * .


Lemma rsum_ext f g n : (forall k, (k < n)%nat -> f k = g k) -> rsum f n = rsum g n.
Proof. induction n as [|n IH]; intros Hfg; simpl; [reflexivity|]. rewrite IH by (intros; apply Hfg; lia). rewrite Hfg by lia. reflexivity. Qed.

Lemma rsum_plus f g n : rsum (fun k => f k + g k) n = rsum f n + rsum g n.
Proof. induction n as [|n IH]; simpl; [lra|]. rewrite IH. lra. Qed.

Lemma rsum_scal c f n : rsum (fun k => c * f k) n = c * rsum f n.
Proof. induction n as [|n IH]; simpl; [lra|]. rewrite IH. lra. Qed.

Lemma rsum_zero f n : (forall k, (k < n)%nat -> f k = 0) -> rsum f n = 0.
Proof. induction n as [|n IH]; intros Hf; simpl; [reflexivity|]. rewrite IH by (intros; apply Hf; lia). rewrite Hf by lia. lra. Qed.

Lemma rsum_single f n i : (i < n)%nat -> (forall k, (k < n)%nat -> k <> i -> f k = 0) -> rsum f n = f i.
Proof.
  induction n as [|n IH]; intros Hi Hf; [lia|]. simpl.
  destruct (Nat.eq_dec i n) as [->|Hne].
  - rewrite rsum_zero; [lra|]. intros k Hk. apply Hf; lia.
  - rewrite IH by (lia || (intros; apply Hf; lia)). rewrite (Hf n) by lia. lra.
Qed.

Lemma rsum_split f a b : rsum f (a + b) = rsum f a + rsum (fun k => f (a + k)%nat) b.
Proof. induction b as [|b IH]; simpl; rewrite ?Nat.add_0_r; [lra|]. rewrite Nat.add_succ_r. simpl. rewrite IH. lra. Qed.

Lemma rsum_swap (f : nat -> nat -> R) n m :
  rsum (fun i => rsum (fun j => f i j) m) n = rsum (fun j => rsum (fun i => f i j) n) m.
Proof.
  induction n as [|n IH]; simpl.
  - symmetry. apply rsum_zero. reflexivity.
  - rewrite IH, <- rsum_plus. reflexivity.
Qed.

Lemma rsum_abs_le f n : Rabs (rsum f n) <= rsum (fun k => Rabs (f k)) n.
Proof.
  induction n as [|n IH]; simpl; [rewrite Rabs_R0; lra|].
  eapply Rle_trans; [apply Rabs_triang|]. lra.
Qed.

Lemma fold_pairs_sum (g h : nat -> R) s k a0 :
  fold_left (fun a '(j, v) => a +. v *. g j) (map (fun i => (i, h i)) (seq s k)) a0 =
  a0 + rsum (fun i => h (s + i)%nat * g (s + i)%nat) k.
Proof.
  induction k as [|k IH]; [simpl; lra|].
  rewrite seq_S, map_app, fold_left_app, IH. simpl. cbn [nadd nmul Exact.num]. lra.
Qed.

Lemma fold_enum_sum (g : nat -> R) (row : list R) a0 :
  fold_left (fun a '(j, v) => a +. v *. g j) (enumerate row) a0 =
  a0 + rsum (fun j => nth j row 0 * g j) (length row).
Proof. rewrite (enumerate_seq _ 0), fold_pairs_sum. reflexivity. Qed.

Lemma get_mult (A B : @mat R) a b :
  (a < length A)%nat -> (b < mcols B)%nat ->
  get (mult A B) a b = rsum (fun j => get A a j * get B j b) (length (nth a A [])).
Proof.
  intros Ha Hb. unfold mult, get at 1.
  rewrite (nth_map_lt _ _ _ _ []) by assumption.
  rewrite (nth_map_lt _ _ _ _ 0%nat) by (rewrite length_seq; assumption).
  rewrite seq_nth by assumption. simpl. rewrite fold_enum_sum. cbn [nzero Exact.num]. rewrite Rplus_0_l. reflexivity.
Qed.

Lemma dims_mult (A B : @mat R) m k n :
  dims A m k -> dims B k n -> (0 < k)%nat -> dims (mult A B) m n.
Proof.
  intros [HAl HAr] HB Hk. rewrite <- (mcols_dims _ _ _ HB Hk). unfold mult. split.
  - rewrite length_map. exact HAl.
  - intros i Hi. rewrite (nth_map_lt _ _ _ _ []) by mlia. rewrite length_map, length_seq. reflexivity.
Qed.

Lemma vdot_sum (v w : list R) : vdot v w = rsum (fun k => nth k v 0 * nth k w 0) (length v).
Proof. unfold vdot. rewrite fold_enum_sum. cbn [nzero Exact.num]. rewrite Rplus_0_l. reflexivity. Qed.

Lemma get_permutation (P : list nat) a j :
  (a < length P)%nat -> (j < length P)%nat ->
  get (permutation P) a j = if (j =? nth a P 0)%nat then 1 else 0.
Proof.
  intros Ha Hj. unfold permutation, get, ve.
  rewrite (nth_map_lt _ _ _ _ 0%nat) by assumption.
  rewrite (nth_map_lt _ _ _ _ 0%nat) by (rewrite length_seq; assumption).
  rewrite seq_nth by assumption. reflexivity.
Qed.

Lemma dims_permutation (P : list nat) m : length P = m -> dims (permutation P) m m.
Proof.
  intros Hl. unfold permutation, ve. split; [rewrite length_map; exact Hl|].
  intros i Hi. rewrite (nth_map_lt _ _ _ _ 0%nat) by mlia. rewrite length_map, length_seq. exact Hl.
Qed.

Lemma mequals_of (A B : @mat R) m n eps :
  dims A m n -> dims B m n ->
  (forall a b, (a < m)%nat -> (b < n)%nat -> Rabs (get A a b - get B a b) <= eps) ->
  mequals A B eps = true.
Proof.
  intros [HAl HAr] [HBl HBr] Hab. unfold mequals.
  assert (Hc : mcols A = mcols B).
  { destruct A as [|ra A], B as [|rb B]; simpl in *; try lia; try reflexivity.
    rewrite (HAr 0%nat), (HBr 0%nat) by lia. reflexivity. }
  unfold mrows. rewrite HAl, HBl, Hc, !Nat.eqb_refl. simpl.
  apply forallb_forall. intros [i row] Hin.
  rewrite (enumerate_seq _ []) in Hin. apply in_map_iff in Hin as (i' & Heq & Hi').
  injection Heq as Hi Hrow. subst i' row. apply in_seq in Hi'.
  unfold vequals. rewrite HAr, HBr, Nat.eqb_refl by mlia. simpl.
  apply forallb_forall. intros [k x] Hin.
  rewrite (enumerate_seq _ 0) in Hin. apply in_map_iff in Hin as (k' & Heq & Hk').
  injection Heq as Hk Hx. subst k' x. apply in_seq in Hk'. rewrite HAr in Hk' by mlia.
  specialize (Hab i k ltac:(mlia) ltac:(mlia)). unfold get in Hab. cbn [nzero Exact.num] in Hab.
  cbn [ngtb nltb nabs nsub nzero Exact.num]. unfold Exact.ltb.
  match goal with |- context [Rlt_dec ?a ?b] => destruct (Rlt_dec a b) end; [exfalso; eapply Rlt_not_le; [eassumption | exact Hab] | reflexivity].
Qed.
End RSumFacts.

(** ** [P·A = L·U] for [PLU(ε)] in exact arithmetic *)

Module PLUExact.
Import MatrixLemmas PLUInvariant ExactPLU PLUSteps RSumFacts.
#[local] Existing Instance Exact.num.
Local Open Scope R_scope.

Lemma LU_split eps m n c st a b :
  plu_inv eps m n c st -> (a < m)%nat ->
  LU_sum m st a b = rsum (fun k => get (st_L st) a k * get (st_U st) k b) (st_row st) +
                    (if (st_row st <=? a)%nat then get (st_U st) a b else 0).
Proof.
  intros Hi Ha. unfold LU_sum. pose proof (pi_row _ _ _ _ _ Hi) as Hr.
  replace m with (st_row st + (m - st_row st))%nat at 1 by lia.
  rewrite rsum_split. f_equal.
  destruct (Nat.leb_spec (st_row st) a) as [Hle|Hlt].
  - rewrite (rsum_single _ _ (a - st_row st)) by
      (lia || (intros k Hk Hne; rewrite (pi_Lid _ _ _ _ _ Hi) by lia; bdestr; try lia; rnum; lra)).
    replace (st_row st + (a - st_row st))%nat with a by lia.
    rewrite (pi_Lid _ _ _ _ _ Hi) by lia. rewrite Nat.eqb_refl. rnum. lra.
  - apply rsum_zero. intros k Hk. rewrite (pi_Lid _ _ _ _ _ Hi) by lia. bdestr; try lia. rnum. lra.
Qed.

Lemma find_pivot_max_loop (U : @mat R) c (l : list nat) p0 r0 p row :
  fold_left (fun '(pivot, row) i =>
               if ngtb (nabs (get U i c)) (nabs pivot) then (get U i c, i) else (pivot, row))
            l (p0, r0) = (p, row) ->
  Rabs p0 <= Rabs p /\ forall i, In i l -> Rabs (get U i c) <= Rabs p.
Proof.
  revert p0 r0. induction l as [|x l IH]; intros p0 r0 Hf; simpl in Hf.
  - injection Hf as -> ->. split; [lra | intros i []].
  - unfold ngtb in Hf. rnum. unfold Exact.ltb in Hf.
    destruct (Rlt_dec (Rabs p0) (Rabs (get U x c))) as [Hlt|Hge].
    + destruct (IH _ _ Hf) as [H1 H2]. split; [lra|]. intros i [<-|Hi]; auto.
    + destruct (IH _ _ Hf) as [H1 H2]. split; [lra|]. intros i [<-|Hi]; [lra|auto].
Qed.

Lemma find_pivot_max (U : @mat R) m r c p row :
  find_pivot U m r c = (p, row) -> forall i, (r <= i < m)%nat -> Rabs (get U i c) <= Rabs p.
Proof.
  intros Hf i Hi. unfold find_pivot in Hf.
  destruct (find_pivot_max_loop _ _ _ _ _ _ _ Hf) as [H1 H2].
  destruct (Nat.eq_dec i r) as [->|Hne]; [exact H1|]. apply H2. apply in_seq. lia.
Qed.

Lemma exinv_step (A : @mat R) eps m n c st :
  0 <= eps -> plu_inv eps m n c st -> (st_row st < m)%nat -> (c < n)%nat ->
  exinv A eps m n c st -> exinv A eps m n (S c) (plu_step eps m c st).
Proof.
  intros Heps Hi Hr Hc [Hb Hz].
  destruct (find_pivot (st_U st) m (st_row st) c) as [p row] eqn:Efp.
  pose proof (plu_step_inv eps m n c st Hi Hr Hc) as Hi'.
  destruct (plu_step_spec eps m n c st p row Hi Hr Hc Efp) as (Hrow & Hp & Hpiv & Hnp).
  destruct (plu_step_U eps m n c st p row Hi Hr Hc Efp) as (Hkeep & Hpv & Hnpv).
  pose proof (find_pivot_max _ _ _ _ _ _ Efp) as Hmax.
  set (r := st_row st) in * .
  set (st' := plu_step eps m c st) in * .
  destruct (ngtb (nabs p) eps) eqn:Hg.
  - destruct (Hpiv eq_refl) as (GP & GL & GU & _).
    destruct (Hpv eq_refl) as (Hrow' & _ & _ & _).
    assert (Hp0 : p <> 0).
    { unfold ngtb in Hg. rnum. unfold Exact.ltb in Hg. destruct (Rlt_dec eps (Rabs p)); [|discriminate].
      intros ->. rewrite Rabs_R0 in * . lra. }
    assert (Hres : forall a b, (a < m)%nat -> (b < n)%nat ->
              resid A m st' a b = resid A m st (swap_idx row r a) b).
    { intros a b Ha Hb'. unfold resid. rewrite GP. f_equal.
      assert (Hsa : (swap_idx row r a < m)%nat) by (apply swap_idx_lt; lia).
      rewrite (LU_split _ _ _ _ _ a b Hi' Ha), (LU_split _ _ _ _ _ _ b Hi Hsa), Hrow'.
      fold r. cbn [rsum].
      rewrite (rsum_ext _ (fun k => get (st_L st) (swap_idx row r a) k * get (st_U st) k b) r).
      2: { intros k Hk. rewrite GL, GU by assumption.
           replace ((S r <=? a) && (a <? m) && (k =? r))%nat with false by (bdestr; first [reflexivity | lia]).
           replace ((S r <=? k) && (k <? m))%nat with false by (bdestr; first [reflexivity | lia]).
           rewrite (proj2 (Nat.ltb_lt k r)) by lia. rewrite (swap_idx_below row r k) by lia. reflexivity. }
      rewrite !GU by assumption. rewrite GL, Nat.ltb_irrefl, Nat.eqb_refl, swap_idx_r.
      replace ((S r <=? r) && (r <? m))%nat with false by (bdestr; first [reflexivity | lia]).
      try rewrite Bool.andb_false_l.
      destruct (Nat.lt_total a r) as [Har|[Har|Har]].
      - rewrite (swap_idx_below row r a) by lia.
        replace ((S r <=? a) && (a <? m) && (r =? r))%nat with false by (bdestr; first [reflexivity | lia]).
        replace (S r <=? a)%nat with false by (bdestr; first [reflexivity | lia]).
        replace (r <=? a)%nat with false by (bdestr; first [reflexivity | lia]).
        rewrite (pi_Lid _ _ _ _ _ Hi) by lia. bdestr; try lia. rnum. lra.
      - subst a. rewrite swap_idx_r.
        replace ((S r <=? r) && (r <? m) && (r =? r))%nat with false by (bdestr; first [reflexivity | lia]).
        replace (S r <=? r)%nat with false by (bdestr; first [reflexivity | lia]).
        replace (r <=? row)%nat with true by (bdestr; first [reflexivity | lia]).
        rewrite (pi_Lid _ _ _ _ _ Hi) by lia. rewrite Nat.eqb_refl. cbn [andb]. rnum. lra.
      - replace ((S r <=? a) && (a <? m) && (r =? r))%nat with true by (bdestr; first [reflexivity | lia]).
        replace ((S r <=? a) && (a <? m))%nat with true by (bdestr; first [reflexivity | lia]).
        replace (S r <=? a)%nat with true by (bdestr; first [reflexivity | lia]).
        replace (r <=? swap_idx row r a)%nat with true
          by (symmetry; apply Nat.leb_le; apply swap_idx_ge; lia).
        cbn [andb]. rnum. destruct (Nat.lt_total b c) as [Hbc|[Hbc|Hbc]].
        + replace (b =? c)%nat with false by (bdestr; first [reflexivity | lia]).
          replace (S c <=? b)%nat with false by (bdestr; first [reflexivity | lia]).
          rewrite (pi_below _ _ _ _ _ Hi row b) by (fold r; lia). rnum. lra.
        + subst b. rewrite Nat.eqb_refl, <- Hp. field. exact Hp0.
        + replace (b =? c)%nat with false by (bdestr; first [reflexivity | lia]).
          replace (S c <=? b)%nat with true by (bdestr; first [reflexivity | lia]).
          field. exact Hp0. }
    split.
    + intros a b Ha Hb'. rewrite Hres by assumption. apply Hb; [apply swap_idx_lt; lia | assumption].
    + intros a b Ha Hb'. rewrite Hres by lia. apply Hz; [apply swap_idx_lt; lia | lia].
  - destruct (Hnp eq_refl) as (GP & GL & GE & GU). destruct (Hnpv eq_refl) as (Hrow' & _ & _).
    destruct (clear_col_spec (st_U st) m n r c (pi_U _ _ _ _ _ Hi) Hc ltac:(lia)) as [_ HG].
    assert (Hres : forall a b, (a < m)%nat -> (b < n)%nat ->
              resid A m st' a b = resid A m st a b +
                                  (if ((r <=? a) && (b =? c))%nat then get (st_U st) a c else 0)).
    { intros a b Ha Hb'. unfold resid. rewrite GP.
      rewrite (LU_split _ _ _ _ _ a b Hi' Ha), (LU_split _ _ _ _ _ a b Hi Ha), Hrow'. fold r.
      rewrite (rsum_ext (fun k => get (st_L st') a k * get (st_U st') k b)
                        (fun k => get (st_L st) a k * get (st_U st) k b) r).
      2: { intros k Hk. rewrite GL, GU, HG.
           replace ((r <=? k) && (k <? m) && (b =? c))%nat with false by (bdestr; first [reflexivity | lia]).
           reflexivity. }
      rewrite GU, HG. replace (a <? m)%nat with true by (bdestr; first [reflexivity | lia]).
      destruct (Nat.leb_spec r a); destruct (Nat.eqb_spec b c); simpl; try (subst b); rnum; lra. }
    assert (Hpe : Rabs p <= eps).
    { unfold ngtb in Hg. rnum. unfold Exact.ltb in Hg. destruct (Rlt_dec eps (Rabs p)); [discriminate|lra]. }
    split.
    + intros a b Ha Hb'. rewrite Hres by assumption.
      destruct (Nat.leb_spec r a); destruct (Nat.eqb_spec b c); simpl.
      * subst b. rewrite (Hz a c Ha) by lia. rewrite Rplus_0_l.
        eapply Rle_trans; [apply Hmax; lia | exact Hpe].
      * rewrite Rplus_0_r. auto.
      * rewrite Rplus_0_r. auto.
      * rewrite Rplus_0_r. auto.
    + intros a b Ha Hb'. rewrite Hres by lia.
      replace (b =? c)%nat with false by (bdestr; first [reflexivity | lia]).
      rewrite Bool.andb_false_r, Rplus_0_r. apply Hz; lia.
Qed.

Lemma exinv_init (A : @mat R) eps :
  wf A = true -> 0 <= eps ->
  exinv A eps (mrows A) (mcols A) 0
        (mkst (seq 0 (mrows A)) (identity (mrows A) none) A (identity (mrows A) none) [] 1%Z 0).
Proof.
  intros Hw He.
  assert (H0 : forall a b, (a < mrows A)%nat -> resid A (mrows A)
             (mkst (seq 0 (mrows A)) (identity (mrows A) none) A (identity (mrows A) none) [] 1%Z 0) a b = 0).
  { intros a b Ha. unfold resid.
    rewrite (LU_split _ _ _ _ _ a b (plu_init_inv eps A Hw) Ha). cbn [st_P st_row st_U rsum].
    rewrite seq_nth by assumption. simpl. lra. }
  split; intros a b Ha Hb; rewrite H0 by assumption; [rewrite Rabs_R0; exact He | reflexivity].
Qed.

Lemma dims_mult_gen (X Y : @mat R) : dims (mult X Y) (length X) (mcols Y).
Proof.
  unfold mult. split; [apply length_map|]. intros i Hi.
  rewrite (nth_map_lt _ _ _ _ []) by exact Hi.
  rewrite length_map, length_seq. reflexivity.
Qed.

Theorem plu_PA_LU_exact (A : @mat R) (eps tol : R) :
  wf A = true -> 0 <= eps -> eps <= tol ->
  let d := fst (m_PLU (fresh A) eps) in
  mequals (mult (permutation (plu_P d)) A) (mult (plu_L d) (plu_U d)) tol = true.
Proof.
  intros Hw He Ht. cbv zeta. change (fst (m_PLU (fresh A) eps)) with (PLU_compute A eps).
  destruct (PLU_compute_inv_ext eps A (fun c st => exinv A eps (mrows A) (mcols A) c st) Hw
              (fun c st Hi Hr Hc Hq => exinv_step A eps _ _ c st He Hi Hr Hc Hq)
              (exinv_init A eps Hw He)) as (c & st & _ & Hi & [Hb _] & _ & ->).
  cbn [plu_P plu_L plu_U].
  set (m := mrows A) in * . set (n := mcols A) in * .
  pose proof (pi_Plen _ _ _ _ _ Hi) as HPl.
  pose proof (dims_mult_gen (permutation (st_P st)) A) as D1.
  pose proof (dims_mult_gen (st_L st) (st_U st)) as D2.
  assert (HpL : length (permutation (st_P st)) = m) by (unfold permutation; rewrite length_map; exact HPl).
  assert (HLl : length (st_L st) = m) by apply (pi_L _ _ _ _ _ Hi).
  rewrite HpL in D1. rewrite HLl in D2.
  assert (HUc : mcols (st_U st) = n).
  { destruct (Nat.eq_dec m 0) as [Hm|Hm].
    - pose proof (proj1 (pi_U _ _ _ _ _ Hi)) as Hl. rewrite Hm in Hl.
      destruct (st_U st); [|discriminate]. unfold n, mcols.
      unfold m, mrows in Hm. destruct A; [reflexivity | discriminate].
    - apply (mcols_dims _ m); [apply (pi_U _ _ _ _ _ Hi) | lia]. }
  rewrite HUc in D2.
  apply (mequals_of _ _ m n); [exact D1 | exact D2 |].
  intros a b Ha Hbn.
  pose proof (wf_dims A Hw) as DA. fold m n in DA.
  rewrite (get_mult _ _ a b) by (try rewrite HpL; try rewrite (mcols_dims _ m n DA); lia).
  rewrite (get_mult _ _ a b) by (try rewrite HLl; try rewrite HUc; lia).
  rewrite (proj2 (dims_permutation _ m HPl) a Ha), (proj2 (pi_L _ _ _ _ _ Hi) a Ha).
  rewrite (rsum_single _ m (nth a (st_P st) 0%nat)).
  2: { apply (pi_Prange _ _ _ _ _ Hi). exact Ha. }
  2: { intros k Hk Hne. rewrite get_permutation by (rewrite HPl; lia). bdestr; try lia. lra. }
  rewrite get_permutation by (rewrite HPl; try apply (pi_Prange _ _ _ _ _ Hi); lia). rewrite Nat.eqb_refl.

  eapply Rle_trans; [|exact Ht].
  replace (1 * get A (nth a (st_P st) 0%nat) b - rsum (fun j => get (st_L st) a j * get (st_U st) j b) m)
    with (resid A m st a b) by (unfold resid, LU_sum; lra).
  auto.
Qed.

End PLUExact.


(** ** [solve(b, 0)] in exact arithmetic *)

Module SolveExact.
Import MatrixLemmas PLUInvariant ExactPLU PLUSteps RSumFacts PLUExact.
#[local] Existing Instance Exact.num.
Local Open Scope R_scope.

Lemma set_nth_set_nth {A} (l : list A) i x y : set_nth (set_nth l i x) i y = set_nth l i y.
Proof. revert i; induction l as [|a l IH]; intros [|i]; simpl; f_equal; auto. Qed.

Lemma set_nth_same {A} (l : list A) i d : set_nth l i (nth i l d) = l.
Proof. revert i; induction l as [|a l IH]; intros [|i]; simpl; f_equal; auto. Qed.

Lemma set_nth_overflow {A} (l : list A) i x : (length l <= i)%nat -> set_nth l i x = l.
Proof. revert i; induction l as [|a l IH]; intros [|i] Hi; simpl in *; try lia; f_equal; auto. apply IH; lia. Qed.

Lemma fsubst_inner (L : @mat R) (i k : nat) (y : list R) :
  (k <= i)%nat ->
  fold_left (fun y ii => set_nth y i (nth i y nzero -. get L i ii *. nth ii y nzero)) (seq 0 k) y =
  set_nth y i (nth i y 0 - rsum (fun ii => get L i ii * nth ii y 0) k).
Proof.
  induction k as [|k IH]; intros Hk.
  - simpl. rewrite Rminus_0_r. symmetry. apply set_nth_same.
  - rewrite seq_S, fold_left_app, IH by lia. simpl. rnum.
    rewrite set_nth_set_nth.
    destruct (Nat.ltb_spec i (length y)) as [Hi|Hi].
    + f_equal. rewrite nth_set_nth_eq by exact Hi. rewrite nth_set_nth_neq by lia. lra.
    + rewrite !set_nth_overflow by lia. reflexivity.
Qed.

(** After [forward_subst], [Pb = L·y] row by row, using only the strict
    lower triangle of [L] (the diagonal is [1]). *)
Lemma fsubst_outer (L : @mat R) (Pb : list R) m k :
  length Pb = m -> (k <= m - 1)%nat ->
  let y := fold_left (fun y i =>
               fold_left (fun y ii => set_nth y i (nth i y nzero -. get L i ii *. nth ii y nzero))
                         (seq 0 i) y)
            (seq 1 k) Pb in
  length y = m /\
  (forall j, (j <= k)%nat -> (j < m)%nat ->
     nth j Pb 0 = rsum (fun ii => get L j ii * nth ii y 0) j + nth j y 0) /\
  (forall j, (k < j)%nat -> nth j y 0 = nth j Pb 0).
Proof.
  intros Hl. induction k as [|k IH]; intros Hk; cbv zeta.
  - simpl. refine (conj Hl (conj _ _)); [|reflexivity].
    intros j Hj _. replace j with 0%nat by lia. simpl. lra.
  - rewrite seq_S, fold_left_app. cbn [fold_left].
    destruct (IH ltac:(lia)) as (Hl' & Heq & Hrest). cbv zeta in Hl', Heq, Hrest.
    set (y := fold_left _ (seq 1 k) Pb) in * .
    rewrite fsubst_inner by lia.
    set (v := nth (1 + k) y 0 - rsum (fun ii => get L (1 + k) ii * nth ii y 0) (1 + k)).
    assert (Hn : forall j, j <> (1 + k)%nat -> nth j (set_nth y (1 + k) v) 0 = nth j y 0)
      by (intros; apply nth_set_nth_neq; lia).
    split; [rewrite set_nth_length; exact Hl'|]. split.
    + intros j Hj Hjm. destruct (Nat.eq_dec j (1 + k)) as [->|Hne].
      * rewrite nth_set_nth_eq by lia.
        rewrite (rsum_ext _ (fun ii => get L (1 + k) ii * nth ii y 0)) by (intros; rewrite Hn by lia; reflexivity).
        unfold v. rewrite Hrest by lia. lra.
      * rewrite Hn by exact Hne. rewrite (Heq j) by lia. f_equal.
        apply rsum_ext. intros; rewrite Hn by lia; reflexivity.
    + intros j Hj. rewrite Hn by lia. apply Hrest. lia.
Qed.

Lemma rsum_shift f d : rsum f (S d) = f 0%nat + rsum (fun i => f (S i)) d.
Proof.
  induction d as [|d IH]; [simpl; lra|].
  change (rsum f (S (S d))) with (rsum f (S d) + f (S d)). rewrite IH. simpl. lra.
Qed.

Lemma rsum_sparse (f g : nat -> R) (cc : nat -> nat) n r :
  (forall p, (p < r)%nat -> (cc p < n)%nat) ->
  (forall p1 p2, (p1 < r)%nat -> (p2 < r)%nat -> cc p1 = cc p2 -> p1 = p2) ->
  (forall j, (j < n)%nat -> (forall p, (p < r)%nat -> j <> cc p) -> g j = 0) ->
  rsum (fun j => f j * g j) n = rsum (fun p => f (cc p) * g (cc p)) r.
Proof.
  intros Hcn Hinj Hz.
  rewrite (rsum_ext (fun p => f (cc p) * g (cc p))
                    (fun p => rsum (fun j => if (j =? cc p)%nat then f j * g j else 0) n) r).
  2: { intros p Hp. rewrite (rsum_single _ n (cc p)) by (auto; intros k Hk Hne; bdestr; first [lia | reflexivity]).
       rewrite Nat.eqb_refl. reflexivity. }
  rewrite rsum_swap. apply rsum_ext. intros j Hj.
  assert (Hdec : (exists p, (p < r)%nat /\ j = cc p) \/ ~ (exists p, (p < r)%nat /\ j = cc p)).
  { destruct (existsb (fun p => (j =? cc p)%nat) (seq 0 r)) eqn:Ee; [left | right].
    - apply existsb_exists in Ee as (p & Hp & He). apply in_seq in Hp. exists p. split; [lia|]. apply Nat.eqb_eq, He.
    - intros (p & Hp & He). assert (Hx : existsb (fun p => (j =? cc p)%nat) (seq 0 r) = true).
      { apply existsb_exists. exists p. split; [apply in_seq; lia | apply Nat.eqb_eq, He]. }
      congruence. }
  destruct Hdec as [(p & Hp & ->)|Hno].
  - rewrite (rsum_single _ r p Hp); [rewrite Nat.eqb_refl; reflexivity|].
    intros k Hk Hne. bdestr; [|reflexivity]. exfalso. apply Hne. apply Hinj; auto.
  - rewrite rsum_zero; [rewrite Hz; [lra | exact Hj |] |].
    + intros p Hp He. apply Hno. exists p. auto.
    + intros k Hk. bdestr; [|reflexivity]. exfalso. apply Hno. exists k. split; [exact Hk|]. assumption.
Qed.

Section BackSubst.
Variables (U : @mat R) (pivots : list (nat * nat)) (r n : nat) (y : list R).
Local Notation cc p := (snd (nth p pivots (0, 0)%nat)).
Hypothesis Hfst : forall p, (p < r)%nat -> fst (nth p pivots (0, 0)%nat) = p.
Hypothesis Hmono : forall p1 p2, (p1 < p2 < r)%nat -> (cc p1 < cc p2)%nat.
Hypothesis Hcn : forall p, (p < r)%nat -> (cc p < n)%nat.
Hypothesis Hpiv : forall p, (p < r)%nat -> get U p (cc p) <> 0.

Lemma cc_inj p1 p2 : (p1 < r)%nat -> (p2 < r)%nat -> cc p1 = cc p2 -> p1 = p2.
Proof.
  intros H1 H2 He. destruct (Nat.lt_total p1 p2) as [Hl|[Hl|Hl]]; auto.
  - pose proof (Hmono p1 p2 ltac:(lia)). lia.
  - pose proof (Hmono p2 p1 ltac:(lia)). lia.
Qed.

Lemma bsubst_inner row col (x : list R) s k :
  (col < length x)%nat -> (forall i, (i < k)%nat -> cc (s + i) <> col) ->
  fold_left (fun x pp => set_nth x col (nth col x nzero -. get U row (snd (nth pp pivots (0, 0)%nat)) *.
                                                       nth (snd (nth pp pivots (0, 0)%nat)) x nzero))
            (seq s k) x =
  set_nth x col (nth col x 0 - rsum (fun i => get U row (cc (s + i)) * nth (cc (s + i)) x 0) k).
Proof.
  intros Hc. induction k as [|k IH]; intros Hne.
  - simpl. rewrite Rminus_0_r. symmetry. apply set_nth_same.
  - rewrite seq_S, fold_left_app, IH by (intros; apply Hne; lia). cbn [fold_left]. rnum.
    rewrite set_nth_set_nth. f_equal.
    assert (Hk := Hne k ltac:(lia)).
    rewrite nth_set_nth_eq by exact Hc. rewrite nth_set_nth_neq by (intros E; apply Hk; symmetry; exact E). cbn [rsum]. lra.
Qed.

Lemma back_subst_bstep : back_subst U pivots r n y = fold_left (bstep U pivots r y) (rev (seq 0 r)) (vzero n).
Proof. reflexivity. Qed.

Lemma bsubst_inv q :
  (q <= r)%nat ->
  let x := fold_left (bstep U pivots r y) (rev (seq q (r - q))) (vzero n) in
  length x = n /\
  (forall j, (forall p, (q <= p < r)%nat -> j <> cc p) -> nth j x 0 = 0) /\
  (forall p, (q <= p < r)%nat ->
     get U p (cc p) * nth (cc p) x 0 +
     rsum (fun i => get U p (cc (S p + i)) * nth (cc (S p + i)) x 0) (r - S p) = nth p y 0).
Proof.
  remember (r - q)%nat as d eqn:Hd. revert q Hd. induction d as [|d IH]; intros q Hd Hq; cbv zeta.
  - simpl. unfold vzero. split; [apply repeat_length|]. split.
    + intros j _. destruct (Nat.lt_ge_cases j n); [rewrite nth_repeat_lt by assumption | rewrite nth_overflow by (rewrite repeat_length; lia)]; reflexivity.
    + intros p Hp. lia.
  - destruct (IH (S q) ltac:(lia) ltac:(lia)) as (Hl & Hz & He). cbv zeta in Hl, Hz, He.
    replace (seq q (S d)) with (q :: seq (S q) d) by reflexivity.
    replace (r - S q)%nat with d in * by lia.
    cbn [rev]. rewrite fold_left_app. cbn [fold_left].
    set (x := fold_left (bstep U pivots r y) (rev (seq (S q) d)) (vzero n)) in * .
    unfold bstep. rewrite (surjective_pairing (nth q pivots (0, 0)%nat)), Hfst by lia.
    assert (Hcq : (cc q < n)%nat) by (apply Hcn; lia).
    assert (Hne : forall i, (i < d)%nat -> cc (S q + i) <> cc q).
    { intros i Hi He'. pose proof (Hmono q (S q + i) ltac:(lia)). lia. }
    replace (r - S q)%nat with d by lia.
    rewrite bsubst_inner by (try rewrite set_nth_length; try lia; exact Hne).
    rewrite !set_nth_set_nth. cbn [ndiv nzero Exact.num].
    rewrite !nth_set_nth_eq by (rewrite ?set_nth_length; lia).
    set (S0 := rsum _ d).
    assert (HS0 : S0 = rsum (fun i => get U q (cc (S q + i)) * nth (cc (S q + i)) x 0) d).
    { apply rsum_ext. intros i Hi. rewrite nth_set_nth_neq by (apply not_eq_sym, Hne; lia). reflexivity. }
    set (v := (nth q y 0 - S0) / get U q (cc q)).
    assert (Hn : forall j, j <> cc q -> nth j (set_nth x (cc q) v) 0 = nth j x 0)
      by (intros; apply nth_set_nth_neq; lia).
    split; [rewrite set_nth_length; exact Hl|]. split.
    + intros j Hj. rewrite Hn by (apply Hj; lia). apply Hz. intros p Hp. apply Hj. lia.
    + intros p Hp. destruct (Nat.eq_dec p q) as [->|Hpq].
      * rewrite nth_set_nth_eq by lia. replace (r - S q)%nat with d by lia.
        rewrite (rsum_ext _ (fun i => get U q (cc (S q + i)) * nth (cc (S q + i)) x 0))
          by (intros i Hi; rewrite Hn by (apply Hne; lia); reflexivity).
        rewrite <- HS0. unfold v. field. apply Hpiv. lia.
      * rewrite Hn by (intros He'; apply cc_inj in He'; lia).
        rewrite (rsum_ext _ (fun i => get U p (cc (S p + i)) * nth (cc (S p + i)) x 0)).
        -- apply He. lia.
        -- intros i Hi. rewrite Hn by (intros He'; apply cc_inj in He'; lia). reflexivity.
Qed.

Lemma bsubst_rows k :
  (forall k j, (k < r)%nat -> (j < cc k)%nat -> get U k j = 0) -> (k < r)%nat ->
  rsum (fun j => get U k j * nth j (back_subst U pivots r n y) 0) n = nth k y 0.
Proof.
  intros Hleft Hk. rewrite back_subst_bstep.
  destruct (bsubst_inv 0 (Nat.le_0_l r)) as (Hl & Hz & He). cbv zeta in Hl, Hz, He.
  rewrite Nat.sub_0_r in Hl, Hz, He.
  rewrite (rsum_sparse _ _ (fun p => cc p) n r Hcn cc_inj).
  2: { intros j Hj Hj'. apply Hz. intros p Hp. apply Hj'. lia. }
  replace r with (k + S (r - S k))%nat at 1 by lia.
  rewrite rsum_split, rsum_zero, rsum_shift.
  2: { intros p Hp. rewrite Hleft by (try apply Hmono; lia). lra. }
  rewrite Nat.add_0_r. rewrite <- (He k) by lia.
  rewrite (rsum_ext (fun i => get U k (cc (k + S i)) * nth (cc (k + S i)) _ 0)
                    (fun i => get U k (cc (S k + i)) * nth (cc (S k + i)) _ 0))
    by (intros i Hi; replace (k + S i)%nat with (S k + i)%nat by lia; reflexivity).
  lra.
Qed.
End BackSubst.

Section Lower.
Variables (L : @mat R) (m : nat).
Hypothesis HL : forall a b, (a < m)%nat -> (b < m)%nat -> (a <= b)%nat -> get L a b = if (a =? b)%nat then 1 else 0.

Lemma lower_row_sum a (z : nat -> R) :
  (a < m)%nat -> rsum (fun k => get L a k * z k) m = rsum (fun k => get L a k * z k) a + z a.
Proof.
  intros Ha. replace m with (a + S (m - S a))%nat at 1 by lia.
  rewrite rsum_split, rsum_shift. cbv beta. rewrite Nat.add_0_r.
  rewrite (HL a a), Nat.eqb_refl by lia.
  rewrite (rsum_zero (fun i => get L a (a + S i) * z (a + S i)%nat)); [lra|]. intros k Hk. rewrite HL by lia. bdestr; first [lia | lra].
Qed.

Lemma lower_unique (d : nat -> R) :
  (forall a, (a < m)%nat -> rsum (fun k => get L a k * d k) m = 0) -> forall a, (a < m)%nat -> d a = 0.
Proof.
  intros H0 a. induction a as [a IH] using lt_wf_ind. intros Ha.
  specialize (H0 a Ha). rewrite lower_row_sum in H0 by exact Ha.
  rewrite rsum_zero in H0; [lra|]. intros k Hk. rewrite IH by lia. lra.
Qed.
End Lower.

Lemma perm_surj (P : list nat) m :
  length P = m -> (forall a, (a < m)%nat -> (nth a P 0%nat < m)%nat) ->
  (forall a b, (a < m)%nat -> (b < m)%nat -> nth a P 0%nat = nth b P 0%nat -> a = b) ->
  forall i, (i < m)%nat -> exists a, (a < m)%nat /\ nth a P 0%nat = i.
Proof.
  intros Hl Hr Hi i Him.
  assert (Hnd : NoDup P) by (apply (NoDup_nth P 0%nat); intros; apply Hi; lia).
  assert (Hincl : incl P (seq 0 m)).
  { intros x Hx. apply (In_nth _ _ 0%nat) in Hx as (a & Ha & <-). apply in_seq. specialize (Hr a). lia. }
  assert (Hlen : (length (seq 0 m) <= length P)%nat) by (rewrite length_seq; lia).
  pose proof (NoDup_length_incl Hnd Hlen Hincl) as Hinc.
  assert (Hin : In i P) by (apply Hinc, in_seq; lia).
  apply (In_nth _ _ 0%nat) in Hin as (a & Ha & He). exists a. split; [lia | exact He].
Qed.

Lemma nth_mapply (A : @mat R) (x : list R) i :
  wf A = true -> (i < mrows A)%nat ->
  nth i (mapply A x) 0 = rsum (fun b => get A i b * nth b x 0) (mcols A).
Proof.
  intros Hw Hi. unfold mapply. rewrite (nth_map_lt _ _ _ _ []) by exact Hi.
  rewrite vdot_sum. pose proof (proj2 (wf_dims A Hw) i Hi) as E. unfold vec, mat in * . rewrite E. reflexivity.
Qed.

Lemma length_mapply (A : @mat R) x : length (mapply A x) = mrows A.
Proof. apply length_map. Qed.

Lemma m_solve_fresh (A : @mat R) b eps :
  m_solve (fresh A) b eps =
  if negb (length b =? mrows A)%nat then Throw "Incompatible dimensions of matrix and vector"%string
  else Ok (solve_compute (PLU_compute A eps) (length (plu_pivots (PLU_compute A eps)))
                         (mrows A) (mcols A) b eps,
           snd (m_rank (snd (m_PLU (fresh A) eps)) eps)).
Proof. unfold m_solve. destruct (negb _); reflexivity. Qed.

Lemma ngtb0_true (x : R) : ngtb (nabs x) nzero = true -> x <> 0.
Proof.
  unfold ngtb. rnum. unfold Exact.ltb. destruct (Rlt_dec 0 (Rabs x)) as [H|H]; [|discriminate].
  intros _ ->. rewrite Rabs_R0 in H. lra.
Qed.

Lemma ngtb0_false (x : R) : ngtb (nabs x) nzero = false -> x = 0.
Proof.
  unfold ngtb. rnum. unfold Exact.ltb. destruct (Rlt_dec 0 (Rabs x)) as [H|H]; [discriminate|].
  intros _. pose proof (Rabs_pos x). destruct (Req_dec x 0) as [|Hne]; [assumption|].
  pose proof (Rabs_pos_lt x Hne). lra.
Qed.

Lemma rsum_mix (f : nat -> nat -> R) (g : nat -> R) m n :
  rsum (fun b => rsum (fun k => f k b) m * g b) n = rsum (fun k => rsum (fun b => f k b * g b) n) m.
Proof.
  rewrite <- rsum_swap. apply rsum_ext. intros b Hb.
  rewrite Rmult_comm, <- rsum_scal. apply rsum_ext. intros k Hk. lra.
Qed.

(** The final working variables of [PLU(0)] over the reals: [P·A = L·U]
    exactly, and the rows of [U] from [st_row] on are zero. *)
Lemma plu0_final (A : @mat R) :
  wf A = true ->
  exists c st, (c <= mcols A)%nat /\ plu_inv 0 (mrows A) (mcols A) c st /\
    PLU_compute A 0 = mkPLU (st_P st) (st_L st) (st_U st) (st_E st) (st_pivots st) (st_signP st) /\
    (forall a b, (a < mrows A)%nat -> (b < mcols A)%nat -> get A (nth a (st_P st) 0%nat) b = LU_sum (mrows A) st a b) /\
    (forall i j, (st_row st <= i < mrows A)%nat -> (j < mcols A)%nat -> get (st_U st) i j = 0).
Proof.
  intros Hw.
  destruct (PLU_compute_inv_ext 0 A (fun c st => exinv A 0 (mrows A) (mcols A) c st) Hw
              (fun c st Hi Hr Hc Hq => exinv_step A 0 _ _ c st (Rle_refl 0) Hi Hr Hc Hq)
              (exinv_init A 0 Hw (Rle_refl 0))) as (c & st & Hc & Hi & [Hb _] & Hend & Hpc).
  exists c, st. split; [exact Hc|]. split; [exact Hi|]. split; [exact Hpc|]. split.
  - intros a b Ha Hb'. specialize (Hb a b Ha Hb'). unfold resid in Hb.
    destruct (Req_dec (get A (nth a (st_P st) 0%nat) b - LU_sum (mrows A) st a b) 0) as [H0|H0]; [lra|].
    pose proof (Rabs_pos_lt _ H0). lra.
  - intros i j Hij Hj. destruct Hend as [Hr|Hcn]; [lia|].
    subst c. apply (pi_below _ _ _ _ _ Hi); lia.
Qed.

Lemma solve_exact (A : @mat R) (b : list R) :
  wf A = true -> length b = mrows A ->
  match m_solve (fresh A) b 0 with
  | Ok (Some x, _) => mapply A x = b
  | Ok (None, _) => ~ (exists x, mapply A x = b)
  | Throw _ => False
  end.
Proof.
  intros Hw Hb. rewrite m_solve_fresh, Hb, Nat.eqb_refl. cbn [negb].
  destruct (plu0_final A Hw) as (c & st & Hc & Hi & Hpc & HA & HUz).
  rewrite Hpc. cbn [plu_P plu_L plu_U plu_pivots].
  rewrite (length_pivots_inv _ _ _ _ _ Hi).
  set (m := mrows A) in * . set (n := mcols A) in * . set (r := st_row st) in * .
  unfold solve_compute. cbn [plu_P plu_L plu_U plu_pivots].
  set (Pb := map (fun i => nth (nth i (st_P st) 0%nat) b nzero) (seq 0 m)).
  assert (HPb : forall a, (a < m)%nat -> nth a Pb 0 = nth (nth a (st_P st) 0%nat) b 0).
  { intros a Ha. unfold Pb. rewrite (nth_map_lt _ _ _ _ 0%nat) by (rewrite length_seq; exact Ha).
    rewrite seq_nth by exact Ha. reflexivity. }
  assert (HPbl : length Pb = m) by (unfold Pb; rewrite length_map, length_seq; reflexivity).
  set (y := forward_subst (st_L st) m Pb).
  assert (HLid : forall a b, (a < m)%nat -> (b < m)%nat -> (a <= b)%nat ->
                   get (st_L st) a b = if (a =? b)%nat then 1 else 0)
    by (intros a0 b0 Ha0 Hb0 Hab; apply (pi_Lid _ _ _ _ _ Hi); lia).
  assert (Hy : forall a, (a < m)%nat -> rsum (fun k => get (st_L st) a k * nth k y 0) m = nth a Pb 0).
  { intros a Ha. destruct (fsubst_outer (st_L st) Pb m (m - 1) HPbl (le_n _)) as (_ & Heq & _).
    rewrite (lower_row_sum _ _ HLid a (fun k => nth k y 0) Ha). symmetry. apply Heq; lia. }
  assert (HAx : forall (x : list R) a, (a < m)%nat ->
            rsum (fun j => get A (nth a (st_P st) 0%nat) j * nth j x 0) n =
            rsum (fun k => get (st_L st) a k * rsum (fun j => get (st_U st) k j * nth j x 0) n) m).
  { intros x a Ha. rewrite (rsum_ext _ (fun j => rsum (fun k => get (st_L st) a k * get (st_U st) k j) m * nth j x 0))
      by (intros j Hj; rewrite HA by assumption; reflexivity).
    rewrite rsum_mix. apply rsum_ext. intros k Hk. rewrite <- rsum_scal. apply rsum_ext. intros j Hj. lra. }
  assert (HPr : forall a, (a < m)%nat -> (nth a (st_P st) 0%nat < m)%nat) by apply (pi_Prange _ _ _ _ _ Hi).
  destruct (existsb _ _) eqn:Eex.
  - intros (x & Hx).
    apply existsb_exists in Eex as (i & Hi' & Hgt). apply in_seq in Hi'.
    apply ngtb0_true in Hgt. apply Hgt.
    assert (Hd : forall k, (k < m)%nat -> rsum (fun j => get (st_U st) k j * nth j x 0) n - nth k y 0 = 0).
    { apply (lower_unique _ _ HLid). intros a Ha.
      rewrite (rsum_ext _ (fun k => get (st_L st) a k * rsum (fun j => get (st_U st) k j * nth j x 0) n -
                                   get (st_L st) a k * nth k y 0)) by (intros; lra).
      assert (Hs : forall f g n0, rsum (fun k => f k - g k) n0 = rsum f n0 - rsum g n0).
      { intros f g n0. induction n0 as [|n0 IH]; simpl; [lra|]. rewrite IH. lra. }
      rewrite Hs, <- HAx, Hy by exact Ha. rewrite HPb by exact Ha.
      rewrite <- (nth_mapply A x) by (try exact Hw; apply HPr; exact Ha). rewrite Hx. lra. }
    specialize (Hd i ltac:(lia)). rewrite rsum_zero in Hd; [rnum; lra|].
    intros j Hj. rewrite HUz by lia. lra.
  - assert (Hall : forall i, (r <= i < m)%nat -> nth i y 0 = 0).
    { intros i Hri. apply ngtb0_false. destruct (ngtb _ _) eqn:Eg; [|reflexivity].
      rewrite <- Eex. symmetry. apply existsb_exists. exists i. split; [apply in_seq; lia | exact Eg]. }
    set (x := back_subst (st_U st) (st_pivots st) r n y).
    assert (Hux : forall k, (k < m)%nat -> rsum (fun j => get (st_U st) k j * nth j x 0) n = nth k y 0).
    { intros k Hk. destruct (Nat.lt_ge_cases k r) as [Hkr|Hkr].
      - apply bsubst_rows; try assumption.
        + intros p Hp. rewrite <- (map_nth fst (st_pivots st) (0, 0)%nat p).
          rewrite (pi_fst _ _ _ _ _ Hi). apply seq_nth. exact Hp.
        + intros p1 p2 Hp. apply (pi_mono _ _ _ _ _ Hi). exact Hp.
        + intros p Hp. pose proof (pi_lt _ _ _ _ _ Hi p Hp). lia.
        + intros p Hp. apply ngtb0_true. apply (pi_piv _ _ _ _ _ Hi). exact Hp.
        + intros k0 j Hk0 Hj. apply (pi_left _ _ _ _ _ Hi); assumption.
      - rewrite rsum_zero.
        + symmetry. apply Hall. lia.
        + intros j Hj. rewrite HUz by lia. lra. }
    apply (nth_ext _ _ 0 0); [rewrite length_mapply; lia|].
    intros i Hil. rewrite length_mapply in Hil.
    destruct (perm_surj (st_P st) m (pi_Plen _ _ _ _ _ Hi) HPr (pi_Pinj _ _ _ _ _ Hi) i Hil) as (a & Ha & <-).
    rewrite (nth_mapply A x) by (try exact Hw; apply HPr; exact Ha).
    rewrite HAx by exact Ha.
    rewrite (rsum_ext _ (fun k => get (st_L st) a k * nth k y 0)) by (intros k Hk; rewrite Hux by exact Hk; reflexivity).
    rewrite Hy, HPb by exact Ha. reflexivity.
Qed.

End SolveExact.

(** ** [inverse(0)] in exact arithmetic *)

Module InverseExact.
Import MatrixLemmas PLUInvariant ExactPLU PLUSteps RSumFacts PLUExact SolveExact EchelonStructure.
#[local] Existing Instance Exact.num.
Local Open Scope R_scope.

Lemma swap_idx_invol row r a : swap_idx row r (swap_idx row r a) = a.
Proof.
  unfold swap_idx. destruct (Nat.eqb_spec a row) as [->|H1].
  - destruct (Nat.eqb_spec r row) as [->|H3]; [reflexivity|]. rewrite Nat.eqb_refl. reflexivity.
  - destruct (Nat.eqb_spec a r) as [->|H2].
    + rewrite Nat.eqb_refl. reflexivity.
    + rewrite (proj2 (Nat.eqb_neq _ _) H1), (proj2 (Nat.eqb_neq _ _) H2). reflexivity.
Qed.

Lemma rsum_lin (f g x : nat -> R) c n :
  rsum (fun k => (f k + c * g k) * x k) n = rsum (fun k => f k * x k) n + c * rsum (fun k => g k * x k) n.
Proof. rewrite <- rsum_scal, <- rsum_plus. apply rsum_ext. intros. lra. Qed.

Lemma einj_identity m : einj m (identity m 1).
Proof.
  intros x Hx k Hk. specialize (Hx k Hk).
  rewrite (rsum_single _ m k Hk) in Hx.
  - rewrite get_identity, Nat.eqb_refl in Hx by lia. rnum. lra.
  - intros j Hj Hne. rewrite get_identity by lia. bdestr; [lia|]. rnum. lra.
Qed.

Lemma eainv_init (A : @mat R) : wf A = true -> eainv A (mrows A) (mcols A) (identity (mrows A) 1) A.
Proof.
  intros Hw a b Ha Hb. rewrite (rsum_single _ _ a Ha).
  - rewrite get_identity, Nat.eqb_refl by lia. rnum. lra.
  - intros j Hj Hne. rewrite get_identity by lia. bdestr; [lia|]. rnum. lra.
Qed.

Lemma eainv_step (A : @mat R) m n c st :
  plu_inv 0 m n c st -> (st_row st < m)%nat -> (c < n)%nat ->
  eainv A m n (st_E st) (st_U st) /\ einj m (st_E st) ->
  eainv A m n (st_E (plu_step 0 m c st)) (st_U (plu_step 0 m c st)) /\ einj m (st_E (plu_step 0 m c st)).
Proof.
  intros Hi Hr Hc [Hea Hinj].
  destruct (find_pivot (st_U st) m (st_row st) c) as [p row] eqn:Efp.
  destruct (plu_step_spec 0 m n c st p row Hi Hr Hc Efp) as (Hrow & Hp & Hpiv & Hnp).
  pose proof (find_pivot_max _ _ _ _ _ _ Efp) as Hmax.
  set (r := st_row st) in * . set (st' := plu_step 0 m c st) in * .
  pose proof (pi_E _ _ _ _ _ Hi) as HE.
  destruct (ngtb (nabs p) 0) eqn:Hg.
  - destruct (Hpiv eq_refl) as (_ & _ & GU & GE).
    apply ngtb0_true in Hg.
    assert (Hsw : forall a, (a < m)%nat -> (swap_idx row r a < m)%nat) by (intros; apply swap_idx_lt; lia).
    assert (HE' : forall a (x : nat -> R), (a < m)%nat ->
              rsum (fun k => get (st_E st') a k * x k) m =
              rsum (fun k => get (st_E st) (swap_idx row r a) k * x k) m +
              (if ((S r <=? a) && (a <? m))%nat then - (get (st_U st) (swap_idx row r a) c / p) else 0) *
              rsum (fun k => get (st_E st) row k * x k) m).
    { intros a x Ha. rewrite <- rsum_lin. apply rsum_ext. intros k Hk. rewrite GE by exact Hk.
      destruct ((S r <=? a) && (a <? m))%nat; rnum; lra. }
    split.
    + intros a b Ha Hb. rewrite HE' by exact Ha. rewrite !Hea by (try apply Hsw; lia). rewrite GU by exact Hb.
      destruct ((S r <=? a) && (a <? m))%nat; [|rnum; lra].
      destruct (Nat.eqb_spec b c) as [->|Hbc].
      * rewrite <- Hp. rnum. field. exact Hg.
      * destruct (Nat.leb_spec (S c) b); [rnum; lra|].
        rewrite (pi_below _ _ _ _ _ Hi row b) by (fold r; lia). rnum. lra.
    + intros x Hx.
      assert (Hrow0 : rsum (fun k => get (st_E st) row k * x k) m = 0).
      { specialize (Hx r ltac:(lia)). rewrite HE' in Hx by lia.
        rewrite swap_idx_r in Hx. replace ((S r <=? r) && (r <? m))%nat with false in Hx by (bdestr; first [reflexivity | lia]).
        lra. }
      apply Hinj. intros i Hi'.
      specialize (Hx (swap_idx row r i) (Hsw i Hi')). rewrite HE' in Hx by (apply Hsw; lia).
      rewrite swap_idx_invol, Hrow0 in Hx. lra.
  - destruct (Hnp eq_refl) as (_ & _ & GE & GU).
    assert (Hpe : Rabs p <= 0).
    { unfold ngtb in Hg. rnum. unfold Exact.ltb in Hg. destruct (Rlt_dec 0 (Rabs p)); [discriminate|lra]. }
    destruct (clear_col_spec (st_U st) m n r c (pi_U _ _ _ _ _ Hi) Hc ltac:(lia)) as [_ HG].
    rewrite GE, GU. split; [|exact Hinj].
    intros a b Ha Hb. rewrite HG, Hea by assumption. rewrite (proj2 (Nat.ltb_lt a m) Ha).
    destruct (Nat.leb_spec r a); destruct (Nat.eqb_spec b c); simpl; try reflexivity.
    subst b. pose proof (Hmax a ltac:(lia)). pose proof (Rabs_pos (get (st_U st) a c)).
    destruct (Req_dec (get (st_U st) a c) 0) as [Hz|Hz]; [rewrite Hz; reflexivity|].
    pose proof (Rabs_pos_lt _ Hz). lra.
Qed.

Lemma rsum_scal_r (f x : nat -> R) c n :
  rsum (fun k => f k * c * x k) n = rsum (fun k => f k * x k) n * c.
Proof. rewrite Rmult_comm, <- rsum_scal. apply rsum_ext. intros. lra. Qed.

Section RrefOps.
Variables (A : @mat R) (m n r : nat) (c : nat -> nat).
Hypothesis Hrm : (r <= m)%nat.
Hypothesis Hcn : forall k, (k < r)%nat -> (c k < n)%nat.
Hypothesis Hmono : forall k1 k2, (k1 < k2 < r)%nat -> (c k1 < c k2)%nat.

Lemma rref_fold_ops t Rm Ops :
  (t <= r)%nat -> dims Rm m n -> dims Ops m m ->
  eainv A m n Ops Rm -> einj m Ops ->
  (forall k, (k < t)%nat -> get Rm k (c k) <> 0) ->
  (forall k j, (k < t)%nat -> (j < c k)%nat -> get Rm k j = 0) ->
  let RO := fold_left rref_pivot (map (fun k => (k, c k)) (rev (seq 0 t))) (Rm, Ops) in
  dims (snd RO) m m /\ eainv A m n (snd RO) (fst RO) /\ einj m (snd RO).
Proof.
  revert Rm Ops. induction t as [|t IH]; intros Rm Ops Ht HR HO Hea Hinj Hp Hl; cbv zeta.
  - simpl. split; [|split]; assumption.
  - rewrite seq_S, rev_app_distr. cbn [rev map fold_left app Nat.add].
    destruct (rref_pivot (Rm, Ops) (t, c t)) as [R2 O2] eqn:Ep.
    assert (Hct : (c t < n)%nat) by (apply Hcn; lia).
    destruct (rref_pivot_spec Rm Ops m n m t (c t) R2 O2 HR HO ltac:(lia) Hct Ep)
      as (HR2 & HO2 & GR & GO).
    set (p := get Rm t (c t)) in * .
    assert (Hpt : p <> 0) by (apply Hp; lia).
    assert (HO' : forall a (x : nat -> R), rsum (fun k => get O2 a k * x k) m =
              if (a <? t)%nat then rsum (fun k => get Ops a k * x k) m + (- get Rm a (c t) / p) * rsum (fun k => get Ops t k * x k) m
              else if (a =? t)%nat then rsum (fun k => get Ops t k * x k) m * (1 / p)
              else rsum (fun k => get Ops a k * x k) m).
    { intros a x. destruct (Nat.ltb_spec a t); [|destruct (Nat.eqb_spec a t)].
      - rewrite <- rsum_lin. apply rsum_ext. intros k Hk. rewrite GO by exact Hk.
        bdestr; try lia. rnum. lra.
      - subst a. rewrite <- rsum_scal_r. apply rsum_ext. intros k Hk. rewrite GO by exact Hk.
        bdestr; try lia. rnum. lra.
      - apply rsum_ext. intros k Hk. rewrite GO by exact Hk. bdestr; try lia. reflexivity. }
    apply IH; try assumption; [lia | | | |].
    + intros a b Ha Hb. rewrite HO', GR by exact Hb.
      destruct (Nat.ltb_spec a t); [|destruct (Nat.eqb_spec a t)].
      * rewrite !Hea by lia. destruct (Nat.eqb_spec b (c t)) as [->|Hbc]; rnum; fold p; [field; exact Hpt|].
        destruct (Nat.leb_spec (S (c t)) b); [rnum; lra|].
        rewrite (Hl t b) by lia. lra.
      * subst a. rewrite !Hea by lia. destruct (Nat.eqb_spec b (c t)) as [->|Hbc]; rnum; fold p; [field; exact Hpt|].
        destruct (Nat.leb_spec (S (c t)) b); [rnum; lra|].
        rewrite (Hl t b) by lia. lra.
      * apply Hea; assumption.
    + intros x Hx.
      assert (Ht0 : rsum (fun k => get Ops t k * x k) m = 0).
      { specialize (Hx t ltac:(lia)). rewrite HO', Nat.ltb_irrefl, Nat.eqb_refl in Hx.
        apply Rmult_integral in Hx as [Hx|Hx]; [exact Hx|].
        exfalso. unfold Rdiv in Hx. rewrite Rmult_1_l in Hx. apply (Rinv_neq_0_compat p Hpt). exact Hx. }
      apply Hinj. intros a Ha. specialize (Hx a Ha). rewrite HO' in Hx.
      destruct (Nat.ltb_spec a t); [|destruct (Nat.eqb_spec a t)].
      * rewrite Ht0 in Hx. lra.
      * subst a. exact Ht0.
      * exact Hx.
    + intros k Hk. assert (c k < c t)%nat by (apply Hmono; lia).
      rewrite GR by lia. bdestr; try lia. apply Hp; lia.
    + intros k j Hk Hj. assert (c k < c t)%nat by (apply Hmono; lia).
      rewrite GR by lia. bdestr; try lia. apply Hl; lia.
Qed.

End RrefOps.

Lemma plu0_ops (A : @mat R) :
  wf A = true ->
  exists c st, (c <= mcols A)%nat /\ plu_inv 0 (mrows A) (mcols A) c st /\
    (st_row st = mrows A \/ c = mcols A) /\
    PLU_compute A 0 = mkPLU (st_P st) (st_L st) (st_U st) (st_E st) (st_pivots st) (st_signP st) /\
    eainv A (mrows A) (mcols A) (st_E st) (st_U st) /\ einj (mrows A) (st_E st).
Proof.
  intros Hw.
  destruct (PLU_compute_inv_ext 0 A (fun c st => eainv A (mrows A) (mcols A) (st_E st) (st_U st) /\ einj (mrows A) (st_E st)) Hw
              (fun c st Hi Hr Hc Hq => eainv_step A _ _ c st Hi Hr Hc Hq)
              (conj (eainv_init A Hw) (einj_identity (mrows A)))) as (c & st & Hc & Hi & [Hea Hinj] & Hend & Hpc).
  exists c, st. exact (conj Hc (conj Hi (conj Hend (conj Hpc (conj Hea Hinj))))).
Qed.

Lemma rref_ops_final (A : @mat R) c st :
  (c <= mcols A)%nat -> plu_inv 0 (mrows A) (mcols A) c st ->
  eainv A (mrows A) (mcols A) (st_E st) (st_U st) -> einj (mrows A) (st_E st) ->
  let RO := rref_compute (mkPLU (st_P st) (st_L st) (st_U st) (st_E st) (st_pivots st) (st_signP st)) in
  dims (snd RO) (mrows A) (mrows A) /\ eainv A (mrows A) (mcols A) (snd RO) (fst RO) /\ einj (mrows A) (snd RO).
Proof.
  intros Hcn Hi Hea Hinj. cbv zeta. unfold rref_compute. cbn [plu_pivots plu_U plu_E].
  replace (rev (st_pivots st)) with (map (fun k => (k, snd (nth k (st_pivots st) (0%nat, 0%nat)))) (rev (seq 0 (st_row st))))
    by (rewrite map_rev, <- (pivots_as_map _ _ (pi_fst _ _ _ _ _ Hi)); reflexivity).
  apply (rref_fold_ops A (mrows A) (mcols A) (st_row st)); try assumption.
  - exact (pi_row _ _ _ _ _ Hi).
  - intros k Hk. pose proof (pi_lt _ _ _ _ _ Hi k Hk). pose proof (pi_rowcol _ _ _ _ _ Hi). lia.
  - exact (pi_mono _ _ _ _ _ Hi).
  - lia.
  - exact (pi_U _ _ _ _ _ Hi).
  - exact (pi_E _ _ _ _ _ Hi).
  - intros k Hk. apply ngtb0_true. exact (pi_piv _ _ _ _ _ Hi k Hk).
  - exact (pi_left _ _ _ _ _ Hi).
Qed.

Lemma m_inverse_fresh (A : @mat R) eps :
  let d := PLU_compute A eps in
  match m_inverse (fresh A) eps with
  | Ok (Some E, _) => isSquare A = true /\ length (plu_pivots d) = mrows A /\ E = snd (rref_compute d)
  | Ok (None, _) => False
  | Throw _ => isSquare A = false \/ length (plu_pivots d) <> mrows A
  end.
Proof.
  cbv zeta. unfold m_inverse. cbn [fresh entries].
  destruct (isSquare A) eqn:Hsq; cbn [negb]; [|left; reflexivity].
  unfold m_rowOps, m_rref, m_PLU, m_isInvertible, m_isFullRowRank, m_isFullColRank, m_rank, m_pivots.
  cbn [fresh entries ocache empty_cache c_rowOps c_rref c_PLU c_rank].
  remember (PLU_compute A eps) as d eqn:Ed.
  destruct (rref_compute d) as [Rf Of] eqn:Er.
  unfold isSquare in Hsq. apply Nat.eqb_eq in Hsq. unfold mrows in * .
  simpl. rewrite <- Hsq, Nat.ltb_irrefl. simpl.
  destruct (Nat.eqb_spec (length (plu_pivots d)) (length A)) as [He|He]; simpl.
  - rewrite Hsq, Nat.ltb_irrefl, He, Hsq, Nat.eqb_refl. simpl. simpl.
    split; [reflexivity|]. split; [lia|]. reflexivity.
  - right. exact He.
Qed.

Lemma mono_gap (c : nat -> nat) r :
  (forall k1 k2, (k1 < k2 < r)%nat -> (c k1 < c k2)%nat) ->
  forall d k1, (k1 + d < r)%nat -> (c k1 + d <= c (k1 + d))%nat.
Proof.
  intros Hm d. induction d as [|d IH]; intros k1 Hk; [rewrite !Nat.add_0_r; lia|].
  specialize (IH k1 ltac:(lia)). pose proof (Hm (k1 + d)%nat (S (k1 + d)) ltac:(lia)). replace (k1 + S d)%nat with (S (k1 + d)) by lia. lia.
Qed.

Lemma mono_full (c : nat -> nat) r :
  (forall k1 k2, (k1 < k2 < r)%nat -> (c k1 < c k2)%nat) ->
  (forall k, (k < r)%nat -> (c k < r)%nat) ->
  forall k, (k < r)%nat -> c k = k.
Proof.
  intros Hm Hc k Hk.
  assert (H1 := mono_gap c r Hm k 0%nat). assert (H2 := mono_gap c r Hm (r - 1 - k) k).
  cbn [Nat.add] in H1. replace (k + (r - 1 - k))%nat with (r - 1)%nat in H2 by lia.
  specialize (H1 ltac:(lia)). specialize (H2 ltac:(lia)).
  pose proof (Hc (r - 1)%nat ltac:(lia)). lia.
Qed.

Lemma gap_exists (c : nat -> nat) r n :
  (r < n)%nat ->
  (forall k1 k2, (k1 < k2 < r)%nat -> (c k1 < c k2)%nat) ->
  (forall k, (k < r)%nat -> (c k < n)%nat) ->
  exists j0, (j0 < n)%nat /\ forall k, (k < r)%nat -> c k <> j0.
Proof.
  intros Hrn Hm Hc.
  assert (G : forall d t, (t + d = r)%nat -> (forall k, (k < t)%nat -> c k = k) ->
            exists j0, (j0 < n)%nat /\ forall k, (k < r)%nat -> c k <> j0).
  { induction d as [|d IH]; intros t Ht Hid.
    - exists r. split; [lia|]. intros k Hk. rewrite Hid by lia. lia.
    - destruct (Nat.eq_dec (c t) t) as [Heq|Hne].
      + apply (IH (S t)); [lia|]. intros k Hk. destruct (Nat.eq_dec k t) as [->|]; [exact Heq|]. apply Hid; lia.
      + assert (Hge : (t <= c t)%nat) by (assert (H0 := mono_gap c r Hm t 0%nat); cbn [Nat.add] in H0; specialize (H0 ltac:(lia)); lia).
        exists t. split; [pose proof (Hc t ltac:(lia)); lia|].
        intros k Hk. destruct (Nat.lt_trichotomy k t) as [Hkt|[->|Hkt]].
        * rewrite Hid by lia. lia.
        * exact Hne.
        * pose proof (Hm t k ltac:(lia)). lia. }
  apply (G r 0%nat); [lia|]. intros; lia.
Qed.

Lemma rsum_len (f : nat -> R) l m :
  (forall k, (l <= k)%nat -> f k = 0) -> (forall k, (m <= k)%nat -> f k = 0) -> rsum f l = rsum f m.
Proof.
  intros Hl Hm. destruct (Nat.le_ge_cases l m) as [H|H].
  - replace m with (l + (m - l))%nat by lia. rewrite rsum_split, (rsum_zero (fun k => f (l + k)%nat)); [lra|].
    intros; apply Hl; lia.
  - replace l with (m + (l - m))%nat by lia. rewrite rsum_split, (rsum_zero (fun k => f (m + k)%nat)); [lra|].
    intros; apply Hm; lia.
Qed.

Lemma mequals_get0 (X Y : @mat R) a b :
  mequals X Y 0 = true -> (a < length X)%nat -> (b < length (nth a X []))%nat -> get X a b = get Y a b.
Proof.
  intros He Ha Hb. unfold mequals in He. apply andb_prop in He as [_ He].
  rewrite forallb_forall in He. rewrite (enumerate_seq _ []) in He.
  assert (Hin : In (a, nth a X []) (map (fun i => (i, nth i X [])) (seq 0 (length X))))
    by (apply in_map_iff; exists a; split; [reflexivity | apply in_seq; lia]).
  specialize (He _ Hin).
  unfold vequals in He. apply andb_prop in He as [_ He].
  rewrite forallb_forall, (enumerate_seq _ 0) in He.
  assert (Hin2 : In (b, nth b (nth a X []) 0) (map (fun i => (i, nth i (nth a X []) 0)) (seq 0 (length (nth a X [])))))
    by (apply in_map_iff; exists b; split; [reflexivity | apply in_seq; lia]).
  specialize (He _ Hin2).
  apply negb_true_iff in He. unfold ngtb in He. rnum. unfold Exact.ltb in He.
  destruct (Rlt_dec 0 (Rabs (nth b (nth a X []) 0 - nth b (nth a Y []) 0))) as [_|Hn]; [discriminate|].
  unfold get. rnum. destruct (Req_dec (nth b (nth a X []) 0 - nth b (nth a Y []) 0) 0) as [Hz|Hz]; [lra|].
  pose proof (Rabs_pos_lt _ Hz). lra.
Qed.

Lemma rsum_minus (f g : nat -> R) n : rsum (fun k => f k - g k) n = rsum f n - rsum g n.
Proof. induction n as [|n IH]; simpl; [lra|]. rewrite IH. lra. Qed.

Lemma rsum_delta_l (f : nat -> R) n i :
  (i < n)%nat -> rsum (fun k => (if (i =? k)%nat then 1 else 0) * f k) n = f i.
Proof.
  intros Hi. rewrite (rsum_single _ n i Hi); [rewrite Nat.eqb_refl; lra|].
  intros k Hk Hne. destruct (Nat.eqb_spec i k); [lia|lra].
Qed.

Lemma rsum_delta_r (f : nat -> R) n b :
  (b < n)%nat -> rsum (fun k => f k * (if (k =? b)%nat then 1 else 0)) n = f b.
Proof.
  intros Hb. rewrite (rsum_single _ n b Hb); [rewrite Nat.eqb_refl; lra|].
  intros k Hk Hne. destruct (Nat.eqb_spec k b); [lia|lra].
Qed.

Lemma inv_full_rank (A Of Rf : @mat R) m tol :
  wf A = true -> mrows A = m -> mcols A = m -> dims Of m m ->
  eainv A m m Of Rf -> einj m Of ->
  (forall a b, (a < m)%nat -> (b < m)%nat -> get Rf a b = if (a =? b)%nat then 1 else 0) ->
  0 <= tol ->
  mequals (mult Of A) (identity m 1) tol = true /\ mequals (mult A Of) (identity m 1) tol = true.
Proof.
  intros Hw Hr Hc HO Hea Hinj Hid Ht.
  pose proof (wf_dims A Hw) as HA. rewrite Hr, Hc in HA.
  destruct (Nat.eq_dec m 0) as [->|Hm].
  - destruct A as [|? ?]; [|discriminate]. destruct Of as [|? ?]; [|destruct HO as [HO _]; discriminate].
    split; reflexivity.
  - assert (HOc : mcols Of = m) by (apply (mcols_dims _ m); [exact HO | lia]).
    assert (EA : forall a b, (a < m)%nat -> (b < m)%nat -> get (mult Of A) a b = if (a =? b)%nat then 1 else 0).
    { intros a b Ha Hb. destruct HO as [HOl HOr].
      rewrite get_mult by (unfold mcols in *; lia). rewrite HOr by exact Ha.
      rewrite (Hea a b Ha Hb). apply Hid; assumption. }
    assert (AE : forall a b, (a < m)%nat -> (b < m)%nat -> get (mult A Of) a b = if (a =? b)%nat then 1 else 0).
    { intros a b Ha Hb. destruct HA as [HAl HAr].
      rewrite get_mult by lia. rewrite HAr by exact Ha.
      assert (Hx := Hinj (fun a => rsum (fun j => get A a j * get Of j b) m - (if (a =? b)%nat then 1 else 0))).
      cbv beta in Hx. apply Rminus_diag_uniq, Hx; [|exact Ha].
      intros i Hi.
      transitivity (rsum (fun a => rsum (fun j => get Of i a * get A a j * get Of j b) m) m
                    - rsum (fun a => get Of i a * (if (a =? b)%nat then 1 else 0)) m).
      { rewrite <- rsum_minus. apply rsum_ext. intros a' _.
        rewrite Rmult_minus_distr_l, <- rsum_scal. f_equal. apply rsum_ext. intros. lra. }
      rewrite rsum_swap, rsum_delta_r by exact Hb.
      transitivity (rsum (fun j => (if (i =? j)%nat then 1 else 0) * get Of j b) m - get Of i b); [|rewrite rsum_delta_l by exact Hi; lra].
      f_equal. apply rsum_ext. intros j Hj. rewrite <- Hid, <- (Hea i j) by assumption.
      rewrite <- rsum_scal_r. apply rsum_ext. intros. lra. }
    split; apply (mequals_of _ _ m m); try apply dims_identity.
    + apply (dims_mult _ _ m m m); [exact HO | exact HA | lia].
    + intros a b Ha Hb. rewrite EA, get_identity by assumption. bdestr; rnum; rewrite Rminus_diag, Rabs_R0; exact Ht.
    + apply (dims_mult _ _ m m m); [exact HA | exact HO | lia].
    + intros a b Ha Hb. rewrite AE, get_identity by assumption. bdestr; rnum; rewrite Rminus_diag, Rabs_R0; exact Ht.
Qed.

Lemma not_invertible_of_kernel (A : @mat R) (x : nat -> R) m j0 :
  wf A = true -> mrows A = m -> mcols A = m -> (j0 < m)%nat -> x j0 <> 0 ->
  (forall a, (a < m)%nat -> rsum (fun b => get A a b * x b) m = 0) ->
  ~ invertible A.
Proof.
  intros Hw Hr Hc Hj Hx Hk [B [HBA _]].
  pose proof (wf_dims A Hw) as [HAl HAr]. rewrite Hr, Hc in HAr.
  assert (HlB : length B = m).
  { unfold mequals in HBA. apply andb_prop in HBA as [HBA _]. apply andb_prop in HBA as [HBA _].
    apply Nat.eqb_eq in HBA. unfold mult, identity in HBA. unfold mrows in HBA, Hr. rewrite !length_map, !length_seq, Hr in HBA. exact HBA. }
  assert (Hrow : forall b, (b < m)%nat ->
            rsum (fun j => get B j0 j * get A j b) m = if (j0 =? b)%nat then 1 else 0).
  { intros b Hb. pose proof (mequals_get0 _ _ j0 b HBA) as He.
    assert (Hl1 : (j0 < length (mult B A))%nat) by (unfold mult; rewrite length_map; mlia).
    assert (Hl2 : (b < length (nth j0 (mult B A) []))%nat).
    { unfold mult. rewrite (nth_map_lt _ _ _ _ []) by mlia. rewrite length_map, length_seq, Hc. exact Hb. }
    specialize (He Hl1 Hl2).
    rewrite get_identity in He by lia. rewrite get_mult in He by (try lia; rewrite Hc; exact Hb).
    rnum. rewrite <- He. symmetry. apply rsum_len.
    - intros k Hk'. unfold get at 1. rewrite nth_overflow by lia. simpl. lra.
    - intros k Hk'. unfold get at 2. rewrite (nth_overflow A) by lia. simpl. destruct b; lra. }
  apply Hx.
  transitivity (rsum (fun b => (if (j0 =? b)%nat then 1 else 0) * x b) m); [rewrite rsum_delta_l by exact Hj; reflexivity|].
  transitivity (rsum (fun b => rsum (fun j => get B j0 j * get A j b * x b) m) m).
  { apply rsum_ext. intros b Hb. rewrite <- Hrow by exact Hb. rewrite Rmult_comm, <- rsum_scal.
    apply rsum_ext. intros. lra. }
  rewrite <- rsum_swap. apply rsum_zero. intros j Hjm.
  transitivity (get B j0 j * rsum (fun b => get A j b * x b) m); [rewrite <- rsum_scal; apply rsum_ext; intros; lra|].
  rewrite Hk by exact Hjm. lra.
Qed.

Section Kernel.
Variables (A Of Rf : @mat R) (m n r : nat) (ck : nat -> nat).
Hypothesis Hea : eainv A m n Of Rf.
Hypothesis Hinj : einj m Of.
Hypothesis Hrn : (r < n)%nat.
Hypothesis Hrm : (r <= m)%nat.
Hypothesis Hck : forall k, (k < r)%nat -> (ck k < n)%nat.
Hypothesis Hmono : forall k1 k2, (k1 < k2 < r)%nat -> (ck k1 < ck k2)%nat.
Hypothesis Hleft : forall k j, (k < r)%nat -> (j < ck k)%nat -> get Rf k j = 0.
Hypothesis Hpiv : forall k, (k < r)%nat -> get Rf k (ck k) = 1.
Hypothesis Hbelow : forall i j, (r <= i < m)%nat -> (j < n)%nat -> get Rf i j = 0.
Hypothesis Habove : forall k i, (k < r)%nat -> (i < k)%nat -> get Rf i (ck k) = 0.

Lemma rf_pivot_col i k : (i < r)%nat -> (k < r)%nat -> get Rf i (ck k) = if (i =? k)%nat then 1 else 0.
Proof.
  intros Hi Hk. destruct (Nat.lt_trichotomy i k) as [H|[->|H]].
  - rewrite Habove by assumption. bdestr; [lia | reflexivity].
  - rewrite Nat.eqb_refl. apply Hpiv; exact Hk.
  - assert (ck k < ck i)%nat by (apply Hmono; lia). rewrite Hleft by assumption. bdestr; [lia | reflexivity].
Qed.

Lemma rref_kernel :
  exists (x : nat -> R) j0, (j0 < n)%nat /\ x j0 = 1 /\
    forall a, (a < m)%nat -> rsum (fun b => get A a b * x b) n = 0.
Proof.
  destruct (gap_exists ck r n Hrn Hmono Hck) as (j0 & Hj0 & Hfree).
  set (x := fun b => (if (b =? j0)%nat then 1 else 0) - rsum (fun k => if (b =? ck k)%nat then get Rf k j0 else 0) r).
  exists x, j0. split; [exact Hj0|]. split.
  { unfold x. rewrite Nat.eqb_refl, rsum_zero; [lra|]. intros k Hk.
    destruct (Nat.eqb_spec j0 (ck k)) as [E|]; [exfalso; apply (Hfree k Hk); symmetry; exact E | reflexivity]. }
  assert (HR : forall i, (i < m)%nat -> rsum (fun b => get Rf i b * x b) n = 0).
  { intros i Hi. destruct (Nat.lt_ge_cases i r) as [Hir|Hir].
    - unfold x. transitivity (rsum (fun b => get Rf i b * (if (b =? j0)%nat then 1 else 0)) n
                  - rsum (fun b => rsum (fun k => get Rf i b * (if (b =? ck k)%nat then get Rf k j0 else 0)) r) n).
      { rewrite <- rsum_minus. apply rsum_ext. intros b _. rewrite Rmult_minus_distr_l, <- rsum_scal. reflexivity. }
      rewrite rsum_delta_r by exact Hj0. rewrite rsum_swap.
      transitivity (get Rf i j0 - rsum (fun k => (if (i =? k)%nat then 1 else 0) * get Rf k j0) r); [|rewrite rsum_delta_l by exact Hir; lra].
      f_equal. apply rsum_ext. intros k Hk.
      rewrite (rsum_single _ n (ck k) (Hck k Hk)).
      + rewrite Nat.eqb_refl, rf_pivot_col by assumption. reflexivity.
      + intros b Hb Hne. destruct (Nat.eqb_spec b (ck k)); [lia | lra].
    - apply rsum_zero. intros b Hb. rewrite Hbelow by lia. lra. }
  assert (Hy := Hinj (fun a => rsum (fun b => get A a b * x b) n)). cbv beta in Hy.
  intros a Ha. apply Hy; [|exact Ha]. intros i Hi.
  rewrite <- (HR i Hi).
  transitivity (rsum (fun k => rsum (fun b => get Of i k * get A k b * x b) n) m).
  { apply rsum_ext. intros k Hk. rewrite <- rsum_scal. apply rsum_ext. intros. lra. }
  rewrite rsum_swap. apply rsum_ext. intros b Hb.
  rewrite <- (Hea i b Hi Hb), <- rsum_scal_r. apply rsum_ext. intros. lra.
Qed.

End Kernel.

Theorem inverse_exact (A : @mat R) tol :
  wf A = true -> 0 <= tol ->
  match m_inverse (fresh A) 0 with
  | Ok (Some E, _) => isSquare A = true /\
      mequals (mult E A) (identity (mrows A) 1) tol = true /\
      mequals (mult A E) (identity (mrows A) 1) tol = true
  | Ok (None, _) => False
  | Throw _ => isSquare A = false \/ ~ invertible A
  end.
Proof.
  intros Hw Ht. pose proof (m_inverse_fresh A 0) as Hf. cbv zeta in Hf.
  destruct (plu0_ops A Hw) as (c & st & Hc & Hi & Hend & Hpc & Hea & Hinj).
  destruct (rref_ops_final A c st Hc Hi Hea Hinj) as (HOd & Hea' & Hinj').
  assert (Z0 : nzero = 0) by reflexivity.
  destruct (rref_compute_structure (fun x => x = 0) 0 (mrows A) (mcols A) c st Z0
              ltac:(intros x y f -> ->; rnum; ring) ltac:(intros x f ->; rnum; ring) Hc Hi Hend)
    as (HD & Hck & Hmono & Hl & Hp & Hbl & Hz).
  rewrite Hpc in Hf. cbn [plu_pivots] in Hf. rewrite (length_pivots_inv _ _ _ _ _ Hi) in Hf.
  set (RO := rref_compute (mkPLU (st_P st) (st_L st) (st_U st) (st_E st) (st_pivots st) (st_signP st))) in * .
  set (ck := fun k => snd (nth k (st_pivots st) (0%nat, 0%nat))) in * .
  set (r := st_row st) in * .
  destruct (m_inverse (fresh A) 0) as [[[E|] o]|s].
  - destruct Hf as (Hsq & Hr & ->). split; [exact Hsq|].
    unfold isSquare in Hsq. apply Nat.eqb_eq in Hsq.
    assert (Hck' : forall k, (k < r)%nat -> ck k = k).
    { apply (mono_full ck r Hmono). intros k Hk. rewrite Hr, Hsq. apply Hck; exact Hk. }
    refine (inv_full_rank A (snd RO) (fst RO) (mrows A) tol Hw eq_refl (eq_sym Hsq) HOd _ Hinj' _ Ht);
      [rewrite Hsq at 2; exact Hea' |].
    intros a b Ha Hb. assert (Hbn : (b < mcols A)%nat) by lia.
    destruct (Nat.lt_trichotomy a b) as [Hab|[<-|Hab]].
    + transitivity (get (fst RO) a (ck b)); [rewrite Hck' by lia; reflexivity|].
      unfold ck. rewrite (Hz b a) by lia. bdestr; [lia | reflexivity].
    + transitivity (get (fst RO) a (ck a)); [rewrite Hck' by lia; reflexivity|].
      unfold ck. rewrite Hp by lia. rewrite Nat.eqb_refl. reflexivity.
    + pose proof (Hck' a ltac:(lia)) as Ea. unfold ck in Ea.
      rewrite (Hl a b) by lia. bdestr; [lia | reflexivity].
  - exact Hf.
  - destruct (isSquare A) eqn:Hsq; [|left; reflexivity]. right.
    destruct Hf as [Hf|Hr]; [discriminate|].
    unfold isSquare in Hsq. apply Nat.eqb_eq in Hsq.
    assert (Hrm : (r <= mrows A)%nat) by exact (pi_row _ _ _ _ _ Hi).
    destruct (rref_kernel A (snd RO) (fst RO) (mrows A) (mcols A) r ck Hea' Hinj' ltac:(lia) Hrm Hck Hmono
                (fun k j Hk Hj => Hl k j Hk Hj) (fun k Hk => Hp k Hk) (fun i j Hij Hj => Hbl i j Hij Hj)
                (fun k i Hk Hik => Hz k i Hk Hik))
      as (x & j0 & Hj0 & Hx & Hker).
    apply (not_invertible_of_kernel A x (mrows A) j0 Hw eq_refl (eq_sym Hsq)); [lia | rewrite Hx; lra |].
    rewrite <- Hsq in Hker. exact Hker.
Qed.

End InverseExact.

(** ** [QR(ε)] in exact arithmetic

    The Gram–Schmidt loop of [QR(ε)] keeps [qr_inv]: the vectors kept are
    unit or zero and pairwise orthogonal, and [Q·R] rebuilds the visited
    columns of [A] up to [ε]. *)
Module QRExact.
Import MatrixLemmas PLUInvariant ExactPLU RSumFacts InverseExact.
#[local] Existing Instance Exact.num.
Local Open Scope R_scope.

Lemma length_vsub (u w : @vec R) : length (vsub u w) = length u.
Proof. unfold vsub. rewrite length_map, length_enumerate. reflexivity. Qed.

Lemma nth_vsub (u w : @vec R) i : (i < length u)%nat -> nth i (vsub u w) 0 = nth i u 0 - nth i w 0.
Proof.
  intros Hi. unfold vsub. rewrite (nth_map_lt _ _ _ _ (0%nat, 0)) by (rewrite length_enumerate; exact Hi).
  rewrite nth_enumerate by exact Hi. reflexivity.
Qed.

Lemma nth_vscale0 (v : @vec R) c i : (i < length v)%nat -> nth i (vscale v c 0) 0 = nth i v 0 * c.
Proof. intros Hi. pose proof (nth_vscale v c 0 i Hi) as E. rnum. rewrite E. reflexivity. Qed.

Lemma length_vzero m : length (@vzero R Exact.num m) = m.
Proof. unfold vzero. apply repeat_length. Qed.

Lemma nth_vzero m i : nth i (@vzero R Exact.num m) 0 = 0.
Proof.
  unfold vzero. destruct (Nat.lt_ge_cases i m).
  - apply nth_repeat_lt. exact H.
  - apply nth_overflow. rewrite repeat_length. exact H.
Qed.

Lemma vdot_len (v w : @vec R) m : length v = m -> vdot v w = rsum (fun k => nth k v 0 * nth k w 0) m.
Proof. intros <-. apply vdot_sum. Qed.

Lemma vdot_comm (v w : @vec R) : length v = length w -> vdot v w = vdot w v.
Proof. intros H. rewrite !vdot_sum, H. apply rsum_ext. intros. lra. Qed.

Lemma vdot_vzero_l m (w : @vec R) : vdot (vzero m) w = 0.
Proof. rewrite vdot_sum. apply rsum_zero. intros k _. rewrite nth_vzero. lra. Qed.

Lemma vdot_sub_scale (v u w : @vec R) f m :
  length v = m -> length u = m -> length w = m ->
  vdot v (vsub u (vscale w f 0)) = vdot v u - f * vdot v w.
Proof.
  intros Hv Hu Hw. rewrite !(vdot_len v _ m Hv), <- rsum_scal, <- rsum_minus.
  apply rsum_ext. intros k Hk. rewrite nth_vsub by lia. rewrite nth_vscale0 by lia. lra.
Qed.

Lemma qr_project_spec A eps m n t ui Rm (a : @vec R) s u' Rm' :
  qr_inv A eps m n t ui Rm -> (t < n)%nat -> (s <= t)%nat -> length a = m ->
  fold_left (fun '(u, Rm) jj =>
               let factor := vdot (nth jj ui []) u in
               (vsub u (vscale (nth jj ui []) factor 0), set Rm jj t factor))
            (seq 0 s) (a, Rm) = (u', Rm') ->
  length u' = m /\ dims Rm' n n /\
  (forall i, (i < m)%nat -> nth i a 0 = nth i u' 0 + rsum (fun k => qv ui k i * get Rm' k t) s) /\
  (forall k, (k < s)%nat -> vdot (nth k ui []) u' = 0) /\
  (forall k l, (l <> t \/ (s <= k)%nat) -> get Rm' k l = get Rm k l).
Proof.
  intros Hi Htn. revert u' Rm'. induction s as [|s IH]; intros u' Rm' Hs Ha Hf.
  - simpl in Hf. injection Hf as <- <-. refine (conj Ha (conj (qi_dims _ _ _ _ _ _ _ Hi) (conj _ (conj _ _)))).
    + intros i _. simpl. lra.
    + intros; lia.
    + intros; reflexivity.
  - rewrite seq_S, fold_left_app in Hf. cbn [fold_left Nat.add] in Hf.
    destruct (fold_left _ (seq 0 s) (a, Rm)) as [u1 R1] eqn:E1.
    destruct (IH u1 R1 ltac:(lia) Ha eq_refl) as (Hu1 & HR1 & Hrec & Hort & Hsame).
    injection Hf as <- <-.
    set (f := vdot (nth s ui []) u1).
    assert (Hvs : length (nth s ui []) = m) by (apply (qi_vlen _ _ _ _ _ _ _ Hi); lia).
    destruct HR1 as [HR1l HR1r].
    assert (Hst : get (set R1 s t f) s t = f) by (apply get_set_eq; [unfold vec, mat in *; lia | rewrite HR1r; lia]).
    refine (conj _ (conj (dims_set _ _ _ _ _ _ (conj HR1l HR1r)) (conj _ (conj _ _)))).
    + rewrite length_vsub. exact Hu1.
    + intros i Him. rewrite Hrec by exact Him. cbn [rsum]. rewrite Hst.
      rewrite nth_vsub by lia. rewrite nth_vscale0 by lia.
      rewrite (rsum_ext (fun k => qv ui k i * get (set R1 s t f) k t) (fun k => qv ui k i * get R1 k t)).
      * unfold qv. lra.
      * intros k Hk. rewrite get_set_neq by (intros E; injection E; lia). reflexivity.
    + intros k Hk. rewrite (vdot_sub_scale _ _ _ _ m) by (try apply (qi_vlen _ _ _ _ _ _ _ Hi); lia).
      destruct (Nat.eq_dec k s) as [->|Hks].
      * destruct (qi_unit _ _ _ _ _ _ _ Hi s ltac:(lia)) as [Hu|Hz].
        -- rewrite Hu. unfold f. lra.
        -- unfold f. rewrite Hz, !vdot_vzero_l. lra.
      * rewrite Hort by lia. rewrite (qi_orth _ _ _ _ _ _ _ Hi k s) by lia. lra.
    + intros k l Hkl. rewrite get_set_neq by (intros E; injection E; lia). apply Hsame. lia.
Qed.

Lemma rsum_nonneg (f : nat -> R) n : (forall k, (k < n)%nat -> 0 <= f k) -> 0 <= rsum f n.
Proof.
  induction n as [|n IH]; intros Hf; simpl; [lra|].
  pose proof (IH (fun k Hk => Hf k ltac:(lia))). pose proof (Hf n ltac:(lia)). lra.
Qed.

Lemma rsum_ge_term (f : nat -> R) n i :
  (forall k, (k < n)%nat -> 0 <= f k) -> (i < n)%nat -> f i <= rsum f n.
Proof.
  induction n as [|n IH]; intros Hf Hi; [lia|]. simpl.
  destruct (Nat.eq_dec i n) as [->|Hne].
  - pose proof (rsum_nonneg f n (fun k Hk => Hf k ltac:(lia))). lra.
  - pose proof (IH (fun k Hk => Hf k ltac:(lia)) ltac:(lia)). pose proof (Hf n ltac:(lia)). lra.
Qed.

Lemma vdot_self_nonneg (v : @vec R) : 0 <= vdot v v.
Proof. rewrite vdot_sum. apply rsum_nonneg. intros k _. apply Rle_0_sqr. Qed.

Lemma abs_le_vsize (v : @vec R) i : (i < length v)%nat -> Rabs (nth i v 0) <= sqrt (vdot v v).
Proof.
  intros Hi. rewrite <- sqrt_Rsqr_abs. apply sqrt_le_1_alt. rewrite vdot_sum.
  apply (rsum_ge_term (fun k => nth k v 0 * nth k v 0)); [|exact Hi].
  intros k _. apply Rle_0_sqr.
Qed.

Lemma transpose_nth (A : @mat R) t :
  (t < mcols A)%nat ->
  length (nth t (transpose A) []) = mrows A /\
  forall i, (i < mrows A)%nat -> nth i (nth t (transpose A) []) 0 = get A i t.
Proof.
  intros Ht. unfold transpose. rewrite (nth_map_lt _ _ _ _ 0%nat) by (rewrite length_seq; exact Ht).
  rewrite seq_nth by exact Ht. cbn [Nat.add]. unfold col. split.
  - rewrite length_map. reflexivity.
  - intros i Hi. rewrite (nth_map_lt _ _ _ _ []) by exact Hi. reflexivity.
Qed.

Lemma qv_app_lt ui q k i : (k < length ui)%nat -> qv (ui ++ [q]) k i = qv ui k i.
Proof. intros Hk. unfold qv. rewrite app_nth1 by exact Hk. reflexivity. Qed.

Lemma nth_app_last (ui : list (@vec R)) q k :
  nth k (ui ++ [q]) [] = if (k <? length ui)%nat then nth k ui [] else if (k =? length ui)%nat then q else [].
Proof.
  destruct (Nat.ltb_spec k (length ui)); [apply app_nth1; assumption|].
  rewrite app_nth2 by assumption. destruct (Nat.eqb_spec k (length ui)) as [->|Hne].
  - rewrite Nat.sub_diag. reflexivity.
  - destruct (k - length ui)%nat as [|[|d]] eqn:E; [lia|reflexivity|reflexivity].
Qed.

Lemma qr_column_spec (A : @mat R) eps m n t ui Rm LD ui' Rm' LD' :
  0 <= eps -> mrows A = m -> mcols A = n ->
  qr_inv A eps m n t ui Rm -> (t < n)%nat ->
  qr_column eps m (transpose A) (ui, Rm, LD) t = (ui', Rm', LD') ->
  qr_inv A eps m n (S t) ui' Rm'.
Proof.
  intros He Hm Hn Hi Ht Hc. unfold qr_column, qr_project in Hc.
  destruct (transpose_nth A t ltac:(lia)) as [Hal Haget]. rewrite Hm in Hal, Haget.
  match type of Hc with context [fold_left ?g (seq 0 t) (?a0, Rm)] =>
    destruct (fold_left g (seq 0 t) (a0, Rm)) as [u Rm1] eqn:Ep end.
  destruct (qr_project_spec A eps m n t ui Rm _ t u Rm1 Hi Ht (le_n t) Hal Ep)
    as (Hu & [HR1l HR1r] & Hrec & Hort & Hsame).
  pose proof (qi_len _ _ _ _ _ _ _ Hi) as Hlen.
  assert (Hset : forall x k j, (k, j) <> (t, t) -> get (set Rm1 t t x) k j = get Rm1 k j)
    by (intros; apply get_set_neq; assumption).
  assert (Hsett : forall x, get (set Rm1 t t x) t t = x)
    by (intros; apply get_set_eq; [unfold vec, mat in *; lia | rewrite HR1r; lia]).
  assert (HD : forall x, dims (set Rm1 t t x) n n) by (intros; apply dims_set; split; assumption).
  set (l := vsize u) in * .
  assert (Hl2 : l * l = vdot u u) by (unfold l, vsize; rnum; apply sqrt_sqrt, vdot_self_nonneg).
  assert (Hl0 : 0 <= l) by (unfold l, vsize; rnum; apply sqrt_pos).
  destruct (ngtb l eps) eqn:Hg; injection Hc as <- <- <-.
  - (* a new unit vector [u / l] *)
    assert (Hlt : eps < l) by (unfold ngtb in Hg; rnum; unfold Exact.ltb in Hg; destruct (Rlt_dec eps l); [assumption | discriminate]).
    match goal with |- qr_inv _ _ _ _ _ (_ ++ [?v]) _ => remember v as q eqn:Eq end.
    assert (Hq : length q = m) by (rewrite Eq, length_vscale; exact Hu).
    assert (Hqi : forall i, (i < m)%nat -> nth i q 0 = nth i u 0 * (1 / l)) by (intros; rewrite Eq, nth_vscale0 by lia; rnum; reflexivity).
    assert (Horq : forall k, (k < t)%nat -> vdot (nth k ui []) q = 0).
    { intros k Hk. rewrite (vdot_len _ _ m) by (apply (qi_vlen _ _ _ _ _ _ _ Hi); exact Hk).
      rewrite (rsum_ext _ (fun i => (1 / l) * (nth i (nth k ui []) 0 * nth i u 0))) by (intros; rewrite Hqi by lia; lra).
      rewrite rsum_scal, <- (vdot_len _ _ m) by (apply (qi_vlen _ _ _ _ _ _ _ Hi); exact Hk).
      rewrite Hort by exact Hk. lra. }
    split.
    + rewrite length_app, Hlen. simpl. lia.
    + intros k Hk. rewrite nth_app_last, Hlen. destruct (Nat.ltb_spec k t); [apply (qi_vlen _ _ _ _ _ _ _ Hi); lia|].
      rewrite (proj2 (Nat.eqb_eq k t)) by lia. exact Hq.
    + apply HD.
    + intros s k Hs Hk Hsk. rewrite !nth_app_last, Hlen.
      destruct (Nat.ltb_spec s t), (Nat.ltb_spec k t); try (apply (qi_orth _ _ _ _ _ _ _ Hi); lia).
      * rewrite (proj2 (Nat.eqb_eq k t)) by lia. apply Horq; lia.
      * rewrite (proj2 (Nat.eqb_eq s t)) by lia. rewrite vdot_comm by (rewrite Hq; symmetry; apply (qi_vlen _ _ _ _ _ _ _ Hi); lia).
        apply Horq; lia.
      * lia.
    + intros k Hk. rewrite nth_app_last, Hlen. destruct (Nat.ltb_spec k t); [apply (qi_unit _ _ _ _ _ _ _ Hi); lia|].
      rewrite (proj2 (Nat.eqb_eq k t)) by lia. left.
      rewrite (vdot_len _ _ m Hq).
      rewrite (rsum_ext _ (fun i => (1 / l * (1 / l)) * (nth i u 0 * nth i u 0))) by (intros; rewrite Hqi by lia; lra).
      rewrite rsum_scal, <- (vdot_len _ _ m Hu), <- Hl2. field. lra.
    + intros k j Hj. rewrite Hset by (intros E; injection E; lia). rewrite Hsame by lia.
      apply (qi_zero _ _ _ _ _ _ _ Hi). lia.
    + intros k j Hj Hjk. rewrite Hset by (intros E; injection E; lia).
      destruct (Nat.eq_dec j t) as [->|Hjt].
      * rewrite Hsame by lia. apply (qi_zero _ _ _ _ _ _ _ Hi). lia.
      * rewrite Hsame by lia. apply (qi_upper _ _ _ _ _ _ _ Hi); lia.
    + intros i j Him Hj. cbn [rsum]. rewrite (rsum_ext _ (fun k => qv ui k i * get Rm1 k j)).
      2:{ intros k Hk. rewrite qv_app_lt by lia. rewrite Hset by (intros E; injection E; lia). reflexivity. }
      destruct (Nat.eq_dec j t) as [->|Hjt].
      * rewrite Hsett. unfold qv at 2. rewrite nth_app_last, Hlen, Nat.ltb_irrefl, Nat.eqb_refl, Hqi by exact Him.
        rewrite <- Haget by exact Him. rewrite Hrec by exact Him.
        replace (nth i u 0 * (1 / l) * l) with (nth i u 0) by (field; lra).
        rewrite Rplus_comm, Rminus_diag, Rabs_R0. exact He.
      * rewrite Hset by (intros E; injection E; lia).
        rewrite (Hsame t j) by lia. rewrite (qi_upper _ _ _ _ _ _ _ Hi t j) by lia.
        rewrite (rsum_ext (fun k => qv ui k i * get Rm1 k j) (fun k => qv ui k i * get Rm k j))
          by (intros; rewrite Hsame by lia; reflexivity).
        rewrite Rmult_0_r, Rplus_0_r. apply (qi_rec _ _ _ _ _ _ _ Hi); lia.
  - (* a zero vector; [j] is linearly dependent *)
    assert (Hle : l <= eps) by (unfold ngtb in Hg; rnum; unfold Exact.ltb in Hg; destruct (Rlt_dec eps l); [discriminate | lra]).
    split.
    + rewrite length_app, Hlen. simpl. lia.
    + intros k Hk. rewrite nth_app_last, Hlen. destruct (Nat.ltb_spec k t); [apply (qi_vlen _ _ _ _ _ _ _ Hi); lia|].
      rewrite (proj2 (Nat.eqb_eq k t)) by lia. apply length_vzero.
    + apply HD.
    + intros s k Hs Hk Hsk. rewrite !nth_app_last, Hlen.
      destruct (Nat.ltb_spec s t), (Nat.ltb_spec k t); try (apply (qi_orth _ _ _ _ _ _ _ Hi); lia).
      * rewrite (proj2 (Nat.eqb_eq k t)) by lia.
        rewrite vdot_comm by (rewrite length_vzero; apply (qi_vlen _ _ _ _ _ _ _ Hi); lia). apply vdot_vzero_l.
      * rewrite (proj2 (Nat.eqb_eq s t)) by lia. apply vdot_vzero_l.
      * lia.
    + intros k Hk. rewrite nth_app_last, Hlen. destruct (Nat.ltb_spec k t); [apply (qi_unit _ _ _ _ _ _ _ Hi); lia|].
      rewrite (proj2 (Nat.eqb_eq k t)) by lia. right. reflexivity.
    + intros k j Hj. rewrite Hset by (intros E; injection E; lia). rewrite Hsame by lia.
      apply (qi_zero _ _ _ _ _ _ _ Hi). lia.
    + intros k j Hj Hjk. rewrite Hset by (intros E; injection E; lia).
      destruct (Nat.eq_dec j t) as [->|Hjt].
      * rewrite Hsame by lia. apply (qi_zero _ _ _ _ _ _ _ Hi). lia.
      * rewrite Hsame by lia. apply (qi_upper _ _ _ _ _ _ _ Hi); lia.
    + intros i j Him Hj. cbn [rsum]. rewrite (rsum_ext _ (fun k => qv ui k i * get Rm1 k j)).
      2:{ intros k Hk. rewrite qv_app_lt by lia. rewrite Hset by (intros E; injection E; lia). reflexivity. }
      destruct (Nat.eq_dec j t) as [->|Hjt].
      * rewrite Hsett. rewrite <- Haget by exact Him. rewrite Hrec by exact Him.
        rnum. rewrite Rmult_0_r, Rplus_0_r.
        match goal with |- Rabs (?x + ?y - ?y) <= _ => replace (x + y - y) with x by ring end.
        eapply Rle_trans; [exact (abs_le_vsize u i ltac:(rewrite Hu; exact Him)) | exact Hle].
      * rewrite Hset by (intros E; injection E; lia).
        rewrite (Hsame t j) by lia. rewrite (qi_upper _ _ _ _ _ _ _ Hi t j) by lia.
        rewrite (rsum_ext (fun k => qv ui k i * get Rm1 k j) (fun k => qv ui k i * get Rm k j))
          by (intros; rewrite Hsame by lia; reflexivity).
        rewrite Rmult_0_r, Rplus_0_r. apply (qi_rec _ _ _ _ _ _ _ Hi); lia.
Qed.

Lemma get_mzero n k j : get (@mzero R Exact.num n n) k j = 0.
Proof.
  unfold get, mzero. destruct (Nat.lt_ge_cases k n) as [Hk|Hk].
  - rewrite (nth_map_lt _ _ _ _ 0%nat) by (rewrite length_seq; exact Hk). apply nth_vzero.
  - rewrite (nth_overflow (map (fun _ => @vzero R Exact.num n) (seq 0 n))) by (rewrite length_map, length_seq; exact Hk). destruct j; reflexivity.
Qed.

Lemma qr_fold_inv (A : @mat R) eps m n t ui Rm LD :
  0 <= eps -> mrows A = m -> mcols A = n -> (t <= n)%nat ->
  fold_left (qr_column eps m (transpose A)) (seq 0 t) ([], mzero n n, []) = (ui, Rm, LD) ->
  qr_inv A eps m n t ui Rm.
Proof.
  intros He Hm Hn. revert ui Rm LD. induction t as [|t IH]; intros ui Rm LD Ht Hf.
  - simpl in Hf. injection Hf as <- <- <-. split; try (intros; lia).
    + reflexivity.
    + split; [unfold mzero; rewrite length_map, length_seq; reflexivity|].
      intros i Hi. unfold mzero. rewrite (nth_map_lt _ _ _ _ 0%nat) by (rewrite length_seq; exact Hi). apply length_vzero.
    + intros; apply get_mzero.
  - rewrite seq_S, fold_left_app in Hf. cbn [fold_left Nat.add] in Hf.
    destruct (fold_left (qr_column eps m (transpose A)) (seq 0 t) ([], mzero n n, [])) as [[ui1 Rm1] LD1] eqn:E1.
    exact (qr_column_spec A eps m n t ui1 Rm1 LD1 ui Rm LD He Hm Hn (IH ui1 Rm1 LD1 ltac:(lia) eq_refl) ltac:(lia) Hf).
Qed.

Theorem QR_exact (A : @mat R) eps tol :
  wf A = true -> (0 < mcols A)%nat -> 0 <= eps -> eps <= tol ->
  let d := fst (m_QR (fresh A) eps) in
  mequals (mult (qr_Q d) (qr_R d)) A tol = true /\
  forall j k, (j < mcols A)%nat -> (k < mcols A)%nat ->
    col (qr_Q d) j <> vzero (mrows A) -> col (qr_Q d) k <> vzero (mrows A) ->
    vdot (col (qr_Q d) j) (col (qr_Q d) k) = if (j =? k)%nat then 1 else 0.
Proof.
  intros Hw Hn0 He Ht. cbv zeta. change (fst (m_QR (fresh A) eps)) with (QR_compute A eps).
  set (m := mrows A). set (n := mcols A).
  unfold QR_compute. fold m n.
  destruct (fold_left (qr_column eps m (transpose A)) (seq 0 n) ([], mzero n n, [])) as [[ui Rm] LD] eqn:Ef.
  cbn [qr_Q qr_R].
  pose proof (qr_fold_inv A eps m n n ui Rm LD He eq_refl eq_refl (le_n n) Ef) as Hi.
  pose proof (wf_dims A Hw) as HA. fold m n in HA.
  assert (Hui : dims ui n m) by (split; [exact (qi_len _ _ _ _ _ _ _ Hi) | exact (qi_vlen _ _ _ _ _ _ _ Hi)]).
  assert (Hmc : mcols ui = m) by (apply (mcols_dims _ n); [exact Hui | lia]).
  assert (HQ : dims (transpose ui) m n).
  { split; [unfold transpose; rewrite length_map, length_seq; exact Hmc|].
    intros i Hi'. destruct (transpose_nth ui i ltac:(lia)) as [Hl _]. rewrite Hl. apply (qi_len _ _ _ _ _ _ _ Hi). }
  assert (HQg : forall i k, (i < m)%nat -> (k < n)%nat -> get (transpose ui) i k = qv ui k i).
  { intros i k Hi' Hk. destruct (transpose_nth ui i ltac:(lia)) as [_ Hg]. unfold get at 1. rewrite Hg.
    - reflexivity.
    - unfold mrows. rewrite (qi_len _ _ _ _ _ _ _ Hi). exact Hk. }
  split.
  - apply (mequals_of _ _ m n).
    + apply (dims_mult _ _ m n n); [exact HQ | exact (qi_dims _ _ _ _ _ _ _ Hi) | lia].
    + exact HA.
    + intros i j Hi' Hj. rewrite get_mult.
      * destruct HQ as [_ HQr]. rewrite HQr by exact Hi'.
        rewrite (rsum_ext _ (fun k => qv ui k i * get Rm k j)) by (intros; rewrite HQg by lia; reflexivity).
        rewrite Rabs_minus_sym. eapply Rle_trans; [apply (qi_rec _ _ _ _ _ _ _ Hi); assumption | exact Ht].
      * destruct HQ as [HQl _]. unfold vec, mat in * . lia.
      * rewrite (mcols_dims _ n n (qi_dims _ _ _ _ _ _ _ Hi)) by lia. exact Hj.
  - assert (Hcol : forall j, (j < n)%nat -> col (transpose ui) j = nth j ui []).
    { intros j Hj. apply nth_ext with (d := 0) (d' := 0).
      - unfold col. rewrite length_map. destruct HQ as [HQl _]. transitivity m; [exact HQl|]. symmetry. apply (qi_vlen _ _ _ _ _ _ _ Hi). exact Hj.
      - intros i Hi'. unfold col in * . rewrite length_map in Hi'. destruct HQ as [HQl _].
        rewrite (nth_map_lt _ _ _ _ []) by exact Hi'. transitivity (get (transpose ui) i j); [reflexivity|].
        rewrite HQg by (unfold vec, mat in *; lia). reflexivity. }
    intros j k Hj Hk Hzj Hzk. rewrite !Hcol in * by assumption.
    destruct (Nat.eqb_spec j k) as [<-|Hjk].
    + destruct (qi_unit _ _ _ _ _ _ _ Hi j Hj) as [Hu|Hz]; [exact Hu | contradiction].
    + apply (qi_orth _ _ _ _ _ _ _ Hi); assumption.
Qed.

End QRExact.

Module PLUClaims.
Import ExactPLU PLUExact.

(** C1 (exact arithmetic): for every well-formed matrix [A] and every
    [0 ≤ ε ≤ tol], with [{P, L, U} = A.PLU(ε)] computed over the reals,
    [Matrix.permutation(P).mult(A)] equals [L.mult(U)] within [tol]; with the
    default [ε = 1e-10] and [tol = 1e-8] this is the claimed equality. *)
Theorem plu_PA_eq_LU (A : @mat R) (eps tol : R) :
  wf A = true -> (0 <= eps)%R -> (eps <= tol)%R ->
  let d := fst (@m_PLU R Exact.num (fresh A) eps) in
  @mequals R Exact.num (@mult R Exact.num (@permutation R Exact.num (plu_P d)) A)
                       (@mult R Exact.num (plu_L d) (plu_U d)) tol = true.
Proof. exact (plu_PA_LU_exact A eps tol). Qed.

Lemma plu_PA_eq_LU_witness :
  let A := [[1; 2]; [3; 4]]%R in
  (wf A = true /\ (0 <= 1 / 10000000000)%R /\ (1 / 10000000000 <= 1 / 100000000)%R) /\
  (let d := fst (@m_PLU R Exact.num (fresh A) (1 / 10000000000)%R) in
   @mequals R Exact.num (@mult R Exact.num (@permutation R Exact.num (plu_P d)) A)
                        (@mult R Exact.num (plu_L d) (plu_U d)) (1 / 100000000)%R = true).
Proof.
  cbv zeta. split; [split; [reflexivity | split; lra] |].
  apply (plu_PA_eq_LU [[1; 2]; [3; 4]]%R); [reflexivity | lra | lra].
Defined.

#[local] Existing Instance Binary64.num.

(** C1 (binary64): the claim fails in floating point.  For
    [A = [[1, 1e10], [1, 0.1]]] and the default [ε], [P = [0, 1]] and entry
    [(1, 1)] of [L·U] is [0.10000038...] instead of [0.1]: [U[1][1] = 0.1 − 1e10]
    is rounded to a multiple of [2^-19]. *)
Lemma plu_PA_LU_float_counterexample :
  let A := [[Binary64.of_Z 1; Binary64.of_Z 10000000000]; [Binary64.of_Z 1; Binary64.tenth_pow 1]] in
  let d := fst (m_PLU (fresh A) (Binary64.tenth_pow 10)) in
  wf A = true /\
  mequals (mult (permutation (plu_P d)) A) (mult (plu_L d) (plu_U d)) (Binary64.tenth_pow 8) = false.
Proof. vm_compute. split; reflexivity. Qed.
End PLUClaims.

Module SolveClaims.
Import SolveExact.

(** C2 (exact arithmetic, [ε = 0]): for every well-formed matrix [A] and
    every vector [b] of length [m], computed over the reals, [solve(b, 0)]
    returns a vector [x] with [A.apply(x) = b] exactly whenever it returns a
    vector, returns [null] only when [Ax = b] has no solution, and does not
    throw. *)
Theorem solve_exact_zero_eps (A : @mat R) (b : list R) :
  wf A = true -> length b = mrows A ->
  match @m_solve R Exact.num (fresh A) b 0%R with
  | Ok (Some x, _) => @mapply R Exact.num A x = b
  | Ok (None, _) => ~ (exists x, @mapply R Exact.num A x = b)
  | Throw _ => False
  end.
Proof. exact (solve_exact A b). Qed.

Lemma solve_exact_zero_eps_witness :
  (wf [[1; 2]; [3; 4]]%R = true /\ length [5; 6]%R = mrows [[1; 2]; [3; 4]]%R) /\
  match @m_solve R Exact.num (fresh [[1; 2]; [3; 4]]%R) [5; 6]%R 0%R with
  | Ok (Some x, _) => @mapply R Exact.num [[1; 2]; [3; 4]]%R x = [5; 6]%R
  | Ok (None, _) => ~ (exists x, @mapply R Exact.num [[1; 2]; [3; 4]]%R x = [5; 6]%R)
  | Throw _ => False
  end.
Proof.
  split; [split; reflexivity|].
  apply (solve_exact_zero_eps [[1; 2]; [3; 4]]%R [5; 6]%R); reflexivity.
Defined.

#[local] Existing Instance Binary64.num.

(** C2 (binary64, default [ε]): for [A = [[2^-34]]] and [b = [1]] the
    system has the exact solution [x = [2^34]] ([A.apply(x) = b] holds in
    binary64 too), but [|2^-34| < 1e-10] is not a pivot and [solve(b)]
    returns [null]. *)
Lemma solve_null_with_solution :
  let A := [[S754_finite false 4503599627370496 (-86)]] in
  wf A = true /\ mapply A [Binary64.of_Z 17179869184] = [Binary64.of_Z 1] /\
  match m_solve (fresh A) [Binary64.of_Z 1] (Binary64.tenth_pow 10) with
  | Ok (None, _) => True
  | _ => False
  end.
Proof. vm_compute. repeat split. Qed.
End SolveClaims.

Module InverseClaims.
Import ExactPLU InverseExact.

(** C3 (exact arithmetic, [ε = 0]): for every well-formed matrix [A]
    computed over the reals and every tolerance [tol ≥ 0], [inverse(0)]
    never returns [undefined]; when it returns a matrix [E], [A] is square
    and [E.mult(A)] and [A.mult(E)] equal the identity within [tol]; when
    it throws, [A] is not square or has no two-sided inverse. *)
Theorem inverse_exact_zero_eps (A : @mat R) (tol : R) :
  wf A = true -> (0 <= tol)%R ->
  match @m_inverse R Exact.num (fresh A) 0%R with
  | Ok (Some E, _) => isSquare A = true /\
      @mequals R Exact.num (@mult R Exact.num E A) (@identity R Exact.num (mrows A) 1%R) tol = true /\
      @mequals R Exact.num (@mult R Exact.num A E) (@identity R Exact.num (mrows A) 1%R) tol = true
  | Ok (None, _) => False
  | Throw _ => isSquare A = false \/ ~ invertible A
  end.
Proof. exact (inverse_exact A tol). Qed.

Lemma inverse_exact_zero_eps_witness :
  (wf [[1; 2]; [3; 4]]%R = true /\ (0 <= 1 / 100000000)%R) /\
  match @m_inverse R Exact.num (fresh [[1; 2]; [3; 4]]%R) 0%R with
  | Ok (Some E, _) => isSquare [[1; 2]; [3; 4]]%R = true /\
      @mequals R Exact.num (@mult R Exact.num E [[1; 2]; [3; 4]]%R) (@identity R Exact.num 2 1%R) (1 / 100000000)%R = true /\
      @mequals R Exact.num (@mult R Exact.num [[1; 2]; [3; 4]]%R E) (@identity R Exact.num 2 1%R) (1 / 100000000)%R = true
  | Ok (None, _) => False
  | Throw _ => isSquare [[1; 2]; [3; 4]]%R = false \/ ~ invertible [[1; 2]; [3; 4]]%R
  end.
Proof.
  split; [split; [reflexivity | lra]|].
  apply (inverse_exact_zero_eps [[1; 2]; [3; 4]]%R (1 / 100000000)%R); [reflexivity | lra].
Defined.

#[local] Existing Instance Binary64.num.

(** C3 (binary64, default [ε]): [A = [[2^-34]]] has the inverse
    [[[2^34]]] (both products are exactly the identity in binary64), but
    [|2^-34| < 1e-10] is not a pivot, the rank is [0] and [inverse()]
    throws "Tried to invert a singular matrix". *)
Lemma inverse_throws_on_invertible :
  let A := [[S754_finite false 4503599627370496 (-86)]] in
  let B := [[Binary64.of_Z 17179869184]] in
  wf A = true /\ isSquare A = true /\
  mequals (mult B A) (identity (mrows A) none) nzero = true /\
  mequals (mult A B) (identity (mrows A) none) nzero = true /\
  match m_inverse (fresh A) (Binary64.tenth_pow 10) with
  | Throw _ => True
  | Ok _ => False
  end.
Proof. vm_compute. repeat split. Qed.
End InverseClaims.

Module QRClaims.
Import ExactPLU QRExact.

Section ExactQR.
#[local] Existing Instance Exact.num.
Local Open Scope R_scope.

(** C4 (exact arithmetic): for every well-formed matrix [A] over the reals
    with at least one column, every [ε ≥ 0] and every tolerance [tol ≥ ε],
    letting [{Q, R}] be [A.QR(ε)], [Q.mult(R)] equals [A] within [tol], and
    any two nonzero columns [j], [k] of [Q] have dot product exactly [1]
    when [j = k] and exactly [0] otherwise. *)
Theorem QR_exact_orthonormal (A : @mat R) (eps tol : R) :
  wf A = true -> (0 < mcols A)%nat -> 0 <= eps -> eps <= tol ->
  let d := fst (m_QR (fresh A) eps) in
  mequals (mult (qr_Q d) (qr_R d)) A tol = true /\
  forall j k, (j < mcols A)%nat -> (k < mcols A)%nat ->
    col (qr_Q d) j <> vzero (mrows A) -> col (qr_Q d) k <> vzero (mrows A) ->
    vdot (col (qr_Q d) j) (col (qr_Q d) k) = if (j =? k)%nat then 1 else 0.
Proof. exact (QR_exact A eps tol). Qed.

Lemma QR_exact_orthonormal_witness :
  (wf [[1; 2]; [3; 4]] = true /\ (0 < mcols [[1; 2]; [3; 4]])%nat /\
   0 <= 1 / 10000000000 /\ 1 / 10000000000 <= 1 / 100000000) /\
  let d := fst (m_QR (fresh [[1; 2]; [3; 4]]) (1 / 10000000000)) in
  mequals (mult (qr_Q d) (qr_R d)) [[1; 2]; [3; 4]] (1 / 100000000) = true /\
  forall j k, (j < mcols [[1; 2]; [3; 4]])%nat -> (k < mcols [[1; 2]; [3; 4]])%nat ->
    col (qr_Q d) j <> vzero (mrows [[1; 2]; [3; 4]]) ->
    col (qr_Q d) k <> vzero (mrows [[1; 2]; [3; 4]]) ->
    vdot (col (qr_Q d) j) (col (qr_Q d) k) = if (j =? k)%nat then 1 else 0.
Proof.
  split; [split; [reflexivity | split; [simpl; lia | split; lra]]|].
  apply (QR_exact_orthonormal [[1; 2]; [3; 4]] (1 / 10000000000) (1 / 100000000));
    [reflexivity | simpl; lia | lra | lra].
Defined.
End ExactQR.

#[local] Existing Instance Binary64.num.

(** C4 (binary64, default [ε]): for [A = [[1e10], [1e10]]], [Q.mult(R)] is
    [[[1e10 + 2^-19], [1e10 + 2^-19]]], off by about [1.9e-6 > 1e-8]; and
    for the [2 × 0] matrix [[[], []]], [Q] is the transpose of no vectors,
    the [0 × 0] matrix, so [Q.mult(R)] has no rows and does not equal [A]. *)
Lemma QR_counterexample :
  (let A := [[Binary64.of_Z 10000000000]; [Binary64.of_Z 10000000000]] in
   let d := fst (m_QR (fresh A) (Binary64.tenth_pow 10)) in
   wf A = true /\ mequals (mult (qr_Q d) (qr_R d)) A (Binary64.tenth_pow 8) = false) /\
  (let A : @mat spec_float := [[]; []] in
   let d := fst (m_QR (fresh A) (Binary64.tenth_pow 10)) in
   wf A = true /\ mequals (mult (qr_Q d) (qr_R d)) A (Binary64.tenth_pow 8) = false).
Proof. vm_compute. repeat split. Qed.
End QRClaims.

Module ShapeFacts.
Import MatrixLemmas PLUInvariant EchelonStructure.


Section S.
Context {F : Type} `{Num F}.
Implicit Types M A : @mat F.


Lemma length_col M j : length (col M j) = length M.
Proof. unfold col. apply length_map. Qed.

Lemma nth_col M j i : i < length M -> nth i (col M j) nzero = get M i j.
Proof. intros Hi. unfold col. rewrite (nth_map_lt _ _ _ _ []) by exact Hi. reflexivity. Qed.

Lemma length_transpose M : length (transpose M) = mcols M.
Proof. unfold transpose. rewrite length_map. apply length_seq. Qed.

Lemma nth_transpose M j : j < mcols M -> nth j (transpose M) [] = col M j.
Proof. intros Hj. unfold transpose. rewrite (nth_map_lt _ _ _ _ 0) by (rewrite length_seq; exact Hj).
  rewrite seq_nth by exact Hj. reflexivity. Qed.

Lemma dims_transpose M : dims (transpose M) (mcols M) (mrows M).
Proof.
  split; [apply length_transpose|]. intros j Hj. rewrite nth_transpose by exact Hj. apply length_col.
Qed.

Lemma mcols_transpose M : 0 < mcols M -> mcols (transpose M) = mrows M.
Proof.
  intros Hn. apply (mcols_dims _ (mcols M) (mrows M)); [apply dims_transpose | exact Hn].
Qed.

Lemma get_transpose M i j : i < mcols M -> j < mrows M -> get (transpose M) i j = get M j i.
Proof. intros Hi Hj. unfold get at 1. rewrite nth_transpose by exact Hi. apply nth_col. exact Hj. Qed.

(** X2: Transposing a well-formed matrix with at least one column twice gives the matrix back. *)
Lemma transpose_transpose M : wf M = true -> 0 < mcols M -> transpose (transpose M) = M.
Proof.
  intros Hw Hn. pose proof (wf_dims M Hw) as Hd.
  apply (nth_ext _ _ [] []).
  - rewrite length_transpose, mcols_transpose by exact Hn. reflexivity.
  - intros i Hi. rewrite length_transpose, mcols_transpose in Hi by exact Hn.
    rewrite nth_transpose by (rewrite mcols_transpose by exact Hn; exact Hi).
    apply (nth_ext _ _ nzero nzero).
    + rewrite length_col, length_transpose. symmetry. apply (dims_length_row _ _ _ _ Hd Hi).
    + intros j Hj. rewrite length_col, length_transpose in Hj.
      rewrite nth_col by (rewrite length_transpose; exact Hj).
      rewrite get_transpose by assumption. reflexivity.
Qed.

Lemma entry_gt_get M m n i j eps :
  dims M m n -> i < m -> entry_gt M i j eps = if j <? n then ngtb (nabs (get M i j)) eps else false.
Proof.
  intros Hd Hi. unfold entry_gt, get. pose proof (dims_length_row _ _ _ _ Hd Hi) as Hl.
  destruct (Nat.ltb_spec j n) as [Hj|Hj].
  - rewrite (nth_error_nth' _ nzero) by mlia. reflexivity.
  - rewrite (proj2 (nth_error_None _ _)) by mlia. reflexivity.
Qed.

Lemma isUpperTri_spec M m n eps :
  dims M m n ->
  isUpperTri M eps = true <-> forall i j, j < i < m -> j < n -> ngtb (nabs (get M i j)) eps = false.
Proof.
  intros Hd. assert (Hm : mrows M = m) by (destruct Hd; exact H0).
  unfold isUpperTri. rewrite forallb_forall, Hm. split.
  - intros Hf i j Hij Hj. assert (Hin : In i (seq 1 (m - 1))) by (apply in_seq; lia).
    specialize (Hf i Hin). rewrite forallb_forall in Hf.
    assert (Hjn : In j (seq 0 i)) by (apply in_seq; lia). specialize (Hf j Hjn).
    rewrite (entry_gt_get _ m n) in Hf by (exact Hd || lia).
    destruct (Nat.ltb_spec j n); [|lia]. destruct (ngtb _ _); [discriminate | reflexivity].
  - intros Hf i Hi. apply in_seq in Hi. rewrite forallb_forall. intros j Hj. apply in_seq in Hj.
    rewrite (entry_gt_get _ m n) by (exact Hd || lia).
    destruct (Nat.ltb_spec j n); [|reflexivity]. rewrite Hf by lia. reflexivity.
Qed.

Lemma isLowerTri_spec M m n eps :
  dims M m n -> 0 < m ->
  isLowerTri M eps = true <-> forall i j, i < j < n -> i < m -> ngtb (nabs (get M i j)) eps = false.
Proof.
  intros Hd Hm0. assert (Hm : mrows M = m) by (destruct Hd; exact H0).
  assert (Hn : mcols M = n) by (apply (mcols_dims _ m); assumption).
  unfold isLowerTri. rewrite forallb_forall, Hm, Hn. split.
  - intros Hf i j Hij Hi. assert (Hin : In i (seq 0 m)) by (apply in_seq; lia).
    specialize (Hf i Hin). rewrite forallb_forall in Hf.
    assert (Hjn : In j (seq (S i) (n - S i))) by (apply in_seq; lia). specialize (Hf j Hjn).
    rewrite (entry_gt_get _ m n) in Hf by (exact Hd || lia).
    destruct (Nat.ltb_spec j n); [|lia]. destruct (ngtb _ _); [discriminate | reflexivity].
  - intros Hf i Hi. apply in_seq in Hi. rewrite forallb_forall. intros j Hj. apply in_seq in Hj.
    rewrite (entry_gt_get _ m n) by (exact Hd || lia).
    destruct (Nat.ltb_spec j n); [|reflexivity]. rewrite Hf by lia. reflexivity.
Qed.

Lemma isLowerTri_nil eps : isLowerTri (F:=F) [] eps = true.
Proof. reflexivity. Qed.

(** X3: For a well-formed matrix, [isLowerTri(ε)] of its transpose is [isUpperTri(ε)] of the matrix. *)
Theorem isLowerTri_transpose M eps : wf M = true -> isLowerTri (transpose M) eps = isUpperTri M eps.
Proof.
  intros Hw. pose proof (wf_dims M Hw) as Hd. set (m := mrows M) in * . set (n := mcols M) in * .
  destruct (Nat.eq_dec n 0) as [Hn0|Hn0].
  - unfold transpose. fold n. rewrite Hn0. cbn [seq map]. rewrite isLowerTri_nil. symmetry.
    apply (isUpperTri_spec _ m n); [exact Hd|]. intros. lia.
  - destruct (Nat.eq_dec m 0) as [Hm0|Hm0].
    + destruct M; [|discriminate]. reflexivity.
    + apply eq_true_iff_eq. rewrite (isLowerTri_spec _ n m) by (exact (dims_transpose M) || lia).
      rewrite (isUpperTri_spec _ m n) by exact Hd. split.
      * intros Hf i j Hij Hj. rewrite <- (get_transpose M j i) by lia. apply Hf; lia.
      * intros Hf i j Hij Hi. rewrite get_transpose by lia. apply Hf; lia.
Qed.

Lemma unip_diag_spec M m n eps :
  dims M m n ->
  unip_diag M eps = true <-> forall j, j < m -> j < n -> ngtb (nabs (get M j j -. none)) eps = false.
Proof.
  intros Hd. destruct (Nat.eq_dec m 0) as [Hm0|Hm0].
  - subst m. destruct Hd as [Hl _]. destruct M; [|discriminate]. split; [intros; lia | reflexivity].
  - assert (Hm : mrows M = m) by (destruct Hd; assumption).
    assert (Hn : mcols M = n) by (apply (mcols_dims _ m); [exact Hd | lia]).
    unfold unip_diag. rewrite forallb_forall, Hm, Hn. split.
    + intros Hf j Hj Hjn. assert (Hin : In j (seq 0 (Nat.min m n))) by (apply in_seq; lia).
      specialize (Hf j Hin). unfold get.
      rewrite (nth_error_nth' _ nzero) in Hf by (rewrite (dims_length_row _ _ _ _ Hd Hj); exact Hjn).
      destruct (ngtb _ _); [discriminate | reflexivity].
    + intros Hf j Hj. apply in_seq in Hj.
      rewrite (nth_error_nth' _ nzero) by (rewrite (dims_length_row _ _ _ _ Hd) by lia; lia).
      fold (get M j j). rewrite Hf by lia. reflexivity.
Qed.

Section Tol.
Variable t : F.
Hypothesis h0 : ngtb (nabs nzero) t = false.
Hypothesis h1 : ngtb (nabs (none -. none)) t = false.

(** X4: For a tolerance [t] exceeded neither by [|0|] nor by [|1 - 1|], [Matrix.identity(n, λ)] passes [isDiagonal(t)], and [Matrix.identity(n)] passes [isUpperUnip(t)] and [isLowerUnip(t)]. *)
Lemma identity_diag_unip n c :
  isDiagonal (identity n c) t = true /\ isUpperUnip (identity n none) t = true /\
  isLowerUnip (identity n none) t = true.
Proof.
  destruct (Nat.eq_dec n 0) as [->|Hn]; [split; [|split]; reflexivity|].
  assert (Lo : forall c', isLowerTri (identity n c') t = true).
  { intros c'. apply (isLowerTri_spec _ n n); [apply dims_identity | lia |].
    intros i j Hij Hi. rewrite get_identity by lia. destruct (Nat.eqb_spec i j); [lia | exact h0]. }
  assert (Up : forall c', isUpperTri (identity n c') t = true).
  { intros c'. apply (isUpperTri_spec _ n n); [apply dims_identity|].
    intros i j Hij Hj. rewrite get_identity by lia. destruct (Nat.eqb_spec i j); [lia | exact h0]. }
  assert (Dg : unip_diag (identity n none) t = true).
  { apply (unip_diag_spec _ n n); [apply dims_identity|]. intros j Hj _.
    rewrite get_identity, Nat.eqb_refl by lia. exact h1. }
  unfold isDiagonal, isUpperUnip, isLowerUnip. rewrite Dg, !Lo, !Up. auto.
Qed.

Lemma pivot_col_ge (pv : list (nat * nat)) r :
  (forall k1 k2, k1 < k2 < r -> snd (nth k1 pv (0, 0)) < snd (nth k2 pv (0, 0))) ->
  forall k, k < r -> k <= snd (nth k pv (0, 0)).
Proof.
  intros Hm k. induction k as [|k IH]; intros Hk; [lia|].
  specialize (IH ltac:(lia)). specialize (Hm k (S k) ltac:(lia)). lia.
Qed.

(** X5: For a well-formed matrix and a tolerance [t] exceeded neither by [|0|] nor by [|1 - 1|], the [L] of [PLU(ε)] passes [isLowerUnip(t)] and its [U] passes [isUpperTri(t)], whatever [ε]. *)
Lemma PLU_LU_triangular (A : @mat F) eps :
  wf A = true ->
  let d := fst (m_PLU (fresh A) eps) in
  isLowerUnip (plu_L d) t = true /\ isUpperTri (plu_U d) t = true.
Proof.
  intros Hw. cbn [m_PLU fresh ocache c_PLU empty_cache entries fst]. destruct (PLU_compute_inv eps A Hw) as (c & st & Hc & Hi & Hend & ->). cbv zeta.
  cbn [plu_L plu_U]. set (m := mrows A) in * . set (n := mcols A) in * .
  split.
  - destruct (Nat.eq_dec m 0) as [Hm0|Hm0].
    + pose proof (pi_L _ _ _ _ _ Hi) as [Hl _]. destruct (st_L st); [reflexivity | simpl in Hl; lia].
    + unfold isLowerUnip. apply andb_true_intro. split.
      * apply (unip_diag_spec _ m m); [exact (pi_L _ _ _ _ _ Hi)|]. intros j Hj _.
        rewrite (pi_Lid _ _ _ _ _ Hi) by lia. rewrite Nat.eqb_refl. exact h1.
      * apply (isLowerTri_spec _ m m); [exact (pi_L _ _ _ _ _ Hi) | lia |].
        intros i j Hij Hi'. rewrite (pi_Lid _ _ _ _ _ Hi) by lia.
        destruct (Nat.eqb_spec i j); [lia | exact h0].
  - apply (isUpperTri_spec _ m n); [exact (pi_U _ _ _ _ _ Hi)|]. intros i j Hij Hj.
    pose proof (length_pivots_inv _ _ _ _ _ Hi) as Hlp.
    destruct (Nat.lt_ge_cases i (st_row st)) as [Hir|Hir].
    + pose proof (pivot_col_ge _ _ (pi_mono _ _ _ _ _ Hi) i Hir).
      rewrite (pi_left _ _ _ _ _ Hi) by lia. exact h0.
    + destruct Hend as [Hr|Hcn]; [lia|].
      rewrite (pi_below _ _ _ _ _ Hi) by lia. exact h0.
Qed.
End Tol.

(** X6: For a well-formed [m x n] matrix, [PLU(ε)] returns [P] a permutation of [0..m-1], [L] and [E] of size [m x m], [U] of size [m x n], and [r <= min(m, n)] pivots on the rows [0..r-1] with strictly increasing columns below [n], each pivot entry of [U] exceeding [ε] in absolute value. *)
Theorem PLU_shape (A : @mat F) eps :
  wf A = true ->
  let d := fst (m_PLU (fresh A) eps) in
  let m := mrows A in let n := mcols A in
  Permutation (plu_P d) (seq 0 m) /\
  dims (plu_L d) m m /\ dims (plu_U d) m n /\ dims (plu_E d) m m /\
  map fst (plu_pivots d) = seq 0 (length (plu_pivots d)) /\
  Sorted lt (map snd (plu_pivots d)) /\
  (forall k, k < length (plu_pivots d) ->
     snd (nth k (plu_pivots d) (0, 0)) < n /\
     ngtb (nabs (get (plu_U d) k (snd (nth k (plu_pivots d) (0, 0))))) eps = true) /\
  length (plu_pivots d) <= Nat.min m n.
Proof.
  intros Hw. cbn [m_PLU fresh ocache c_PLU empty_cache entries fst].
  destruct (PLU_compute_inv eps A Hw) as (c & st & Hc & Hi & Hend & ->). cbv zeta.
  cbn [plu_P plu_L plu_U plu_E plu_pivots].
  pose proof (length_pivots_inv _ _ _ _ _ Hi) as Hlp.
  pose proof (pi_row _ _ _ _ _ Hi). pose proof (pi_rowcol _ _ _ _ _ Hi).
  split; [|split; [exact (pi_L _ _ _ _ _ Hi)|split; [exact (pi_U _ _ _ _ _ Hi)|split; [exact (pi_E _ _ _ _ _ Hi)|]]]].
  - apply NoDup_Permutation_bis.
    + apply (NoDup_nth (st_P st) 0). intros a b Ha Hb E.
      rewrite (pi_Plen _ _ _ _ _ Hi) in Ha, Hb. exact (pi_Pinj _ _ _ _ _ Hi a b Ha Hb E).
    + rewrite length_seq, (pi_Plen _ _ _ _ _ Hi). lia.
    + intros x Hx. apply (In_nth _ _ 0) in Hx. destruct Hx as (a & Ha & <-).
      rewrite (pi_Plen _ _ _ _ _ Hi) in Ha. apply in_seq. pose proof (pi_Prange _ _ _ _ _ Hi a Ha). lia.
  - rewrite Hlp. split; [exact (pi_fst _ _ _ _ _ Hi)|]. split.
    + apply (pivots_sorted _ (st_row st)); [exact (pi_fst _ _ _ _ _ Hi) | exact (pi_mono _ _ _ _ _ Hi)].
    + split; [|lia]. intros k Hk. split.
      * pose proof (pi_lt _ _ _ _ _ Hi k Hk). lia.
      * exact (pi_piv _ _ _ _ _ Hi k Hk).
Qed.

Ltac mcbn := cbn [m_isInvertible m_isFullRowRank m_isFullColRank m_isSingular m_nullity m_rank m_pivots
                  m_PLU fresh entries ocache c_rank c_PLU empty_cache upd_cache set_PLU set_rank fst snd] in * .

(** X7: For a well-formed matrix, [rank(ε)] is the number of pivots of [PLU(ε)] and at most [min(m, n)], [nullity(ε) + rank(ε) = n], [isInvertible(ε)] holds exactly when the matrix is square of rank [m], and [isSingular(ε)] is its negation. *)
Theorem rank_nullity (A : @mat F) eps :
  wf A = true ->
  let r := fst (m_rank (fresh A) eps) in
  r = length (plu_pivots (fst (m_PLU (fresh A) eps))) /\ r <= Nat.min (mrows A) (mcols A) /\
  fst (m_nullity (fresh A) eps) + r = mcols A /\
  (fst (m_isInvertible (fresh A) eps) = true <-> isSquare A = true /\ r = mrows A) /\
  fst (m_isSingular (fresh A) eps) = negb (fst (m_isInvertible (fresh A) eps)).
Proof.
  intros Hw. destruct (PLU_compute_inv eps A Hw) as (c & st & Hc & Hi & Hend & Hp).
  pose proof (length_pivots_inv _ _ _ _ _ Hi) as Hlp.
  pose proof (pi_row _ _ _ _ _ Hi). pose proof (pi_rowcol _ _ _ _ _ Hi).
  cbv zeta. mcbn. rewrite Hp. cbn [plu_pivots]. rewrite Hlp.
  split; [reflexivity|]. split; [lia|]. split; [lia|]. split.
  - unfold m_isInvertible, m_isFullRowRank, m_isFullColRank, isSquare. mcbn.
    destruct (Nat.ltb_spec (mcols A) (mrows A)) as [Hlt|Hge].
    + cbn [fst]. split; [discriminate|]. intros [Hs _]. apply Nat.eqb_eq in Hs. lia.
    + mcbn. rewrite Hp. cbn [plu_pivots]. rewrite Hlp.
      destruct (Nat.eqb_spec (st_row st) (mrows A)) as [Heq|Hne].
      * destruct (Nat.ltb_spec (mrows A) (mcols A)) as [Hlt'|Hge'].
        -- cbn. split; [discriminate|]. intros [Hs _]. apply Nat.eqb_eq in Hs. lia.
        -- mcbn. assert (E : mrows A = mcols A) by lia. rewrite Heq, <- E, Nat.eqb_refl. tauto.
      * cbn. split; [discriminate|]. intros [_ E]. lia.
  - unfold m_isSingular. destruct (m_isInvertible (fresh A) eps). reflexivity.
Qed.

(** X8: Swapping the rows [i] and [j] of a matrix twice gives the matrix back, for any rows [i] and [j] in range (also [i = j]). *)
Theorem rowSwap_involutive M i j :
  i < mrows M -> j < mrows M -> rowSwap (rowSwap M i j) i j = M.
Proof.
  intros Hi Hj. unfold rowSwap, mrows in * . apply (nth_ext _ _ [] []).
  - rewrite !length_swap_nth. reflexivity.
  - intros a Ha. rewrite !length_swap_nth in Ha.
    rewrite nth_swap_nth by (rewrite ?length_swap_nth; assumption).
    rewrite !nth_swap_nth by assumption.
    repeat match goal with |- context [Nat.eqb ?x ?y] => destruct (Nat.eqb_spec x y) end;
      subst; congruence.
Qed.

Lemma nth_splice_row (row items : @vec F) j q b :
  j + q <= length row -> length items = q ->
  nth b (splice_row row j q items) nzero =
  if (j <=? b) && (b <? j + q) then nth (b - j) items nzero else nth b row nzero.
Proof.
  intros Hl Hq. unfold splice_row.
  assert (Hf : length (firstn j row) = j) by (rewrite length_firstn; lia).
  destruct (Nat.ltb_spec b j) as [Hb|Hb].
  - rewrite app_nth1 by lia. rewrite nth_firstn. destruct (Nat.leb_spec j b); [lia|].
    destruct (Nat.ltb_spec b j); [reflexivity | lia].
  - rewrite app_nth2 by lia. rewrite Hf. destruct (Nat.leb_spec j b); [|lia]. cbn [andb].
    destruct (Nat.ltb_spec b (j + q)) as [Hb'|Hb'].
    + rewrite app_nth1 by lia. reflexivity.
    + rewrite app_nth2 by lia. rewrite nth_skipn. f_equal. lia.
Qed.

Lemma length_splice_row (row items : @vec F) j q :
  j + q <= length row -> length items = q -> length (splice_row row j q items) = length row.
Proof.
  intros Hl Hq. unfold splice_row. rewrite !length_app, length_firstn, length_skipn. lia.
Qed.

(** X9: On an [m x n] matrix, [insertSubmatrix(i, j, M)] with a well-formed [M] throws a [TypeError] when the rows of [M] run past the last row; when [M] fits, it overwrites exactly the block of [M] at [(i, j)], keeps every other entry and the dimensions, and leaves the cache as it was. *)
Theorem insertSubmatrix_spec (o : obj) (i j : nat) (Sm : @mat F) m n :
  dims (entries o) m n -> wf Sm = true ->
  (m < i + mrows Sm -> m_insertSubmatrix o i j Sm = Throw "TypeError"%string) /\
  (i + mrows Sm <= m -> j + mcols Sm <= n ->
   exists o', m_insertSubmatrix o i j Sm = Ok o' /\ ocache o' = ocache o /\ dims (entries o') m n /\
   forall a b, a < m -> b < n ->
     get (entries o') a b =
     if (i <=? a) && (a <? i + mrows Sm) && (j <=? b) && (b <? j + mcols Sm)
     then get Sm (a - i) (b - j) else get (entries o) a b).
Proof.
  intros Hd Hw. pose proof (wf_dims Sm Hw) as HS. set (p := mrows Sm) in * . set (q := mcols Sm) in * .
  assert (Hm : mrows (entries o) = m) by (destruct Hd; assumption).
  split.
  { intros Hlt. unfold m_insertSubmatrix. rewrite Hm. fold p. destruct (Nat.ltb_spec m (i + p)); [reflexivity | lia]. }
  intros Hip Hjq. unfold m_insertSubmatrix. rewrite Hm. fold p q.
  destruct (Nat.ltb_spec m (i + p)) as [|_]; [lia|].
  eexists. split; [reflexivity|]. cbn [ocache entries]. split; [reflexivity|].
  assert (Hinv : forall k, k <= p ->
    let M := fold_left (fun M ii => set_nth M (ii + i) (splice_row (nth (ii + i) M []) j q (nth ii Sm [])))
                       (seq 0 k) (entries o) in
    dims M m n /\ forall a b, a < m -> b < n ->
      get M a b = if (i <=? a) && (a <? i + k) && (j <=? b) && (b <? j + q)
                  then get Sm (a - i) (b - j) else get (entries o) a b).
  { induction k as [|k IH]; intros Hk; cbv zeta.
    - split; [exact Hd|]. intros a b Ha Hb. cbn [seq fold_left].
      rewrite Nat.add_0_r. destruct (Nat.leb_spec i a); destruct (Nat.ltb_spec a i); try lia; reflexivity.
    - rewrite seq_S, fold_left_app. cbn [fold_left Nat.add].
      destruct (IH ltac:(lia)) as [HdM HgM]. cbv zeta in HdM, HgM.
      set (M := fold_left _ (seq 0 k) (entries o)) in * .
      assert (Hrow : length (nth (k + i) M []) = n) by (apply (dims_length_row _ m); [exact HdM | lia]).
      assert (Hit : length (nth k Sm []) = q) by (apply (dims_length_row _ p); [exact HS | lia]).
      split.
      + destruct HdM as [Hl Hr]. split; [rewrite set_nth_length; exact Hl|].
        intros a Ha. rewrite nth_set_nth. destruct (Nat.eqb_spec (k + i) a) as [<-|].
        * destruct (Nat.ltb_spec (k + i) (length M)); [|lia]. rewrite length_splice_row by lia. exact Hrow.
        * apply Hr; exact Ha.
      + intros a b Ha Hb. unfold get at 1. rewrite nth_set_nth.
        destruct (Nat.eqb_spec (k + i) a) as [<-|Hne].
        * destruct (Nat.ltb_spec (k + i) (length M)) as [_|]; [|destruct HdM; lia].
          rewrite nth_splice_row by lia.
          destruct (Nat.leb_spec i (k + i)); [|lia]. destruct (Nat.ltb_spec (k + i) (i + S k)); [|lia].
          cbn [andb]. destruct ((j <=? b) && (b <? j + q)) eqn:Eb.
          -- unfold get. f_equal. f_equal. lia.
          -- fold (get M (k + i) b). rewrite HgM by assumption.
             destruct (Nat.ltb_spec (k + i) (i + k)); [lia|]. rewrite !andb_false_r. cbn [andb].
             reflexivity.
        * fold (get M a b). rewrite HgM by assumption.
          destruct (Nat.leb_spec i a); cbn [andb]; [|reflexivity].
          destruct (Nat.ltb_spec a (i + k)); destruct (Nat.ltb_spec a (i + S k)); try lia; reflexivity. }
  destruct (Hinv p ltac:(lia)) as [H1 H2]. split; [exact H1|]. exact H2.
Qed.

Lemma length_vsub_g (u w : @vec F) : length (vsub u w) = length u.
Proof. unfold vsub. rewrite length_map, length_enumerate. reflexivity. Qed.

Lemma length_vzero_g k : length (@vzero F _ k) = k.
Proof. apply repeat_length. Qed.

Lemma get_mzero_g m n a b : get (@mzero F _ m n) a b = nzero.
Proof.
  unfold get, mzero. destruct (Nat.lt_ge_cases a m) as [Ha|Ha].
  - rewrite (nth_map_lt _ _ _ _ 0) by (rewrite length_seq; exact Ha). unfold vzero.
    destruct (Nat.lt_ge_cases b n); [apply nth_repeat_lt; assumption|].
    apply nth_overflow. rewrite repeat_length. assumption.
  - rewrite (nth_overflow (map _ _)) by (rewrite length_map, length_seq; exact Ha). destruct b; reflexivity.
Qed.

Lemma dims_mzero_g m n : dims (@mzero F _ m n) m n.
Proof.
  unfold mzero. split; [rewrite length_map; apply length_seq|].
  intros i Hi. rewrite (nth_map_lt _ _ _ _ 0) by (rewrite length_seq; exact Hi). apply length_vzero_g.
Qed.

Lemma sorted_app_last (l : list nat) a :
  Sorted lt l -> (forall x, In x l -> x < a) -> Sorted lt (l ++ [a]).
Proof.
  induction l as [|x l IH]; intros Hs Ha; simpl; [repeat constructor|].
  inversion Hs as [|? ? Hl Hd]; subst. constructor.
  - apply IH; [exact Hl|]. intros y Hy. apply Ha. right. exact Hy.
  - destruct l as [|y l]; simpl; constructor; [apply Ha; left; reflexivity|]. inversion Hd. assumption.
Qed.

Lemma qr_project_shape ui j (u : @vec F) Rm m n :
  j < n -> length u = m -> (forall k, k < j -> length (nth k ui []) = m) ->
  dims Rm n n -> (forall k j', j' < k -> get Rm k j' = nzero) ->
  let '(u', Rm') := qr_project ui j (u, Rm) in
  length u' = m /\ dims Rm' n n /\ (forall k j', j' < k -> get Rm' k j' = nzero).
Proof.
  intros Hj Hu Hui HR HZ. unfold qr_project.
  assert (G : forall s, s <= j -> forall u Rm, length u = m -> dims Rm n n -> (forall k j', j' < k -> get Rm k j' = nzero) ->
    let '(u', Rm') := fold_left (fun '(u, Rm) jj => let factor := vdot (nth jj ui []) u in
               (vsub u (vscale (nth jj ui []) factor 0), set Rm jj j factor)) (seq 0 s) (u, Rm) in
    length u' = m /\ dims Rm' n n /\ (forall k j', j' < k -> get Rm' k j' = nzero)).
  { induction s as [|s IH]; intros Hs u0 R0 Hu0 HR0 HZ0; [simpl; auto|].
    rewrite seq_S, fold_left_app. cbn [fold_left Nat.add].
    specialize (IH ltac:(lia) u0 R0 Hu0 HR0 HZ0).
    match goal with |- context [fold_left ?f (seq 0 s) (u0, R0)] => destruct (fold_left f (seq 0 s) (u0, R0)) as [u1 R1] end. destruct IH as (Hu1 & HR1 & HZ1).
    split; [rewrite length_vsub_g; exact Hu1|]. split; [apply dims_set; exact HR1|].
    intros k j' Hk. rewrite get_set_neq; [apply HZ1; exact Hk|]. intros E. inversion E. lia. }
  apply (G j (Nat.le_refl j) u Rm Hu HR HZ).
Qed.

Lemma qr_fold_shape (A : @mat F) eps t :
  wf A = true -> t <= mcols A ->
  qr_shape (mrows A) (mcols A) t
    (fold_left (qr_column eps (mrows A) (transpose A)) (seq 0 t) ([], mzero (mcols A) (mcols A), [])).
Proof.
  intros Hw. set (m := mrows A). set (n := mcols A).
  induction t as [|t IH]; intros Ht.
  - cbn. split; [reflexivity|]. split; [intros; lia|]. split; [apply dims_mzero_g|].
    split; [intros; apply get_mzero_g|]. split; [constructor | intros x []].
  - rewrite seq_S, fold_left_app. cbn [fold_left Nat.add].
    specialize (IH ltac:(lia)).
    match goal with |- context [fold_left ?f (seq 0 t) ?a] => destruct (fold_left f (seq 0 t) a) as [[ui Rm] LD] eqn:Ef end.
    destruct IH as (Hl & Hv & HR & HZ & HS & HLD).
    unfold qr_column.
    assert (Hc : length (nth t (transpose A) []) = m).
    { rewrite nth_transpose by lia. apply length_col. }
    pose proof (qr_project_shape ui t (nth t (transpose A) []) Rm m n ltac:(lia) Hc
                  (fun k Hk => Hv k Hk) HR HZ) as Hp.
    destruct (qr_project ui t (nth t (transpose A) [], Rm)) as [u Rm'] eqn:Eq.
    destruct Hp as (Hu & HR' & HZ').
    assert (Hnth : forall v k, k < S t -> length v = m -> length (nth k (ui ++ [v]) []) = m).
    { intros v k Hk Hvl. destruct (Nat.lt_ge_cases k t).
      - rewrite app_nth1 by lia. apply Hv; exact H0.
      - rewrite app_nth2 by lia. replace (k - length ui) with 0 by lia. exact Hvl. }
    assert (HZs : forall x, (forall k j, j < k -> get (set Rm' t t x) k j = nzero)).
    { intros x k j Hk. rewrite get_set_neq by (intros E; inversion E; lia). apply HZ'; exact Hk. }
    destruct (ngtb (vsize u) eps).
    + split; [rewrite length_app, Hl; simpl; lia|]. split.
      { intros k Hk. apply Hnth; [exact Hk|]. unfold vscale. rewrite length_map, length_enumerate. exact Hu. }
      split; [apply dims_set; exact HR'|]. split; [apply HZs|]. split; [exact HS|].
      intros x Hx. specialize (HLD x Hx). lia.
    + split; [rewrite length_app, Hl; simpl; lia|]. split.
      { intros k Hk. apply Hnth; [exact Hk | apply length_vzero_g]. }
      split; [apply dims_set; exact HR'|]. split; [apply HZs|]. split.
      * apply sorted_app_last; [exact HS|]. intros x Hx. specialize (HLD x Hx). exact HLD.
      * intros x Hx. apply in_app_or in Hx. destruct Hx as [Hx|[<-|[]]]; [specialize (HLD x Hx)|]; lia.
Qed.

(** X10: For a well-formed [m x n] matrix with [n >= 1], [QR(ε)] returns [Q] of size [m x n], [R] of size [n x n] with exact zeros below the diagonal, and a strictly increasing list [LD] of columns below [n]; afterwards [rank] reads [n - length LD], whatever tolerance it is called with. *)
Theorem QR_shape (A : @mat F) eps eps' :
  wf A = true -> 0 < mcols A ->
  let d := fst (m_QR (fresh A) eps) in
  dims (qr_Q d) (mrows A) (mcols A) /\ dims (qr_R d) (mcols A) (mcols A) /\
  (forall k j, j < k -> get (qr_R d) k j = nzero) /\
  Sorted lt (qr_LD d) /\ (forall x, In x (qr_LD d) -> x < mcols A) /\
  fst (m_rank (snd (m_QR (fresh A) eps)) eps') = mcols A - length (qr_LD d).
Proof.
  intros Hw Hn. pose proof (qr_fold_shape A eps (mcols A) Hw (Nat.le_refl _)) as Hs.
  cbv zeta. change (fst (m_QR (fresh A) eps)) with (QR_compute A eps).
  change (fst (m_rank (snd (m_QR (fresh A) eps)) eps')) with (mcols A - length (qr_LD (QR_compute A eps))).
  unfold QR_compute.
  destruct (fold_left _ _ _) as [[ui Rm] LD]. cbn [qr_Q qr_R qr_LD].
  destruct Hs as (Hl & Hv & HR & HZ & HS & HLD).
  assert (Hc : mcols ui = mrows A).
  { destruct ui as [|u0 ui]; [simpl in Hl; lia|]. apply (Hv 0); lia. }
  split; [|split; [exact HR|split; [exact HZ|split; [exact HS|split; [exact HLD|reflexivity]]]]].
  rewrite <- Hc. replace (mcols A) with (mrows ui) by exact Hl. apply dims_transpose.
Qed.

Lemma fold_ext_in {T U : Type} (f g : T -> U -> T) (l : list U) (a : T) :
  (forall x a, In x l -> f a x = g a x) -> fold_left f l a = fold_left g l a.
Proof.
  revert a; induction l as [|x l IH]; intros a Hfg; simpl; [reflexivity|].
  rewrite Hfg by (left; reflexivity). apply IH. intros; apply Hfg; right; assumption.
Qed.

Lemma fold_map_seq {T U : Type} (f : T -> U -> T) (g : nat -> U) (l : list nat) (a : T) :
  fold_left f (map g l) a = fold_left (fun acc x => f acc (g x)) l a.
Proof. revert a; induction l as [|x l IH]; intros a; simpl; [reflexivity|apply IH]. Qed.

Lemma mat_ext M N m n :
  dims M m n -> dims N m n -> (forall a b, a < m -> b < n -> get M a b = get N a b) -> M = N.
Proof.
  intros [HMl HMr] [HNl HNr] He. apply (nth_ext _ _ [] []); [mlia|].
  intros a Ha. assert (Ha' : a < m) by mlia.
  apply (nth_ext _ _ nzero nzero); [rewrite HMr, HNr by exact Ha'; reflexivity|].
  intros b Hb. rewrite HMr in Hb by exact Ha'. apply He; assumption.
Qed.

Lemma dims_wf M m n : dims M m n -> wf M = true.
Proof.
  intros HD. unfold wf. apply forallb_forall. intros r Hr. apply Nat.eqb_eq.
  apply (In_nth _ _ []) in Hr as (i & Hi & <-). destruct HD as [HMl HMr].
  assert (Hm : 0 < m) by mlia.
  rewrite (mcols_dims M m n (conj HMl HMr) Hm). apply HMr. mlia.
Qed.

Lemma dims_mult_any M N : dims (mult M N) (mrows M) (mcols N).
Proof.
  unfold mult. split; [apply length_map|]. intros i Hi. unfold mrows in Hi.
  rewrite (nth_map_lt _ _ _ _ []) by exact Hi. rewrite length_map. apply length_seq.
Qed.

Lemma get_mult_fold M N a b :
  a < mrows M -> b < mcols N ->
  get (mult M N) a b = fold_left (fun acc '(j, v) => acc +. v *. get N j b) (enumerate (nth a M [])) nzero.
Proof.
  intros Ha Hb. unfold get at 1, mult. rewrite (nth_map_lt _ _ _ _ []) by exact Ha.
  rewrite (nth_map_lt _ _ _ _ 0) by (rewrite length_seq; exact Hb). rewrite seq_nth by exact Hb. reflexivity.
Qed.

Section Comm.
Hypothesis nmul_comm : forall x y : F, x *. y = y *. x.

Theorem normal_symmetric_gen (A : @mat F) :
  wf A = true ->
  match m_normal (fresh A) with
  | Ok (N, _) => dims N (mcols A) (mcols A) /\ transpose N = N
  | Throw _ => 0 < mrows A /\ mcols A = 0
  end.
Proof.
  intros Hw. pose proof (wf_dims A Hw) as Hd.
  unfold m_normal, m_mult. cbn [m_transpose fresh ocache c_transpose empty_cache entries upd_cache].
  destruct (Nat.eq_dec (mcols A) 0) as [Hn0|Hn0].
  - assert (Ht : transpose A = []) by (unfold transpose; rewrite Hn0; reflexivity). rewrite Ht.
    destruct A as [|r0 A'] eqn:EA; [cbn; split; [split; [reflexivity | intros; lia] | reflexivity]|].
    cbn. split; [lia | exact Hn0].
  - assert (Hm0 : 0 < mrows A) by (destruct A; [cbn in Hn0; lia | cbn; lia]).
    rewrite mcols_transpose by lia. rewrite Nat.eqb_refl. cbn [negb].
    set (m := mrows A) in * . set (n := mcols A) in * .
    assert (HN : dims (mult (transpose A) A) n n).
    { pose proof (dims_mult_any (transpose A) A) as D. unfold mrows in D. rewrite length_transpose in D. exact D. }
    assert (HmN : mcols (mult (transpose A) A) = n) by (apply (mcols_dims _ n n HN); lia).
    split; [exact HN|].
    assert (HT : dims (transpose (mult (transpose A) A)) n n).
    { pose proof (dims_transpose (mult (transpose A) A)) as D. rewrite HmN in D.
      destruct HN as [HNl _]. unfold mrows in D. rewrite HNl in D. exact D. }
    apply (mat_ext _ _ n n HT HN).
    intros a b Ha Hb.
    rewrite get_transpose by (rewrite ?HmN; unfold mrows; destruct HN as [HNl _]; try rewrite HNl; assumption).
    assert (Hlt : mrows (transpose A) = n) by apply length_transpose.
    rewrite !get_mult_fold by (rewrite ?Hlt; assumption).
    rewrite !nth_transpose by assumption. unfold col.
    rewrite !(enumerate_seq _ nzero), !length_map, !fold_map_seq. apply fold_ext_in.
    intros j acc Hj'. apply in_seq in Hj'. rewrite !(nth_map_lt _ _ _ _ []) by lia. rewrite nmul_comm. reflexivity.
Qed.

Lemma mcols_mult M N : 0 < mrows M -> mcols (mult M N) = mcols N.
Proof.
  intros Hm. destruct M as [|r M]; [cbn in Hm; lia|]. cbn. rewrite length_map, length_seq. reflexivity.
Qed.

Theorem transpose_mult_gen (A B : @mat F) :
  wf A = true -> wf B = true -> mrows B = mcols A -> 0 < mrows A ->
  transpose (mult A B) = mult (transpose B) (transpose A).
Proof.
  intros HwA HwB Hk Hm. pose proof (wf_dims A HwA) as HA. pose proof (wf_dims B HwB) as HB.
  destruct (Nat.eq_dec (mcols A) 0) as [Hk0|Hk0].
  - destruct B as [|rb B']; [|cbn in Hk; lia].
    unfold transpose at 1. rewrite mcols_mult by exact Hm. reflexivity.
  - set (m := mrows A) in * . set (k := mcols A) in * . set (n := mcols B).
    assert (HAB : dims (mult A B) m n) by apply dims_mult_any.
    assert (HcAB : mcols (mult A B) = n) by (apply mcols_mult; exact Hm).
    assert (HL : dims (transpose (mult A B)) n m).
    { pose proof (dims_transpose (mult A B)) as D. rewrite HcAB in D. unfold mrows in D.
      destruct HAB as [HABl _]. rewrite HABl in D. exact D. }
    assert (HtA : mcols (transpose A) = m) by (apply mcols_transpose; lia).
    assert (HR : dims (mult (transpose B) (transpose A)) n m).
    { pose proof (dims_mult_any (transpose B) (transpose A)) as D.
      rewrite HtA in D. unfold mrows in D. rewrite length_transpose in D. exact D. }
    apply (mat_ext _ _ n m HL HR). intros a b Ha Hb.
    rewrite get_transpose by (rewrite ?HcAB; unfold mrows; destruct HAB as [HABl _]; rewrite ?HABl; assumption).
    rewrite get_mult_fold by (unfold mrows; assumption).
    rewrite get_mult_fold by (unfold mrows; rewrite ?length_transpose, ?HtA; assumption).
    rewrite nth_transpose by exact Ha. unfold col.
    rewrite !(enumerate_seq _ nzero), !length_map, !fold_map_seq.
    destruct HA as [_ HAr]. rewrite (HAr b Hb). change (length B) with (mrows B). rewrite Hk. apply fold_ext_in.
    intros j acc Hj. apply in_seq in Hj.
    rewrite (nth_map_lt _ _ _ _ []) by (unfold mrows in Hk; mlia).
    rewrite get_transpose by (fold k; lia). unfold get. rewrite nmul_comm. reflexivity.
Qed.
End Comm.
End S.

Section S2.
Context {F : Type} `{Num F}.
Implicit Types M A : @mat F.

Lemma add_result A B c :
  wf A = true ->
  match add A B c with
  | Throw _ => mrows A <> mrows B \/ mcols A <> mcols B
  | Ok C => mrows A = mrows B /\ mcols A = mcols B /\ dims C (mrows A) (mcols A) /\
      forall a b, a < mrows A -> b < mcols A -> get C a b = get A a b +. c *. get B a b
  end.
Proof.
  intros Hw. destruct (wf_dims A Hw) as [HAl HAr]. unfold add.
  destruct (Nat.eqb_spec (mrows A) (mrows B)) as [Hm|Hm]; [|left; exact Hm].
  destruct (Nat.eqb_spec (mcols A) (mcols B)) as [Hn|Hn]; [|right; exact Hn]. cbn [negb orb].
  split; [exact Hm|]. split; [exact Hn|].
  rewrite (enumerate_seq _ []), map_map.
  assert (Hrow : forall a, a < mrows A ->
            nth a (map (fun x => let '(i, row) := (x, nth x A []) in vadd row (nth i B []) c 0) (seq 0 (length A))) [] =
            vadd (nth a A []) (nth a B []) c 0).
  { intros a Ha. rewrite (nth_map_lt _ _ _ _ 0) by (rewrite length_seq; exact Ha). rewrite seq_nth by exact Ha. reflexivity. }
  split; [split|].
  - rewrite length_map, length_seq. reflexivity.
  - intros a Ha. rewrite Hrow by exact Ha. rewrite length_vadd. apply HAr. exact Ha.
  - intros a b Ha Hb. unfold get at 1. rewrite Hrow by exact Ha.
    rewrite nth_vadd by (rewrite HAr; assumption). reflexivity.
Qed.

(** X11: For a well-formed [A], [A.add(B, c)] throws when the two matrices differ in the number of rows or of columns, and otherwise gives the matrix with the dimensions of [A] and entries [A[a][b] + c * B[a][b]]. *)
Theorem add_spec A B c :
  wf A = true ->
  match add A B c with
  | Throw _ => mrows A <> mrows B \/ mcols A <> mcols B
  | Ok C => mrows A = mrows B /\ mcols A = mcols B /\ dims C (mrows A) (mcols A) /\
      forall a b, a < mrows A -> b < mcols A -> get C a b = get A a b +. c *. get B a b
  end.
Proof. exact (add_result A B c). Qed.

Section Perm.
Hypothesis m00 : nzero *. nzero = nzero.
Hypothesis m01 : nzero *. none = nzero.
Hypothesis m10 : none *. nzero = nzero.
Hypothesis m11 : none *. none = none.
Hypothesis a00 : nzero +. nzero = nzero.
Hypothesis a01 : nzero +. none = none.
Hypothesis a10 : none +. nzero = none.

Lemma fold_01 (f g : nat -> bool) l (acc : F) :
  (acc = nzero \/ acc = none) ->
  (forall j, In j l -> f j = true -> g j = true -> acc = nzero /\ forall k, In k l -> k <> j -> f k && g k = false) ->
  NoDup l ->
  fold_left (fun a j => a +. (if f j then none else nzero) *. (if g j then none else nzero)) l acc =
  if existsb (fun j => f j && g j) l then none else acc.
Proof.
  revert acc. induction l as [|x l IH]; intros acc Hacc Hone Hnd; [reflexivity|].
  cbn [fold_left existsb]. inversion Hnd as [|? ? Hx Hnd']; subst.
  destruct (f x) eqn:Fx, (g x) eqn:Gx; cbn [andb orb];
    rewrite ?m00, ?m01, ?m10, ?m11.
  1: { destruct (Hone x (or_introl eq_refl) Fx Gx) as [-> Hk]. rewrite a01.
    rewrite IH; [|right; reflexivity| |exact Hnd'].
    - destruct (existsb _ l) eqn:Ex; [|reflexivity]. apply existsb_exists in Ex as (k & Hk' & Ek).
      rewrite (Hk k (or_intror Hk')) in Ek by (intros ->; contradiction). discriminate.
    - intros j Hj Fj Gj. exfalso. specialize (Hk j (or_intror Hj) ltac:(intros ->; contradiction)).
      rewrite Fj, Gj in Hk. discriminate. }
  all: assert (Hacc' : acc +. nzero = acc) by (destruct Hacc as [->| ->]; [exact a00 | exact a10]);
      rewrite Hacc'; apply IH; [exact Hacc | | exact Hnd'];
      intros j Hj Fj Gj; destruct (Hone j (or_intror Hj) Fj Gj) as [Ha Hk];
      split; [exact Ha | intros k Hk' Hne; exact (Hk k (or_intror Hk') Hne)].
Qed.

Lemma nth_ve i n c j : j < n -> nth j (@ve F _ i n c) nzero = if j =? i then c else nzero.
Proof.
  intros Hj. unfold ve. rewrite (nth_map_lt _ _ _ _ 0) by (rewrite length_seq; exact Hj).
  rewrite seq_nth by exact Hj. reflexivity.
Qed.

Lemma dims_permutation_g (P : list nat) : dims (permutation (F:=F) P) (length P) (length P).
Proof.
  unfold permutation. split; [apply length_map|]. intros i Hi.
  rewrite (nth_map_lt _ _ _ _ 0) by exact Hi. unfold ve. rewrite length_map, length_seq. reflexivity.
Qed.

Theorem permutation_orthogonal_gen (P : list nat) :
  NoDup P -> (forall x, In x P -> x < length P) ->
  mult (permutation P) (transpose (permutation P)) = identity (length P) none.
Proof.
  intros Hnd Hlt. set (n := length P).
  destruct (Nat.eq_dec n 0) as [Hn0|Hn0].
  { unfold n in Hn0. destruct P; [reflexivity|cbn in Hn0; lia]. }
  pose proof (dims_permutation_g P) as HP. fold n in HP.
  assert (HcP : mcols (permutation (F:=F) P) = n) by (apply (mcols_dims _ n n HP); lia).
  assert (HT : dims (transpose (permutation (F:=F) P)) n n).
  { pose proof (dims_transpose (permutation (F:=F) P)) as D. rewrite HcP in D.
    destruct HP as [HPl _]. unfold mrows in D. rewrite HPl in D. exact D. }
  assert (HcT : mcols (transpose (permutation (F:=F) P)) = n) by (apply (mcols_dims _ n n HT); lia).
  assert (HM : dims (mult (permutation P) (transpose (permutation P))) n n).
  { pose proof (dims_mult_any (permutation (F:=F) P) (transpose (permutation P))) as D.
    rewrite HcT in D. destruct HP as [HPl _]. unfold mrows in D. rewrite HPl in D. exact D. }
  apply (mat_ext _ _ n n HM (dims_identity n none)). intros a b Ha Hb.
  rewrite get_identity by assumption.
  destruct HP as [HPl HPr].
  rewrite get_mult_fold by (unfold mrows; rewrite ?HPl, ?HcT; assumption).
  assert (Hrow : nth a (permutation (F:=F) P) [] = ve (nth a P 0) n none)
    by (unfold permutation; rewrite (nth_map_lt _ _ _ _ 0) by exact Ha; reflexivity).
  rewrite Hrow, (enumerate_seq _ nzero), fold_map_seq.
  replace (length (ve (nth a P 0) n none)) with n by (unfold ve; rewrite length_map, length_seq; reflexivity).
  rewrite (fold_ext_in _ (fun acc j => acc +. (if j =? nth a P 0 then none else nzero) *. (if j =? nth b P 0 then none else nzero))).
  2:{ intros j acc Hj. apply in_seq in Hj. rewrite nth_ve by lia.
      rewrite get_transpose by (rewrite ?HcP; unfold mrows; rewrite ?HPl; lia).
      unfold get, permutation. rewrite (nth_map_lt _ _ _ _ 0) by exact Hb. rewrite nth_ve by lia. reflexivity. }
  rewrite fold_01; [| left; reflexivity | | apply seq_NoDup].
  - destruct (existsb _ _) eqn:Ex.
    + apply existsb_exists in Ex as (j & _ & Ej). apply andb_true_iff in Ej as [E1 E2].
      apply Nat.eqb_eq in E1, E2. rewrite E1 in E2.
      assert (a = b) as <- by (apply (proj1 (NoDup_nth P 0) Hnd); [exact Ha | exact Hb | congruence]).
      rewrite Nat.eqb_refl. reflexivity.
    + destruct (Nat.eqb_spec a b) as [->|Hne]; [|reflexivity].
      assert (Hin : In (nth b P 0) (seq 0 n)) by (apply in_seq; split; [lia | apply Hlt, nth_In; exact Hb]).
      assert (Ht : existsb (fun j => (j =? nth b P 0) && (j =? nth b P 0)) (seq 0 n) = true)
        by (apply existsb_exists; exists (nth b P 0); split; [exact Hin | rewrite Nat.eqb_refl; reflexivity]).
      rewrite Ex in Ht. discriminate.
  - intros j Hj Fj Gj. split; [reflexivity|]. intros k Hk Hne. apply Nat.eqb_eq in Fj.
    destruct (Nat.eqb_spec k (nth a P 0)); [lia|reflexivity].
Qed.
End Perm.

End S2.

(** Instances of the generic statements above in binary64. *)
#[local] Existing Instance Binary64.num.

Lemma transpose_transpose_witness :
  let A := [[Binary64.of_Z 1; Binary64.of_Z 2; Binary64.of_Z 3];
            [Binary64.of_Z 4; Binary64.of_Z 5; Binary64.of_Z 6]] in
  (wf A = true /\ 0 < mcols A) /\ transpose (transpose A) = A.
Proof.
  cbv zeta. split; [split; [reflexivity | simpl; lia]|].
  apply transpose_transpose; [reflexivity | simpl; lia].
Defined.

Lemma isLowerTri_transpose_witness :
  let A := [[Binary64.of_Z 1; Binary64.of_Z 2]; [Binary64.of_Z 0; Binary64.of_Z 4]] in
  wf A = true /\ isLowerTri (transpose A) (Binary64.of_Z 0) = isUpperTri A (Binary64.of_Z 0).
Proof. cbv zeta. split; [reflexivity|]. apply isLowerTri_transpose. reflexivity. Defined.

Lemma identity_diag_unip_witness :
  (ngtb (nabs nzero) (Binary64.of_Z 0) = false /\ ngtb (nabs (none -. none)) (Binary64.of_Z 0) = false) /\
  (isDiagonal (identity 3 (Binary64.of_Z 2)) (Binary64.of_Z 0) = true /\
   isUpperUnip (identity 3 none) (Binary64.of_Z 0) = true /\
   isLowerUnip (identity 3 none) (Binary64.of_Z 0) = true).
Proof.
  split; [split; vm_compute; reflexivity|].
  apply (identity_diag_unip (Binary64.of_Z 0)); vm_compute; reflexivity.
Defined.

Lemma PLU_LU_triangular_witness :
  let A := [[Binary64.of_Z 1; Binary64.of_Z 2]; [Binary64.of_Z 3; Binary64.of_Z 4]] in
  (ngtb (nabs nzero) (Binary64.of_Z 0) = false /\ ngtb (nabs (none -. none)) (Binary64.of_Z 0) = false /\
   wf A = true) /\
  let d := fst (m_PLU (fresh A) (Binary64.tenth_pow 10)) in
  isLowerUnip (plu_L d) (Binary64.of_Z 0) = true /\ isUpperTri (plu_U d) (Binary64.of_Z 0) = true.
Proof.
  cbv zeta. split; [split; [|split]; vm_compute; reflexivity|].
  apply (PLU_LU_triangular (Binary64.of_Z 0)); vm_compute; reflexivity.
Defined.

Lemma PLU_shape_witness :
  let A := [[Binary64.of_Z 1; Binary64.of_Z 2; Binary64.of_Z 3];
            [Binary64.of_Z 2; Binary64.of_Z 4; Binary64.of_Z 6]] in
  wf A = true /\
  let d := fst (m_PLU (fresh A) (Binary64.tenth_pow 10)) in
  let m := mrows A in let n := mcols A in
  Permutation (plu_P d) (seq 0 m) /\
  dims (plu_L d) m m /\ dims (plu_U d) m n /\ dims (plu_E d) m m /\
  map fst (plu_pivots d) = seq 0 (length (plu_pivots d)) /\
  Sorted lt (map snd (plu_pivots d)) /\
  (forall k, k < length (plu_pivots d) ->
     snd (nth k (plu_pivots d) (0, 0)) < n /\
     ngtb (nabs (get (plu_U d) k (snd (nth k (plu_pivots d) (0, 0))))) (Binary64.tenth_pow 10) = true) /\
  length (plu_pivots d) <= Nat.min m n.
Proof. cbv zeta. split; [reflexivity|]. apply PLU_shape. reflexivity. Defined.

Lemma rank_nullity_witness :
  let A := [[Binary64.of_Z 1; Binary64.of_Z 2; Binary64.of_Z 3];
            [Binary64.of_Z 2; Binary64.of_Z 4; Binary64.of_Z 6]] in
  wf A = true /\
  let r := fst (m_rank (fresh A) (Binary64.tenth_pow 10)) in
  r = length (plu_pivots (fst (m_PLU (fresh A) (Binary64.tenth_pow 10)))) /\ r <= Nat.min (mrows A) (mcols A) /\
  fst (m_nullity (fresh A) (Binary64.tenth_pow 10)) + r = mcols A /\
  (fst (m_isInvertible (fresh A) (Binary64.tenth_pow 10)) = true <-> isSquare A = true /\ r = mrows A) /\
  fst (m_isSingular (fresh A) (Binary64.tenth_pow 10)) = negb (fst (m_isInvertible (fresh A) (Binary64.tenth_pow 10))).
Proof. cbv zeta. split; [reflexivity|]. apply rank_nullity. reflexivity. Defined.

Lemma rowSwap_involutive_witness :
  let M := [[Binary64.of_Z 1; Binary64.of_Z 2]; [Binary64.of_Z 3; Binary64.of_Z 4];
            [Binary64.of_Z 5; Binary64.of_Z 6]] in
  (0 < mrows M /\ 2 < mrows M) /\ rowSwap (rowSwap M 0 2) 0 2 = M.
Proof. cbv zeta. split; [split; simpl; lia|]. apply rowSwap_involutive; simpl; lia. Defined.

Lemma insertSubmatrix_spec_witness :
  let A := [[Binary64.of_Z 1; Binary64.of_Z 2; Binary64.of_Z 3];
            [Binary64.of_Z 4; Binary64.of_Z 5; Binary64.of_Z 6];
            [Binary64.of_Z 7; Binary64.of_Z 8; Binary64.of_Z 9]] in
  let Sm := [[Binary64.of_Z 0; Binary64.of_Z 0]; [Binary64.of_Z 0; Binary64.of_Z 0]] in
  (dims (entries (fresh A)) 3 3 /\ wf Sm = true) /\
  (3 < 1 + mrows Sm -> m_insertSubmatrix (fresh A) 1 1 Sm = Throw "TypeError"%string) /\
  (1 + mrows Sm <= 3 -> 1 + mcols Sm <= 3 ->
   exists o', m_insertSubmatrix (fresh A) 1 1 Sm = Ok o' /\ ocache o' = ocache (fresh A) /\
   dims (entries o') 3 3 /\
   forall a b, a < 3 -> b < 3 ->
     get (entries o') a b =
     if (1 <=? a) && (a <? 1 + mrows Sm) && (1 <=? b) && (b <? 1 + mcols Sm)
     then get Sm (a - 1) (b - 1) else get (entries (fresh A)) a b).
Proof.
  cbv zeta. split; [split; [apply wf_dims; reflexivity | reflexivity]|].
  apply insertSubmatrix_spec; [apply wf_dims; reflexivity | reflexivity].
Defined.

Lemma QR_shape_witness :
  let A := [[Binary64.of_Z 1; Binary64.of_Z 2]; [Binary64.of_Z 2; Binary64.of_Z 4];
            [Binary64.of_Z 0; Binary64.of_Z 0]] in
  (wf A = true /\ 0 < mcols A) /\
  let d := fst (m_QR (fresh A) (Binary64.tenth_pow 10)) in
  dims (qr_Q d) (mrows A) (mcols A) /\ dims (qr_R d) (mcols A) (mcols A) /\
  (forall k j, j < k -> get (qr_R d) k j = nzero) /\
  Sorted lt (qr_LD d) /\ (forall x, In x (qr_LD d) -> x < mcols A) /\
  fst (m_rank (snd (m_QR (fresh A) (Binary64.tenth_pow 10))) (Binary64.of_Z 0)) = mcols A - length (qr_LD d).
Proof.
  cbv zeta. split; [split; [reflexivity | simpl; lia]|].
  apply QR_shape; [reflexivity | simpl; lia].
Defined.

Lemma add_spec_witness :
  let A := [[Binary64.of_Z 1; Binary64.of_Z 2]; [Binary64.of_Z 3; Binary64.of_Z 4]] in
  let B := [[Binary64.of_Z 5; Binary64.of_Z 6]] in
  wf A = true /\
  match add A B (Binary64.of_Z 2) with
  | Throw _ => mrows A <> mrows B \/ mcols A <> mcols B
  | Ok C => mrows A = mrows B /\ mcols A = mcols B /\ dims C (mrows A) (mcols A) /\
      forall a b, a < mrows A -> b < mcols A -> get C a b = get A a b +. Binary64.of_Z 2 *. get B a b
  end.
Proof. cbv zeta. split; [reflexivity|]. apply add_spec. reflexivity. Defined.

End ShapeFacts.

Module FloatFacts.
Import MatrixLemmas PLUInvariant ShapeFacts.
#[local] Existing Instance Binary64.num.

Lemma SFmul_comm p e x y : SFmul p e x y = SFmul p e y x.
Proof.
  destruct x as [sx|sx| |sx mx ex], y as [sy|sy| |sy my ey]; simpl; try reflexivity;
  rewrite ?(xorb_comm sx sy), ?(Pos.mul_comm mx my), ?(Z.add_comm ex ey); reflexivity.
Qed.


Lemma b64_mul_comm (x y : spec_float) : x *. y = y *. x.
Proof. apply SFmul_comm. Qed.

(** X13: In binary64, for a well-formed [A], [normal] ([Aᵀ A]) is an [n x n] matrix equal to its own transpose, bit for bit; it throws only when [A] has rows but no columns. *)
Theorem normal_symmetric (A : @mat spec_float) :
  wf A = true ->
  match m_normal (fresh A) with
  | Ok (N, _) => dims N (mcols A) (mcols A) /\ transpose N = N
  | Throw _ => (0 < mrows A)%nat /\ mcols A = 0%nat
  end.
Proof. apply normal_symmetric_gen. exact b64_mul_comm. Qed.

(** X14: In binary64, for a well-formed [A] with at least one row and a well-formed [B] with as many rows as [A] has columns, the transpose of [A B] is exactly [Bᵀ Aᵀ]. *)
Theorem transpose_mult (A B : @mat spec_float) :
  wf A = true -> wf B = true -> mrows B = mcols A -> (0 < mrows A)%nat ->
  transpose (mult A B) = mult (transpose B) (transpose A).
Proof. apply transpose_mult_gen. exact b64_mul_comm. Qed.

(** X15: In binary64, for a list [P] of distinct indices below its length, [Matrix.permutation(P)] times its transpose is exactly [Matrix.identity(length P)]. *)
Theorem permutation_orthogonal (P : list nat) :
  NoDup P -> (forall x, In x P -> (x < length P)%nat) ->
  mult (permutation (F:=spec_float) P) (transpose (permutation P)) = identity (length P) none.
Proof. apply permutation_orthogonal_gen; vm_compute; reflexivity. Qed.

Lemma sub_self_abs (x : spec_float) : SFabs (SFsub Binary64.prec Binary64.emax x x) = S754_zero false \/
                                      SFabs (SFsub Binary64.prec Binary64.emax x x) = S754_nan.
Proof.
  destruct x as [s|s| |s m e]; cbn [SFsub].
  - destruct s; left; reflexivity.
  - destruct s; right; reflexivity.
  - right; reflexivity.
  - left. rewrite Z.sub_diag. reflexivity.
Qed.

(** X16: In binary64, [A.equals(A, ε)] is true for every matrix [A] and every [ε] that is not below [0] (NaN included), even when [A] has NaN or infinite entries. *)
Theorem equals_reflexive (A : @mat spec_float) eps :
  SFltb eps (S754_zero false) = false -> mequals A A eps = true.
Proof.
  intros He. unfold mequals. rewrite !Nat.eqb_refl. cbn [andb].
  apply forallb_forall. intros [i row] Hin. rewrite (enumerate_seq _ []) in Hin.
  apply in_map_iff in Hin as (i' & Eq & _). injection Eq as E1 E2; subst.
  unfold vequals. rewrite Nat.eqb_refl. cbn [andb].
  apply forallb_forall. intros [k x] Hin. rewrite (enumerate_seq _ nzero) in Hin.
  apply in_map_iff in Hin as (k' & Eq & _). injection Eq as E1 E2; subst.
  cbn [ngtb nltb nabs nsub Binary64.num].
  match goal with |- context [SFsub _ _ ?a ?b] =>
    replace b with a by reflexivity; destruct (sub_self_abs a) as [E|E]; rewrite E; [|destruct eps; reflexivity] end.
  rewrite He. reflexivity.
Qed.

Lemma normal_symmetric_witness :
  let A := [[Binary64.tenth_pow 1; Binary64.of_Z 2]; [Binary64.of_Z 3; Binary64.tenth_pow 2];
            [Binary64.of_Z 5; Binary64.of_Z 7]] in
  wf A = true /\
  match m_normal (fresh A) with
  | Ok (N, _) => dims N (mcols A) (mcols A) /\ transpose N = N
  | Throw _ => (0 < mrows A)%nat /\ mcols A = 0%nat
  end.
Proof. cbv zeta. split; [reflexivity|]. apply normal_symmetric. reflexivity. Defined.

Lemma transpose_mult_witness :
  let A := [[Binary64.tenth_pow 1; Binary64.of_Z 2; Binary64.of_Z 3];
            [Binary64.of_Z 4; Binary64.tenth_pow 2; Binary64.of_Z 6]] in
  let B := [[Binary64.of_Z 1; Binary64.tenth_pow 3]; [Binary64.of_Z 0; Binary64.of_Z 1];
            [Binary64.tenth_pow 1; Binary64.of_Z 2]] in
  (wf A = true /\ wf B = true /\ mrows B = mcols A /\ (0 < mrows A)%nat) /\
  transpose (mult A B) = mult (transpose B) (transpose A).
Proof.
  cbv zeta. split; [split; [|split; [|split]]; [reflexivity | reflexivity | reflexivity | simpl; lia]|].
  apply transpose_mult; [reflexivity | reflexivity | reflexivity | simpl; lia].
Defined.

Lemma permutation_orthogonal_witness :
  (NoDup [2; 0; 1] /\ (forall x, In x [2; 0; 1] -> (x < length [2; 0; 1])%nat)) /\
  mult (permutation (F:=spec_float) [2; 0; 1]) (transpose (permutation [2; 0; 1])) =
  identity (length [2; 0; 1]) none.
Proof.
  split; [split; [repeat constructor; simpl; lia | intros x Hx; simpl in Hx; simpl; lia]|].
  apply permutation_orthogonal; [repeat constructor; simpl; lia | intros x Hx; simpl in Hx; simpl; lia].
Defined.

Lemma equals_reflexive_witness :
  let A := [[Binary64.of_Z 1; S754_nan]; [S754_infinity true; Binary64.tenth_pow 1]] in
  SFltb (Binary64.of_Z 0) (S754_zero false) = false /\ mequals A A (Binary64.of_Z 0) = true.
Proof. cbv zeta. split; [vm_compute; reflexivity|]. apply equals_reflexive. vm_compute. reflexivity. Defined.

End FloatFacts.

Module AlgebraExact.
Import MatrixLemmas PLUInvariant EchelonStructure ExactPLU RSumFacts PLUExact SolveExact InverseExact ShapeFacts.
#[local] Existing Instance Exact.num.
Local Open Scope R_scope.


Lemma mcols_identity n c : mcols (@identity R _ n c) = n.
Proof. destruct n as [|n]; [reflexivity|]. cbn. unfold ve. rewrite length_map, length_seq. reflexivity. Qed.

Lemma mrows_identity n c : mrows (@identity R _ n c) = n.
Proof. unfold mrows, identity. rewrite length_map, length_seq. reflexivity. Qed.

(** X17: In exact arithmetic, [identity(m) A = A] for a well-formed [A] with [m] rows. *)
Theorem mult_identity_l (A : @mat R) :
  wf A = true -> mult (identity (mrows A) 1) A = A.
Proof.
  intros Hw. pose proof (wf_dims A Hw) as HA.
  assert (HD : dims (mult (identity (mrows A) 1) A) (mrows A) (mcols A)).
  { pose proof (dims_mult_any (identity (mrows A) 1) A) as D. rewrite mrows_identity in D. exact D. }
  apply (mat_ext _ _ _ _ HD HA). intros a b Ha Hb.
  rewrite get_mult by (unfold identity; rewrite ?length_map, ?length_seq; unfold mrows in *; mlia).
  destruct (dims_identity (mrows A) 1) as [_ HIr]. rewrite (HIr a Ha).
  rewrite (rsum_ext _ (fun k => (if (a =? k)%nat then 1 else 0) * get A k b)).
  - apply (rsum_delta_l (fun k => get A k b)). exact Ha.
  - intros k Hk. rewrite get_identity by assumption. reflexivity.
Qed.

(** X18: In exact arithmetic, [A identity(n) = A] for a well-formed [A] with [n] columns. *)
Theorem mult_identity_r (A : @mat R) :
  wf A = true -> mult A (identity (mcols A) 1) = A.
Proof.
  intros Hw. pose proof (wf_dims A Hw) as HA.
  assert (HD : dims (mult A (identity (mcols A) 1)) (mrows A) (mcols A)).
  { pose proof (dims_mult_any A (identity (mcols A) 1)) as D. rewrite mcols_identity in D. exact D. }
  apply (mat_ext _ _ _ _ HD HA). intros a b Ha Hb.
  rewrite get_mult by (rewrite ?mcols_identity; unfold mrows in *; assumption).
  destruct HA as [_ HAr]. rewrite (HAr a Ha).
  rewrite (rsum_ext _ (fun k => get A a k * (if (k =? b)%nat then 1 else 0))).
  - apply (rsum_delta_r (fun k => get A a k)). exact Hb.
  - intros k Hk. rewrite get_identity by assumption. reflexivity.
Qed.

(** X19: In exact arithmetic, [mult] is associative on well-formed matrices of matching sizes: [(A B) C = A (B C)]. *)
Theorem mult_assoc (A B C : @mat R) :
  wf A = true -> wf B = true -> wf C = true ->
  mrows B = mcols A -> mrows C = mcols B ->
  mult (mult A B) C = mult A (mult B C).
Proof.
  intros HwA HwB HwC HAB HBC.
  pose proof (wf_dims A HwA) as HA. pose proof (wf_dims B HwB) as HB. pose proof (wf_dims C HwC) as HC.
  assert (HL : dims (mult (mult A B) C) (mrows A) (mcols C)).
  { pose proof (dims_mult_any (mult A B) C) as D.
    replace (mrows (mult A B)) with (mrows A) in D by (unfold mrows, mult; rewrite length_map; reflexivity). exact D. }
  assert (HR : dims (mult A (mult B C)) (mrows A) (mcols C)).
  { pose proof (dims_mult_any A (mult B C)) as D.
    destruct (Nat.eq_dec (mrows B) 0) as [H0|H0].
    - destruct B as [|rb B']; [|cbn in H0; lia]. cbn in HBC.
      destruct C as [|rc C']; [exact D|cbn in HBC; lia].
    - rewrite mcols_mult in D by lia. exact D. }
  apply (mat_ext _ _ _ _ HL HR). intros a b Ha Hb.
  assert (HCp : (0 < mrows C)%nat) by (destruct C; [cbn in Hb; lia | cbn; lia]).
  assert (HBp : (0 < mrows B)%nat).
  { destruct B; [|cbn; lia]. cbn in HBC. lia. }
  rewrite get_mult by (unfold mult; rewrite ?length_map; unfold mrows in *; assumption).
  rewrite get_mult by (rewrite ?mcols_mult by lia; unfold mrows in *; assumption).
  assert (Hrow : length (nth a (mult A B) []) = mcols B).
  { unfold mult. rewrite (nth_map_lt _ _ _ _ []) by exact Ha. rewrite length_map, length_seq. reflexivity. }
  rewrite Hrow. destruct HA as [_ HAr]. rewrite (HAr a Ha).
  rewrite (rsum_ext _ (fun j => rsum (fun k => get A a k * get B k j) (mcols A) * get C j b)).
  2:{ intros j Hj. rewrite get_mult by (unfold mrows in *; assumption). rewrite (HAr a Ha). reflexivity. }
  rewrite rsum_mix. apply rsum_ext. intros k Hk.
  rewrite get_mult by (unfold mrows in *; lia).
  destruct HB as [_ HBr]. rewrite (HBr k) by lia. rewrite <- rsum_scal. apply rsum_ext. intros j Hj. lra.
Qed.

Lemma fold_nadd_sum (f : nat -> R) n x :
  fold_left nadd (map f (seq 0 n)) x = x + rsum f n.
Proof.
  revert x. induction n as [|n IH]; intros x; [simpl; lra|].
  rewrite seq_S, map_app, fold_left_app, IH. simpl. rnum. lra.
Qed.

Lemma trace_sum (M : @mat R) :
  trace M = rsum (fun j => get M j j) (Nat.min (mrows M) (mcols M)).
Proof. unfold trace, diag. rewrite fold_nadd_sum. rnum. lra. Qed.

Lemma trace_mult_sum (A B : @mat R) :
  wf A = true -> wf B = true -> mrows B = mcols A -> mcols B = mrows A ->
  trace (mult A B) = rsum (fun a => rsum (fun j => get A a j * get B j a) (mcols A)) (mrows A).
Proof.
  intros HwA HwB Hk Hm. rewrite trace_sum.
  assert (Hmin : Nat.min (mrows (mult A B)) (mcols (mult A B)) = mrows A).
  { destruct (Nat.eq_dec (mrows A) 0) as [H0|H0].
    - destruct A; [reflexivity|cbn in H0; lia].
    - rewrite mcols_mult by lia. replace (mrows (mult A B)) with (mrows A)
        by (unfold mrows, mult; rewrite length_map; reflexivity). lia. }
  rewrite Hmin. apply rsum_ext. intros a Ha.
  rewrite get_mult by (unfold mrows in *; lia).
  destruct (wf_dims A HwA) as [_ HAr]. rewrite (HAr a Ha). reflexivity.
Qed.

(** X20: In exact arithmetic, [trace(A B) = trace(B A)] for well-formed [A] ([m x n]) and [B] ([n x m]). *)
Theorem trace_mult_comm (A B : @mat R) :
  wf A = true -> wf B = true -> mrows B = mcols A -> mcols B = mrows A ->
  trace (mult A B) = trace (mult B A).
Proof.
  intros HwA HwB Hk Hm.
  rewrite (trace_mult_sum A B), (trace_mult_sum B A) by (assumption || symmetry; assumption).
  rewrite Hk, Hm, rsum_swap. apply rsum_ext. intros j Hj. apply rsum_ext. intros a Ha. lra.
Qed.

Lemma get_mult_sq (E A : @mat R) m a b :
  dims E m m -> (a < m)%nat -> (b < mcols A)%nat ->
  get (mult E A) a b = rsum (fun k => get E a k * get A k b) m.
Proof.
  intros [HEl HEr] Ha Hb. rewrite get_mult by mlia. rewrite (HEr a Ha). reflexivity.
Qed.

Lemma mult_eainv (A E U : @mat R) :
  wf A = true -> dims E (mrows A) (mrows A) -> dims U (mrows A) (mcols A) ->
  eainv A (mrows A) (mcols A) E U -> mult E A = U.
Proof.
  intros Hw HE HU Hea.
  assert (HD : dims (mult E A) (mrows A) (mcols A)).
  { pose proof (dims_mult_any E A) as D. destruct HE as [HEl _]. unfold mrows at 1 in D. rewrite HEl in D. exact D. }
  apply (mat_ext _ _ _ _ HD HU). intros a b Ha Hb.
  rewrite (get_mult_sq E A (mrows A)) by assumption. apply Hea; assumption.
Qed.

(** X21: In exact arithmetic, the [E] returned by [PLU(0)] carries a well-formed [A] to [U]: [E A = U]. *)
Theorem PLU_EA_eq_U (A : @mat R) :
  wf A = true ->
  let d := fst (m_PLU (fresh A) 0) in mult (plu_E d) A = plu_U d.
Proof.
  intros Hw. cbv zeta. cbn [m_PLU fresh ocache c_PLU empty_cache entries fst].
  destruct (plu0_ops A Hw) as (c & st & Hc & Hi & Hend & Hpc & Hea & Hinj).
  rewrite Hpc. cbn [plu_E plu_U].
  apply mult_eainv; [exact Hw | exact (pi_E _ _ _ _ _ Hi) | exact (pi_U _ _ _ _ _ Hi) | exact Hea].
Qed.

Lemma einj_mapply (E : @mat R) m (x : list R) :
  dims E m m -> einj m E -> length x = m -> mapply E x = vzero m -> x = vzero m.
Proof.
  intros [HEl HEr] Hinj Hx H0.
  assert (Hk : forall k, (k < m)%nat -> nth k x 0 = 0).
  { apply (Hinj (fun k => nth k x 0)). intros a Ha.
    assert (Ea : nth a (mapply E x) 0 = 0) by (rewrite H0; unfold vzero; apply nth_repeat).
    unfold mapply in Ea. rewrite (nth_map_lt _ _ _ _ []) in Ea by mlia.
    pose proof (HEr a Ha) as La. unfold vec, mat in La, Ea. rewrite vdot_sum, La in Ea. etransitivity; [|exact Ea]. apply rsum_ext. intros k Hk. reflexivity. }
  apply (nth_ext _ _ 0 0); [unfold vzero; rewrite repeat_length; exact Hx|].
  intros k Hk2. rewrite Hk by lia. unfold vzero. symmetry. apply nth_repeat.
Qed.

(** X22: In exact arithmetic, [rowOps(0)] of a well-formed [A] returns an [m x m] matrix [E] with [E A = rref(0)] and [E x = 0] only for [x = 0]. *)
Theorem rowOps_rref_exact (A : @mat R) :
  wf A = true ->
  match fst (m_rowOps (fresh A) 0) with
  | Some Eo =>
      dims Eo (mrows A) (mrows A) /\ mult Eo A = fst (m_rref (fresh A) 0) /\
      (forall x, length x = mrows A -> mapply Eo x = vzero (mrows A) -> x = vzero (mrows A))
  | None => False
  end.
Proof.
  intros Hw. cbn [m_rowOps m_rref m_PLU fresh ocache c_rowOps c_rref c_PLU empty_cache entries fst].
  destruct (plu0_ops A Hw) as (c & st & Hc & Hi & Hend & Hpc & Hea & Hinj).
  destruct (rref_ops_final A c st Hc Hi Hea Hinj) as (HOd & Hea' & Hinj').
  assert (Z0 : nzero = 0) by reflexivity.
  destruct (rref_compute_structure (fun x => x = 0) 0 (mrows A) (mcols A) c st Z0
              ltac:(intros x y f -> ->; rnum; ring) ltac:(intros x f ->; rnum; ring) Hc Hi Hend)
    as (HD & _).
  rewrite Hpc. destruct (rref_compute _) as [Rf Eo] eqn:ER. cbn [fst snd] in * .
  cbn [upd_cache set_rref ocache c_rowOps fst].
  split; [exact HOd|]. split; [apply mult_eainv; assumption|].
  intros x Hx H0. exact (einj_mapply Eo (mrows A) x HOd Hinj' Hx H0).
Qed.

Lemma leftNull_fresh (A : @mat R) eps :
  fst (m_leftNullBasis (fresh A) eps) =
  map (fun i => nth i (plu_E (PLU_compute A eps)) [])
      (seq (length (plu_pivots (PLU_compute A eps))) (mrows A - length (plu_pivots (PLU_compute A eps)))%nat).
Proof. reflexivity. Qed.

Lemma rank_fresh (A : @mat R) eps :
  fst (m_rank (fresh A) eps) = length (plu_pivots (PLU_compute A eps)).
Proof. reflexivity. Qed.

(** X23: In exact arithmetic, [leftNullBasis(0)] of a well-formed [A] returns [m - rank(0)] vectors of length [m], each [w] with [Aᵀ w = 0]. *)
Theorem leftNullBasis_exact (A : @mat R) :
  wf A = true ->
  let W := fst (m_leftNullBasis (fresh A) 0) in
  length W = (mrows A - fst (m_rank (fresh A) 0%R))%nat /\
  forall w, In w W -> length w = mrows A /\ mapply (transpose A) w = vzero (mcols A).
Proof.
  intros Hw. cbv zeta. rewrite leftNull_fresh, rank_fresh.
  destruct (plu0_ops A Hw) as (c & st & Hc & Hi & Hend & Hpc & Hea & Hinj).
  destruct (plu0_final A Hw) as (c' & st' & _ & Hi2 & Hpc' & _ & HUz).
  rewrite Hpc in Hpc'. injection Hpc' as EP EL EU EE Epv Es.
  rewrite Hpc. cbn [plu_E plu_pivots]. rewrite (length_pivots_inv _ _ _ _ _ Hi).
  split; [rewrite length_map, length_seq; reflexivity|].
  intros w Hin. apply in_map_iff in Hin as (i & <- & Hi'). apply in_seq in Hi'.
  destruct (pi_E _ _ _ _ _ Hi) as [HEl HEr].
  assert (Him : (i < mrows A)%nat) by lia.
  split; [exact (HEr i Him)|].
  assert (Hrow : st_row st' = st_row st)
    by (rewrite <- (length_pivots_inv _ _ _ _ _ Hi2), <- (length_pivots_inv _ _ _ _ _ Hi), Epv; reflexivity).
  apply (nth_ext _ _ 0 0).
  { unfold mapply, vzero. rewrite length_map, length_transpose, repeat_length. reflexivity. }
  intros b Hb. unfold mapply in Hb. rewrite length_map, length_transpose in Hb.
  unfold mapply. rewrite (nth_map_lt _ _ _ _ []) by (rewrite length_transpose; exact Hb).
  rewrite nth_transpose by exact Hb. unfold vzero. rewrite nth_repeat.
  rewrite vdot_sum, length_col. transitivity (get (st_U st) i b); [|rewrite EU; apply HUz; [lia|exact Hb]].
  rewrite <- (Hea i b Him Hb). apply rsum_ext. intros k Hk.
  replace (nth k (col A b) 0) with (get A k b) by (symmetry; exact (nth_col A b k Hk)).
  unfold get. rnum. ring.
Qed.

(** X25: In exact arithmetic, for a well-formed [A] with [n >= 1] and [b] of length [m], [solveLeastSquares(b, 0)] does not throw, returns some [x] solving the normal equations [Aᵀ A x = Aᵀ b], and returns null only when these have no solution. *)
Theorem solveLeastSquares_exact (A : @mat R) (b : list R) :
  wf A = true -> length b = mrows A -> (0 < mcols A)%nat ->
  let N := mult (transpose A) A in
  let y := mapply (transpose A) b in
  match m_solveLeastSquares (fresh A) b 0 with
  | Ok (Some x, _) => mapply N x = y
  | Ok (None, _) => ~ (exists x, mapply N x = y)
  | Throw _ => False
  end.
Proof.
  intros Hw Hb Hn. cbv zeta.
  unfold m_solveLeastSquares, m_normal, m_mult, m_apply.
  cbn [m_transpose fresh ocache c_transpose empty_cache entries upd_cache set_transpose].
  rewrite mcols_transpose by exact Hn. rewrite Nat.eqb_refl. cbn [negb].
  cbn [m_transpose fresh ocache c_transpose empty_cache entries upd_cache set_transpose].
  rewrite mcols_transpose by exact Hn. rewrite Hb, Nat.eqb_refl. cbn [negb].
  assert (HwN : wf (mult (transpose A) A) = true).
  { apply (dims_wf _ _ _ (dims_mult_any (transpose A) A)). }
  assert (Hy : length (mapply (transpose A) b) = mrows (mult (transpose A) A)).
  { unfold mapply, mrows, mult. rewrite !length_map. reflexivity. }
  pose proof (solve_exact (mult (transpose A) A) (mapply (transpose A) b) HwN Hy) as Hs.
  destruct (m_solve _ _ _) as [[[x|] o]|e]; exact Hs.
Qed.

(** X26: In exact arithmetic, [det] of [[a, b], [c, d]] is [a d - b c]. *)
Theorem det_2x2 (a b c d : R) :
  match m_det (fresh [[a; b]; [c; d]]) with
  | Ok (x, _) => x = a * d - b * c
  | Throw _ => False
  end.
Proof.
  cbn -[INR]. simpl INR. field.
Qed.

(** X27: In exact arithmetic, [det] of a [3 x 3] matrix is its cofactor expansion along the first row. *)
Theorem det_3x3 (a b c d e f g h i : R) :
  match m_det (fresh [[a; b; c]; [d; e; f]; [g; h; i]]) with
  | Ok (x, _) => x = a * (e * i - f * h) - b * (d * i - f * g) + c * (d * h - e * g)
  | Throw _ => False
  end.
Proof.
  cbn -[INR]. simpl INR. field.
Qed.


(** X28: In exact arithmetic, for a well-formed [A], adding [B] and then subtracting [B] gives [A] back; the addition throws only on a size mismatch. *)
Theorem add_sub_roundtrip (A B : @mat R) :
  wf A = true ->
  match add A B 1 with
  | Ok C => sub C B = Ok A
  | Throw _ => mrows A <> mrows B \/ mcols A <> mcols B
  end.
Proof.
  intros Hw. pose proof (add_result A B 1 Hw) as HC.
  destruct (add A B 1) as [C|e]; [|exact HC].
  destruct HC as (Hm & Hn & HCd & HCe).
  assert (HwC : wf C = true) by exact (dims_wf _ _ _ HCd).
  pose proof (add_result C B (nopp none) HwC) as HS. unfold sub.
  assert (HmC : mrows C = mrows A) by (destruct HCd; assumption).
  assert (HnC : mcols C = mcols A).
  { destruct (Nat.eq_dec (mrows A) 0) as [H0|H0].
    - destruct C; [|cbn in HmC; lia]. destruct A; [reflexivity|cbn in H0; lia].
    - apply (mcols_dims _ _ _ HCd). lia. }
  destruct (add C B (nopp none)) as [D|e].
  - destruct HS as (_ & _ & HDd & HDe). f_equal.
    rewrite HmC, HnC in HDd.
    apply (mat_ext _ _ _ _ HDd (wf_dims A Hw)). intros a b Ha Hb.
    rewrite HDe by (rewrite ?HmC, ?HnC; assumption). rewrite HCe by assumption. rnum. ring.
  - exfalso. destruct HS as [HS|HS]; congruence.
Qed.

Lemma nth_vscale_R (v : @vec R) c s k :
  (k < length v)%nat -> nth k (vscale v c s) 0 = if Nat.leb s k then nth k v 0 * c else nth k v 0.
Proof.
  intros Hk. unfold vscale. rewrite (enumerate_seq _ 0), map_map.
  rewrite (nth_map_lt _ _ _ _ 0%nat) by (rewrite length_seq; exact Hk). rewrite seq_nth by exact Hk. reflexivity.
Qed.

Lemma length_vscale_R (v : @vec R) c s : length (vscale v c s) = length v.
Proof. unfold vscale, enumerate. rewrite length_map, length_combine, length_seq. lia. Qed.

(** X29: In exact arithmetic, [rowScale(i, 1/c, s)] undoes [rowScale(i, c, s)] for a row [i] in range and [c <> 0]. *)
Theorem rowScale_inverse (M : @mat R) i c s :
  (i < mrows M)%nat -> c <> 0 ->
  rowScale (rowScale M i c s) i (1 / c) s = M.
Proof.
  intros Hi Hc. unfold rowScale.
  rewrite nth_set_nth_eq by exact Hi. rewrite set_nth_set_nth.
  replace (vscale (vscale (nth i M []) c s) (1 / c) s) with (nth i M []) by
    (apply (nth_ext _ _ 0 0); [rewrite !length_vscale_R; reflexivity|];
     intros k Hk; rewrite nth_vscale_R by (rewrite length_vscale_R; exact Hk); rewrite nth_vscale_R by exact Hk;
     destruct (Nat.leb s k); [rnum; field; exact Hc | reflexivity]).
  apply set_nth_same.
Qed.

(** X30: In exact arithmetic, [rowReplace(i1, i2, -c, s)] undoes [rowReplace(i1, i2, c, s)] for distinct rows [i1], [i2] in range. *)
Theorem rowReplace_inverse (M : @mat R) i1 i2 c s :
  (i1 < mrows M)%nat -> (i2 < mrows M)%nat -> i1 <> i2 ->
  rowReplace (rowReplace M i1 i2 c s) i1 i2 (- c) s = M.
Proof.
  intros H1 H2 Hne. unfold rowReplace.
  rewrite nth_set_nth_eq by exact H1. rewrite nth_set_nth_neq by exact Hne. rewrite set_nth_set_nth.
  replace (vadd (vadd (nth i1 M []) (nth i2 M []) c s) (nth i2 M []) (- c) s) with (nth i1 M []) by
    (apply (nth_ext _ _ nzero nzero); [rewrite !length_vadd; reflexivity|];
     intros k Hk; rewrite nth_vadd by (rewrite length_vadd; exact Hk); rewrite nth_vadd by exact Hk;
     destruct (Nat.leb s k); [rnum; ring | reflexivity]).
  apply set_nth_same.
Qed.

Lemma mult_identity_l_witness :
  let A := [[1; 2; 3]; [4; 5; 6]] in wf A = true /\ mult (identity (mrows A) 1) A = A.
Proof. cbv zeta. split; [reflexivity|]. apply mult_identity_l. reflexivity. Defined.

Lemma mult_identity_r_witness :
  let A := [[1; 2; 3]; [4; 5; 6]] in wf A = true /\ mult A (identity (mcols A) 1) = A.
Proof. cbv zeta. split; [reflexivity|]. apply mult_identity_r. reflexivity. Defined.

Lemma mult_assoc_witness :
  let A := [[1; 2]; [3; 4]] in let B := [[1; 0; 2]; [0; 1; 3]] in let C := [[1]; [2]; [3]] in
  (wf A = true /\ wf B = true /\ wf C = true /\ mrows B = mcols A /\ mrows C = mcols B) /\
  mult (mult A B) C = mult A (mult B C).
Proof.
  cbv zeta. split; [repeat split|].
  apply mult_assoc; reflexivity.
Defined.

Lemma trace_mult_comm_witness :
  let A := [[1; 2; 3]; [4; 5; 6]] in let B := [[1; 0]; [2; 1]; [0; 3]] in
  (wf A = true /\ wf B = true /\ mrows B = mcols A /\ mcols B = mrows A) /\
  trace (mult A B) = trace (mult B A).
Proof. cbv zeta. split; [repeat split|]. apply trace_mult_comm; reflexivity. Defined.

Lemma PLU_EA_eq_U_witness :
  let A := [[0; 2; 1]; [1; 1; 0]; [2; 4; 1]] in
  wf A = true /\ let d := fst (m_PLU (fresh A) 0) in mult (plu_E d) A = plu_U d.
Proof. cbv zeta. split; [reflexivity|]. apply PLU_EA_eq_U. reflexivity. Defined.

Lemma rowOps_rref_exact_witness :
  let A := [[0; 2; 1]; [1; 1; 0]; [2; 4; 1]] in
  wf A = true /\
  match fst (m_rowOps (fresh A) 0) with
  | Some Eo => dims Eo (mrows A) (mrows A) /\ mult Eo A = fst (m_rref (fresh A) 0) /\
      (forall x, length x = mrows A -> mapply Eo x = vzero (mrows A) -> x = vzero (mrows A))
  | None => False
  end.
Proof. cbv zeta. split; [reflexivity|]. apply rowOps_rref_exact. reflexivity. Defined.

Lemma leftNullBasis_exact_witness :
  let A := [[1; 2]; [2; 4]; [0; 1]] in
  wf A = true /\
  let W := fst (m_leftNullBasis (fresh A) 0) in
  length W = (mrows A - fst (m_rank (fresh A) 0%R))%nat /\
  forall w, In w W -> length w = mrows A /\ mapply (transpose A) w = vzero (mcols A).
Proof. cbv zeta. split; [reflexivity|]. apply leftNullBasis_exact. reflexivity. Defined.

Lemma solveLeastSquares_exact_witness :
  let A := [[1; 0]; [1; 1]; [1; 2]] in let b := [6; 0; 0] in
  (wf A = true /\ length b = mrows A /\ (0 < mcols A)%nat) /\
  let N := mult (transpose A) A in
  let y := mapply (transpose A) b in
  match m_solveLeastSquares (fresh A) b 0 with
  | Ok (Some x, _) => mapply N x = y
  | Ok (None, _) => ~ (exists x, mapply N x = y)
  | Throw _ => False
  end.
Proof.
  cbv zeta. split; [split; [reflexivity | split; [reflexivity | simpl; lia]]|].
  apply solveLeastSquares_exact; [reflexivity | reflexivity | simpl; lia].
Defined.

Lemma add_sub_roundtrip_witness :
  let A := [[1; 2]; [3; 4]] in let B := [[5; 6]; [7; 8]] in
  wf A = true /\
  match add A B 1 with
  | Ok C => sub C B = Ok A
  | Throw _ => mrows A <> mrows B \/ mcols A <> mcols B
  end.
Proof. cbv zeta. split; [reflexivity|]. apply add_sub_roundtrip. reflexivity. Defined.

Lemma rowScale_inverse_witness :
  let M := [[1; 2; 3]; [4; 5; 6]] in
  ((1 < mrows M)%nat /\ 2 <> 0) /\ rowScale (rowScale M 1 2 1) 1 (1 / 2) 1 = M.
Proof.
  cbv zeta. split; [split; [simpl; lia | lra]|].
  apply rowScale_inverse; [simpl; lia | lra].
Defined.

Lemma rowReplace_inverse_witness :
  let M := [[1; 2; 3]; [4; 5; 6]] in
  ((0 < mrows M)%nat /\ (1 < mrows M)%nat /\ 0%nat <> 1%nat) /\
  rowReplace (rowReplace M 0 1 3 0) 0 1 (- 3) 0 = M.
Proof.
  cbv zeta. split; [split; [simpl; lia | split; [simpl; lia | lia]]|].
  apply rowReplace_inverse; simpl; lia.
Defined.

End AlgebraExact.

Module NullBasisExact.
Import MatrixLemmas PLUInvariant EchelonStructure ExactPLU RSumFacts PLUExact SolveExact InverseExact ShapeFacts AlgebraExact.
#[local] Existing Instance Exact.num.
Local Open Scope R_scope.


Section NullLoop.
Variables (Rf : @mat R) (n r : nat) (ck : nat -> nat).
Hypothesis Hmono : forall k1 k2, (k1 < k2 < r)%nat -> (ck k1 < ck k2)%nat.

Lemma ck_spread p d : (p + d < r)%nat -> (ck p + d <= ck (p + d))%nat.
Proof.
  induction d as [|d IH]; intros Hd; [rewrite !Nat.add_0_r; lia|].
  assert (ck (p + d) < ck (p + S d))%nat by (apply Hmono; lia). specialize (IH ltac:(lia)). lia.
Qed.

Lemma ck_count p a len :
  (forall k, (p <= k < r)%nat -> (a <= ck k < a + len)%nat) -> (r - p <= len)%nat.
Proof.
  intros Hr. destruct (Nat.le_gt_cases r p) as [H|H]; [lia|].
  pose proof (ck_spread p (r - p - 1) ltac:(lia)) as Hs.
  pose proof (Hr p ltac:(lia)). pose proof (Hr (p + (r - p - 1))%nat ltac:(lia)). lia.
Qed.

Lemma null_loop_spec len : forall j0 p basis,
  (p <= r)%nat -> (forall k, (k < p)%nat -> (ck k < j0)%nat) ->
  (forall k, (p <= k < r)%nat -> (j0 <= ck k < j0 + len)%nat) ->
  let res := null_loop Rf n (seq j0 len) (map (fun k => (k, ck k)) (seq p (r - p)))
                       (map (fun k => (k, ck k)) (seq 0 p)) basis in
  length res = (length basis + len - (r - p))%nat /\
  forall v, In v res -> In v basis \/
    exists j q, (j0 <= j < j0 + len)%nat /\ (q <= r)%nat /\ (forall k, (k < q)%nat -> (ck k < j)%nat) /\
      (forall k, (q <= k < r)%nat -> (j < ck k)%nat) /\
      v = set_nth (fold_left (fun v '(row, col) => set_nth v col (nopp (get Rf row j)))
                             (map (fun k => (k, ck k)) (seq 0 q)) (vzero n)) j none.
Proof.
  induction len as [|len IH]; intros j0 p basis Hp Hlt Hge; cbv zeta.
  - assert (r - p = 0)%nat as -> by (destruct (Nat.le_gt_cases r p); [lia|]; specialize (Hge p ltac:(lia)); lia).
    cbn. split; [lia|]. intros v Hv. left. exact Hv.
  - rewrite <- cons_seq. destruct (r - p)%nat as [|d] eqn:Ed.
    + cbn [map seq null_loop].
      set (v := fold_left _ _ _).
      destruct (IH (S j0) p (basis ++ [set_nth v j0 none]) Hp ltac:(intros k Hk; specialize (Hlt k Hk); lia)
                  ltac:(intros k Hk; lia)) as [IHl IHm].
      rewrite Ed in IHl, IHm. cbn [seq map] in IHl, IHm. split; [rewrite IHl, length_app; cbn; lia|].
      intros w Hw. destruct (IHm w Hw) as [Hb|(j & q & Hj & Hq & Hq1 & Hq2 & ->)].
      * apply in_app_or in Hb as [Hb|[<-|[]]]; [left; exact Hb|].
        right. exists j0, p. split; [lia|]. split; [exact Hp|]. split; [exact Hlt|]. split; [intros; lia|reflexivity].
      * right. exists j, q. split; [lia|]. auto.
    + cbn [seq map null_loop].
      assert (Hd : d = (r - S p)%nat) by lia.
      destruct (Nat.eqb_spec (ck p) j0) as [Ec|Ec].
      * assert (Hprev : map (fun k => (k, ck k)) (seq 0 p) ++ [(p, ck p)] = map (fun k => (k, ck k)) (seq 0 (S p)))
          by (rewrite seq_S, map_app; reflexivity).
        rewrite Hprev, Hd.
        destruct (IH (S j0) (S p) basis ltac:(lia)
                    ltac:(intros k Hk; destruct (Nat.eq_dec k p) as [->|]; [lia|specialize (Hlt k ltac:(lia)); lia])
                    ltac:(intros k Hk; pose proof (Hmono p k ltac:(lia)); specialize (Hge k ltac:(lia)); lia))
          as [IHl IHm].
        split; [rewrite IHl; lia|].
        intros w Hw. destruct (IHm w Hw) as [Hb|(j & q & Hj & Hrest)]; [left; exact Hb|].
        right. exists j, q. split; [lia|exact Hrest].
      * set (v := fold_left _ _ _).
        assert (Hcp : (j0 < ck p)%nat) by (specialize (Hge p ltac:(lia)); lia).
        assert (Hge' : forall k, (p <= k < r)%nat -> (S j0 <= ck k < S j0 + len)%nat).
        { intros k Hk. specialize (Hge k Hk). destruct (Nat.eq_dec k p) as [->|Hne]; [lia|].
          pose proof (Hmono p k ltac:(lia)). lia. }
        pose proof (ck_count p (S j0) len Hge') as Hcnt.
        destruct (IH (S j0) p (basis ++ [set_nth v j0 none]) Hp ltac:(intros k Hk; specialize (Hlt k Hk); lia) Hge')
          as [IHl IHm].
        rewrite Ed in IHl, IHm. cbn [seq map] in IHl, IHm.
        split; [rewrite IHl, length_app; cbn; lia|].
        intros w Hw. destruct (IHm w Hw) as [Hb|(j & q & Hj & Hq & Hq1 & Hq2 & ->)].
        -- apply in_app_or in Hb as [Hb|[<-|[]]]; [left; exact Hb|].
           right. exists j0, p. split; [lia|]. split; [exact Hp|]. split; [exact Hlt|]. split; [|reflexivity].
           intros k Hk. destruct (Nat.eq_dec k p) as [->|Hne]; [lia|]. pose proof (Hmono p k ltac:(lia)). lia.
        -- right. exists j, q. split; [lia|]. auto.
Qed.
End NullLoop.

Section NullVec.
Variables (A Of Rf : @mat R) (m n r : nat) (ck : nat -> nat).
Hypothesis HA : dims A m n.
Hypothesis Hea : eainv A m n Of Rf.
Hypothesis Hinj : einj m Of.
Hypothesis Hrm : (r <= m)%nat.
Hypothesis Hck : forall k, (k < r)%nat -> (ck k < n)%nat.
Hypothesis Hmono : forall k1 k2, (k1 < k2 < r)%nat -> (ck k1 < ck k2)%nat.
Hypothesis Hleft : forall k j, (k < r)%nat -> (j < ck k)%nat -> get Rf k j = 0.
Hypothesis Hpiv : forall k, (k < r)%nat -> get Rf k (ck k) = 1.
Hypothesis Hbelow : forall i j, (r <= i < m)%nat -> (j < n)%nat -> get Rf i j = 0.
Hypothesis Habove : forall k i, (k < r)%nat -> (i < k)%nat -> get Rf i (ck k) = 0.

Lemma null_fold_length j q :
  length (fold_left (fun v '(row, col) => set_nth v col (nopp (get Rf row j)))
                    (map (fun k => (k, ck k)) (seq 0 q)) (vzero n)) = n.
Proof.
  induction q as [|q IH]; [apply repeat_length|].
  rewrite seq_S, map_app, fold_left_app. cbn. rewrite set_nth_length. exact IH.
Qed.

Lemma null_fold_nth j q b :
  (q <= r)%nat -> (b < n)%nat ->
  nth b (fold_left (fun v '(row, col) => set_nth v col (nopp (get Rf row j)))
                   (map (fun k => (k, ck k)) (seq 0 q)) (vzero n)) 0 =
  - rsum (fun k => if (b =? ck k)%nat then get Rf k j else 0) q.
Proof.
  induction q as [|q IH]; intros Hq Hb.
  - cbn. unfold vzero. rewrite nth_repeat. lra.
  - rewrite seq_S, map_app, fold_left_app. cbn [fold_left map rsum Nat.add].
    rewrite nth_set_nth, null_fold_length. rewrite IH by lia.
    destruct (Nat.eqb_spec (ck q) b) as [<-|Hne].
    + rewrite Nat.eqb_refl. assert (Hc : (ck q < n)%nat) by (apply Hck; lia).
      apply Nat.ltb_lt in Hc. rewrite Hc. rnum.
      rewrite rsum_zero; [lra|]. intros k Hk. pose proof (Hmono k q ltac:(lia)).
      destruct (Nat.eqb_spec (ck q) (ck k)); [lia|reflexivity].
    + destruct (Nat.eqb_spec b (ck q)); [lia|]. lra.
Qed.

Lemma null_vec_kernel j q :
  (j < n)%nat -> (q <= r)%nat -> (forall k, (k < q)%nat -> (ck k < j)%nat) ->
  (forall k, (q <= k < r)%nat -> (j < ck k)%nat) ->
  let v := set_nth (fold_left (fun v '(row, col) => set_nth v col (nopp (get Rf row j)))
                              (map (fun k => (k, ck k)) (seq 0 q)) (vzero n)) j none in
  length v = n /\ mapply A v = vzero m.
Proof.
  intros Hj Hq Hlt Hgt. cbv zeta.
  set (v := set_nth _ j none).
  assert (Hvl : length v = n) by (unfold v; rewrite set_nth_length; apply null_fold_length).
  assert (Hv : forall b, (b < n)%nat ->
            nth b v 0 = (if (b =? j)%nat then 1 else 0) - rsum (fun k => if (b =? ck k)%nat then get Rf k j else 0) q).
  { intros b Hb. unfold v. rewrite nth_set_nth, null_fold_length.
    destruct (Nat.eqb_spec j b) as [<-|Hne].
    - apply Nat.ltb_lt in Hj. rewrite Hj, Nat.eqb_refl. rnum.
      rewrite rsum_zero; [lra|]. intros k Hk. specialize (Hlt k Hk). destruct (Nat.eqb_spec j (ck k)); [lia|reflexivity].
    - rewrite null_fold_nth by assumption. destruct (Nat.eqb_spec b j); [lia|]. lra. }
  split; [exact Hvl|].
  assert (HR : forall i, (i < m)%nat -> rsum (fun b => get Rf i b * nth b v 0) n = 0).
  { intros i Hi.
    rewrite (rsum_ext _ (fun b => get Rf i b * (if (b =? j)%nat then 1 else 0)
                - rsum (fun k => get Rf i b * (if (b =? ck k)%nat then get Rf k j else 0)) q))
      by (intros b Hb; rewrite Hv by exact Hb; rewrite Rmult_minus_distr_l, <- rsum_scal; reflexivity).
    rewrite rsum_minus, (rsum_delta_r (fun b => get Rf i b)) by exact Hj. rewrite rsum_swap.
    rewrite (rsum_ext _ (fun k => get Rf i (ck k) * get Rf k j)).
    2:{ intros k Hk. rewrite (rsum_single _ n (ck k)); [| apply Hck; lia | intros b Hb Hne; destruct (Nat.eqb_spec b (ck k)); [lia|lra]].
        rewrite Nat.eqb_refl. reflexivity. }
    destruct (Nat.lt_ge_cases i r) as [Hir|Hir].
    - destruct (Nat.lt_ge_cases i q) as [Hiq|Hiq].
      + rewrite (rsum_single _ q i Hiq).
        * rewrite Hpiv by exact Hir. lra.
        * intros k Hk Hne. destruct (Nat.lt_ge_cases i k).
          -- rewrite Habove by lia. lra.
          -- rewrite (Hleft i (ck k)) by (lia || (apply Hmono; lia)). lra.
      + rewrite (Hleft i j) by (lia || (apply Hgt; lia)). rewrite rsum_zero; [lra|].
        intros k Hk. rewrite (Hleft i (ck k)) by (lia || (apply Hmono; lia)). lra.
    - rewrite Hbelow by lia. rewrite rsum_zero; [lra|]. intros k Hk. rewrite (Hbelow i (ck k)) by (lia || (apply Hck; lia)). lra. }
  assert (Hz : forall a, (a < m)%nat -> rsum (fun b => get A a b * nth b v 0) n = 0).
  { apply (Hinj (fun a => rsum (fun b => get A a b * nth b v 0) n)). intros i Hi. transitivity (rsum (fun b => get Rf i b * nth b v 0) n); [|exact (HR i Hi)].
    transitivity (rsum (fun k => rsum (fun b => get Of i k * get A k b * nth b v 0) n) m).
    { apply rsum_ext. intros k Hk. rewrite <- rsum_scal. apply rsum_ext. intros. lra. }
    rewrite rsum_swap. apply rsum_ext. intros b Hb.
    rewrite <- (Hea i b Hi Hb), <- rsum_scal_r. apply rsum_ext. intros. lra. }
  destruct HA as [HAl HAr].
  apply (nth_ext _ _ 0 0); [unfold mapply, vzero; rewrite length_map, repeat_length; exact HAl|].
  intros a Ha. unfold mapply in Ha. rewrite length_map in Ha.
  assert (Ham : (a < m)%nat) by mlia.
  unfold mapply. rewrite (nth_map_lt _ _ _ _ []) by exact Ha. unfold vzero. rewrite nth_repeat.
  assert (La := HAr a Ham). unfold vec, mat in La. rewrite vdot_sum, La.
  etransitivity; [|exact (Hz a Ham)]. apply rsum_ext. intros b Hb. reflexivity.
Qed.
End NullVec.

(** X24: In exact arithmetic, [nullBasis(0)] of a well-formed [A] returns [n - rank(0)] vectors of length [n], each [v] with [A v = 0]. *)
Theorem nullBasis_exact (A : @mat R) :
  wf A = true ->
  let B := fst (m_nullBasis (fresh A) 0) in
  length B = (mcols A - fst (m_rank (fresh A) 0%R))%nat /\
  forall v, In v B -> length v = mcols A /\ mapply A v = vzero (mrows A).
Proof.
  intros Hw. cbv zeta. rewrite rank_fresh.
  destruct (plu0_ops A Hw) as (c & st & Hc & Hi & Hend & Hpc & Hea & Hinj).
  destruct (rref_ops_final A c st Hc Hi Hea Hinj) as (HOd & Hea' & Hinj').
  assert (Z0 : nzero = 0) by reflexivity.
  destruct (rref_compute_structure (fun x => x = 0) 0 (mrows A) (mcols A) c st Z0
              ltac:(intros x y f -> ->; rnum; ring) ltac:(intros x f ->; rnum; ring) Hc Hi Hend)
    as (HD & Hck & Hmono & Hl & Hp & Hbl & Hz).
  cbn [m_nullBasis m_rref m_pivots m_PLU fresh ocache c_nullBasis c_rref c_PLU empty_cache entries fst].
  rewrite Hpc. cbn [plu_pivots].
  destruct (rref_compute _) as [Rf Eo] eqn:ER. cbn [fst snd] in * .
  cbn [m_pivots m_PLU upd_cache set_rref set_PLU set_nullBasis ocache c_PLU entries fresh empty_cache fst snd plu_pivots].
  rewrite (length_pivots_inv _ _ _ _ _ Hi).
  set (ck := fun k => snd (nth k (st_pivots st) (0%nat, 0%nat))) in * .
  set (r := st_row st) in * .
  rewrite (pivots_as_map (st_pivots st) r (pi_fst _ _ _ _ _ Hi)).
  change (fun k : nat => (k, snd (nth k (st_pivots st) (0%nat, 0%nat)))) with (fun k => (k, ck k)).
  assert (Hrm : (r <= mrows A)%nat) by exact (pi_row _ _ _ _ _ Hi).
  destruct (null_loop_spec Rf (mcols A) r ck Hmono (mcols A) 0 0 [] (Nat.le_0_l _)
              ltac:(intros; lia) ltac:(intros k Hk; split; [lia | apply Hck; lia])) as [Hlen Hin].
  rewrite Nat.sub_0_r in Hlen, Hin. cbn [seq map] in Hlen, Hin.
  split; [rewrite Hlen; reflexivity|].
  intros v Hv. destruct (Hin v Hv) as [[]|(j & q & Hj & Hq & Hq1 & Hq2 & ->)].
  exact (null_vec_kernel A Eo Rf (mrows A) (mcols A) r ck (wf_dims A Hw) Hea' Hinj' Hrm Hck Hmono
           (fun k j Hk Hj => Hl k j Hk Hj) (fun k Hk => Hp k Hk) (fun i j Hij Hj => Hbl i j Hij Hj)
           (fun k i Hk Hik => Hz k i Hk Hik) j q ltac:(lia) Hq Hq1 Hq2).
Qed.

Lemma nullBasis_exact_witness :
  let A := [[1; 2; 3]; [2; 4; 6]] in
  wf A = true /\
  let B := fst (m_nullBasis (fresh A) 0) in
  length B = (mcols A - fst (m_rank (fresh A) 0%R))%nat /\
  forall v, In v B -> length v = mcols A /\ mapply A v = vzero (mrows A).
Proof. cbv zeta. split; [reflexivity|]. apply nullBasis_exact. reflexivity. Defined.

End NullBasisExact.
